(** * whaticon: fingerprint codec, index store, matcher and batch builder

    A shallow embedding of [src/index.ts] (difference hash, Hamming distance,
    pixel comparison, index loading, [findMatches], [fetchIconSvg],
    [buildIndex]) and the properties of the specification checked against
    it, followed by further properties of the same code.

    Conventions of the embedding:
    - a [Buffer] is a list of bytes; reading past its end gives JavaScript's
      [undefined], which the bit operators coerce to 0 and which makes every
      [<] comparison false; writing past its end is ignored;
    - array indices, lengths and the count [size] are natural numbers;
      [limit] is an integer of either sign, as [parseInt] hands it over;
    - the 32-bit integer operators ([|], [<<], [>>>], [&], [Math.imul]) work on
      [Z] with the wrap-around of ToInt32 / ToUint32 written out;
    - the numbers [similarity] and [threshold] are IEEE 754 binary64 values
      (Rocq's primitive floats), computed with the same operations as the
      source;
    - a string is a [string] of bytes (its UTF-8 form);
    - a call that can throw returns a sum or an option;
    - the rasterizer ([sharp]), the (de)compressor ([zlib]) and the network
      ([fetch]) are external: they are parameters of the functions that call
      them. *)

From Stdlib Require Import ZArith Floats Uint63 Lia List Ascii String Btauto.
From Stdlib.Strings Require Import Byte.
From Stdlib Require Import Permutation Sorted.
From stdpp Require Import base list.

#[local] Set Warnings "-inexact-float".
#[local] Open Scope Z_scope.

(** ** JavaScript numbers *)

Module JS.

(** ToUint32 and ToInt32 on an integer. *)
Definition to_uint32 (z : Z) : Z := z mod 2 ^ 32.
Definition to_int32 (z : Z) : Z := (z + 2 ^ 31) mod 2 ^ 32 - 2 ^ 31.

(** [a << n], [a >> n], [a | b], [a & b], [a ^ b], [a >>> n] and
    [Math.imul] on integers. *)
Definition shl (a n : Z) : Z := to_int32 (Z.shiftl (to_int32 a) (n mod 32)).
Definition shr (a n : Z) : Z := Z.shiftr (to_int32 a) (n mod 32).
Definition or (a b : Z) : Z := Z.lor (to_int32 a) (to_int32 b).
Definition and (a b : Z) : Z := Z.land (to_int32 a) (to_int32 b).
Definition xor (a b : Z) : Z := Z.lxor (to_int32 a) (to_int32 b).
Definition ushr (a n : Z) : Z := Z.shiftr (to_uint32 a) (n mod 32).
Definition imul (a b : Z) : Z := to_int32 (to_int32 a * to_int32 b).

(** An integer below 2^53 as a number. *)
Definition of_Z (z : Z) : float := PrimFloat.of_uint63 (Uint63.of_Z z).
Definition of_nat (n : nat) : float := of_Z (Z.of_nat n).

(** [Math.floor]: NaN, the infinities, the zeros and every value with a
    non-negative exponent are their own floor. *)
Definition floor (x : float) : float :=
  match Prim2SF x with
  | S754_finite s m e =>
      if (0 <=? e)%Z then x
      else
        let n := Z.shiftr (if s then Z.neg m else Z.pos m) (- e) in
        if (n <? 0)%Z then PrimFloat.opp (of_Z (- n)) else of_Z n
  | _ => x
  end.

(** [s.split(sep)] for a one-character separator: never empty, the pieces
    between the separators, empty pieces included. *)
Fixpoint split (sep : ascii) (s : string) : list string :=
  match s with
  | EmptyString => [EmptyString]
  | String c s' =>
      if Ascii.eqb c sep then EmptyString :: split sep s'
      else
        match split sep s' with
        | [] => [String c EmptyString]
        | piece :: pieces => String c piece :: pieces
        end
  end.

(** [names.join(sep)]. *)
Definition join (sep : string) (pieces : list string) : string :=
  String.concat sep pieces.

(** [Boolean(s)] on a string: the empty string is falsy. *)
Definition truthy (s : string) : bool :=
  match s with EmptyString => false | _ => true end.

(** [new Set(xs).has(x)]. *)
Definition has (xs : list string) (x : string) : bool :=
  existsb (String.eqb x) xs.

(** [xs?.length ? new Set(xs) : null]: an absent or empty list gives no
    set. *)
Definition set_of (xs : option (list string)) : option (list string) :=
  match xs with
  | Some (x :: rest) => Some (x :: rest)
  | _ => None
  end.

(** [arr.slice(0, end)] for an integer [end]: a negative [end] counts from
    the end of the array, and the result never reaches past either end. *)
Definition slice_end (len : nat) (end_ : Z) : nat :=
  Z.to_nat
    (if end_ <? 0 then Z.max (Z.of_nat len + end_) 0
     else Z.min end_ (Z.of_nat len)).

Definition slice0 {A} (end_ : Z) (arr : list A) : list A :=
  take (slice_end (length arr) end_) arr.

(** [arr.sort(cmp)]: the sort is stable; [cmp a b < 0] puts [a] before
    [b], and every other answer of [cmp] (positive, zero, NaN) leaves the
    pair as the algorithm meets it.  On a comparator that is a consistent
    order of the array every stable sort returns the same list, and the
    model, a stable insertion sort, returns it.  On any other comparator
    the language leaves the order to the engine: there the model is one
    admissible engine, and nothing below relies on its order except the
    evaluation at [chainIndex], where a binary insertion gives the same
    list.  Every property that depends on the order is stated for consistent
    comparators; the others use only that the result is a rearrangement of
    the array. *)
Definition goes_before {A} (cmp : A -> A -> float) (a b : A) : bool :=
  PrimFloat.ltb (cmp a b) 0.

Fixpoint insert_sorted {A} (cmp : A -> A -> float) (a : A) (sorted : list A)
  : list A :=
  match sorted with
  | [] => [a]
  | b :: rest =>
      if goes_before cmp b a then b :: insert_sorted cmp a rest
      else a :: b :: rest
  end.

Definition sort {A} (cmp : A -> A -> float) (arr : list A) : list A :=
  fold_right (insert_sorted cmp) [] arr.

End JS.

(** ** Buffers *)

Abbreviation Buffer := (list byte).

Definition b2z (b : byte) : Z := Z.of_N (Byte.to_N b).

(** Storing a number into a [Uint8Array] slot keeps it modulo 256. *)
Definition u8 (z : Z) : byte :=
  match Byte.of_N (Z.to_N (z mod 256)) with
  | Some b => b
  | None => x00
  end.

(** [buf[i]] under a bit operator: [undefined] counts as 0. *)
Definition byteAt (buf : Buffer) (i : nat) : Z :=
  match buf !! i with
  | Some b => b2z b
  | None => 0
  end.

(** [buf[i]! < buf[j]!]: false as soon as one side is [undefined]. *)
Definition pixelLt (data : Buffer) (i j : nat) : bool :=
  match data !! i, data !! j with
  | Some l, Some r => b2z l <? b2z r
  | _, _ => false
  end.

(** [Buffer.alloc(n)] and [Buffer.alloc(n, fill)]. *)
Definition alloc (n : nat) : Buffer := replicate n x00.
Definition allocFill (n : nat) (fill : byte) : Buffer := replicate n fill.

(** [buf.subarray(start, start + len)] for [start + len] within [buf]. *)
Definition slice (buf : Buffer) (start len : nat) : Buffer :=
  take len (drop start buf).

(** ** Fingerprint codec *)

Definition DEFAULT_SIZE : nat := 32.
Definition HASH_BYTES : nat := 128.

(** The state of the bit-packing loop of [computeHashFromPixels] (and of
    [extractHashesFromSprite]). *)
Record Packer : Type := mkPacker {
  hash : Buffer;
  byteIndex : nat;
  byte : Z;
  bitInByte : Z
}.

Definition packerInit : Packer :=
  {| hash := alloc HASH_BYTES; byteIndex := 0; byte := 0; bitInByte := 0 |}.

(** One turn of the inner loop: [darker] is the outcome of the pixel
    comparison. *)
Definition packBit (st : Packer) (darker : bool) : Packer :=
  let byte1 := if darker then JS.or (byte st) (JS.shr 128 (bitInByte st))
               else byte st in
  let bit1 := bitInByte st + 1 in
  if bit1 =? 8 then
    {| hash := <[byteIndex st := u8 byte1]> (hash st);
       byteIndex := S (byteIndex st);
       byte := 0;
       bitInByte := 0 |}
  else
    {| hash := hash st; byteIndex := byteIndex st;
       byte := byte1; bitInByte := bit1 |}.

(** The rows [y] and columns [x] visited by the two nested [for] loops, with
    the comparison made at each. *)
Definition rowBits (data : Buffer) (rowStart width : nat) : list bool :=
  map (fun x => pixelLt data (rowStart + x) (rowStart + x + 1)) (seq 0 width).

Definition computeHashFromPixels (data : Buffer) (size rowWidth : nat)
  : Buffer :=
  hash
    (fold_left
       (fun st y =>
          let rowOffset := (y * rowWidth)%nat in
          fold_left packBit (rowBits data rowOffset size) st)
       (seq 0 size) packerInit).

(** The 32-bit word [i / 4] of the XOR of two buffers, [b] read at
    [offset + i]. *)
Definition xorWord (h1 h2 : Buffer) (offset i : nat) : Z :=
  let x (k : nat) := JS.xor (byteAt h1 (i + k)) (byteAt h2 (offset + i + k)) in
  JS.ushr
    (JS.or (JS.or (JS.or (x 0%nat) (JS.shl (x 1%nat) 8)) (JS.shl (x 2%nat) 16))
       (JS.shl (x 3%nat) 24))
    0.

(** The 32-bit population count of the source, line by line. *)
Definition popcount32 (xor0 : Z) : Z :=
  let xor1 := xor0 - JS.and (JS.ushr xor0 1) 0x55555555 in
  let xor2 := JS.and xor1 0x33333333 + JS.and (JS.ushr xor1 2) 0x33333333 in
  let xor3 := JS.and (xor2 + JS.ushr xor2 4) 0x0f0f0f0f in
  JS.ushr (JS.imul xor3 0x01010101) 24.

(** The values of [i] in [for (let i = 0; i < len; i += 4)]. *)
Definition wordOffsets (len : nat) : list nat :=
  map (fun k => (4 * k)%nat) (seq 0 ((len + 3) / 4)).

Definition distanceLoop (h1 h2 : Buffer) (offset len : nat) : Z :=
  fold_left
    (fun distance i => distance + popcount32 (xorWord h1 h2 offset i))
    (wordOffsets len) 0.

Inductive Error : Type :=
| HashLengthMismatch (len1 len2 : nat).

Definition hammingDistance (h1 h2 : Buffer) : Error + Z :=
  if negb (length h1 =? length h2)%nat
  then inl (HashLengthMismatch (length h1) (length h2))
  else inr (distanceLoop h1 h2 0 (length h1)).

Definition hashSimilarity (h1 h2 : Buffer) : Error + float :=
  match hammingDistance h1 h2 with
  | inl e => inl e
  | inr distance =>
      let totalBits := (length h1 * 8)%nat in
      inr (1 - JS.of_Z distance / JS.of_nat totalBits)%float
  end.

Definition hammingDistanceAtOffset (h1 indexHashes : Buffer) (offset : nat)
  : Z :=
  distanceLoop h1 indexHashes offset HASH_BYTES.

(** ** The pixel comparison *)

Inductive PixelError : Type :=
| BufferLengthMismatch (len1 len2 : nat).

(** [px[i] ?? 0] as a number. *)
Definition pixelAt (px : Buffer) (i : nat) : float := JS.of_Z (byteAt px i).

(** The sum [diff] is built in numbers, one addition per pixel, as the loop
    builds it. *)
Definition pixelSimilarity (px1 px2 : Buffer) : PixelError + float :=
  if negb (length px1 =? length px2)%nat
  then inl (BufferLengthMismatch (length px1) (length px2))
  else
    let diff :=
      fold_left
        (fun diff i =>
           (diff + PrimFloat.abs (pixelAt px1 i - pixelAt px2 i))%float)
        (seq 0 (length px1)) 0%float in
    inr (1 - diff / (JS.of_nat (length px1) * 255))%float.

(** ** Records of the interface *)

Module IconMatch.
Record t : Type := mk { name : string; similarity : float }.
End IconMatch.

Module MatchOptions.
Record t : Type := mk {
  size : option nat;
  limit : option Z;
  threshold : option float;
  prefixes : option (list string);
  prefer : option (list string)
}.
(** [options = {}]. *)
Definition empty : t := mk None None None None None.
End MatchOptions.

Module IconIndex.
Record t : Type := mk { names : list string; hashes : Buffer }.
End IconIndex.

Module IconInput.
Record t : Type := mk { name : string; svg : string }.
End IconInput.

(** The value [buildIndex] resolves to. *)
Module IndexBlobs.
Record t : Type := mk { names : string; hashes : Buffer }.
End IndexBlobs.

(** [namesStr.split('\n').filter(Boolean)]: the non-empty lines. *)
Definition parseNames (namesStr : string) : list string :=
  List.filter JS.truthy (JS.split "010" namesStr).

(** [name.split(':')[0]]: [split] never returns an empty array. *)
Definition prefixOf (name : string) : string :=
  hd EmptyString (JS.split ":" name).

(** The comparator handed to [sort] in [findMatches]. *)
Definition compareMatches (preferSet : option (list string))
  (a b : IconMatch.t) : float :=
  let simDiff := (IconMatch.similarity b - IconMatch.similarity a)%float in
  if PrimFloat.ltb 0.001 (PrimFloat.abs simDiff) then simDiff
  else
    match preferSet with
    | Some preferred =>
        let aPrefix := prefixOf (IconMatch.name a) in
        let bPrefix := prefixOf (IconMatch.name b) in
        let aPreferred := JS.has preferred aPrefix in
        let bPreferred := JS.has preferred bPrefix in
        if aPreferred && negb bPreferred then (-1)%float
        else if bPreferred && negb aPreferred then 1%float
        else 0%float
    | None => 0%float
    end.

(** [1 - dist / (HASH_BYTES * 8)] for an integer [dist]. *)
Definition similarityOfDistance (dist : Z) : float :=
  (1 - JS.of_Z dist / JS.of_nat (HASH_BYTES * 8))%float.

(** The body of the scan loop of [findMatches] for record [i], whose name is
    [name]: [matches] with the record pushed, or unchanged after a
    [continue]. *)
Definition scanRecord (inputHash : Buffer) (hashes : Buffer)
  (prefixSet : option (list string)) (threshold thresholdDist : float)
  (matches : list IconMatch.t) (i : nat) (name : string)
  : list IconMatch.t :=
  let skipped :=
    match prefixSet with
    | Some allowed =>
        let prefix := prefixOf name in
        negb (JS.truthy prefix) || negb (JS.has allowed prefix)
    | None => false
    end in
  if skipped then matches
  else
    let dist := hammingDistanceAtOffset inputHash hashes (i * HASH_BYTES) in
    if PrimFloat.ltb thresholdDist (JS.of_Z dist) then matches
    else
      let similarity := similarityOfDistance dist in
      if PrimFloat.leb threshold similarity
      then matches ++ [IconMatch.mk name similarity]
      else matches.

(** [for (let i = 0; i < index.names.length; i++)], from record [i] on. *)
Fixpoint scanFrom (inputHash : Buffer) (hashes : Buffer)
  (prefixSet : option (list string)) (threshold thresholdDist : float)
  (i : nat) (names : list string) (matches : list IconMatch.t)
  : list IconMatch.t :=
  match names with
  | [] => matches
  | name :: rest =>
      scanFrom inputHash hashes prefixSet threshold thresholdDist (S i) rest
        (scanRecord inputHash hashes prefixSet threshold thresholdDist
           matches i name)
  end.

(** The scan loop of [findMatches]: the candidates, in index order. *)
Definition scanIndex (inputHash : Buffer) (index : IconIndex.t)
  (threshold : float) (prefixes : option (list string))
  : list IconMatch.t :=
  let prefixSet := JS.set_of prefixes in
  let thresholdDist :=
    JS.floor ((1 - threshold) * JS.of_nat HASH_BYTES * 8)%float in
  scanFrom inputHash (IconIndex.hashes index) prefixSet threshold
    thresholdDist 0 (IconIndex.names index) [].

(** [findMatches] from the point where the query fingerprint is known. *)
Definition matchHash (inputHash : Buffer) (index : IconIndex.t)
  (limit : Z) (threshold : float)
  (prefixes prefer : option (list string)) : list IconMatch.t :=
  let matches := scanIndex inputHash index threshold prefixes in
  let preferSet := JS.set_of prefer in
  JS.slice0 limit (JS.sort (compareMatches preferSet) matches).

(** ** The batch builder's cell extraction *)

Definition SPRITE_COLS : nat := 50.

(** [Math.ceil(n / d)] on counts. *)
Definition ceilDiv (n d : nat) : nat := ((n + d - 1) / d)%nat.

Definition extractHashesFromSprite (data : Buffer)
  (spriteWidth count cols iconWidth iconHeight : nat) : list Buffer :=
  map
    (fun i =>
       let startX := ((i mod cols) * iconWidth)%nat in
       let startY := ((i / cols) * iconHeight)%nat in
       hash
         (fold_left
            (fun st y =>
               let rowStart := ((startY + y) * spriteWidth + startX)%nat in
               fold_left packBit (rowBits data rowStart iconHeight) st)
            (seq 0 iconHeight) packerInit))
    (seq 0 count).

(** ** Functions that call the external collaborators *)

(** How [sharp] is asked to fit the picture into the frame. *)
Inductive Fit : Type := Contain | Fill.

Section External.

(** [sharp(Buffer.from(svg)).flatten(..).resize(width, height, {fit, ..})
    .grayscale().raw().toBuffer()]: the grayscale raster, or [None] when
    the renderer throws. *)
Variable sharpRaw : string -> nat -> nat -> Fit -> option Buffer.

(** [gunzipSync]: the decompressed payload, or [None] when it throws. *)
Variable gunzipSync : Buffer -> option Buffer.

(** [createSpriteSheet(icons, cols, iconSize)]: the text of the composite
    SVG document; it is only handed to the renderer. *)
Variable createSpriteSheet : list IconInput.t -> nat -> nat -> string.

Definition computeDHash (svg : string) (size : nat) : option Buffer :=
  data ← sharpRaw svg (size + 1) size Contain;
  Some (computeHashFromPixels data size (size + 1)).

(** The names text is the decompressed payload read as UTF-8.  A string of
    the embedding is the UTF-8 form of the text, so the decoding is the
    identity on a payload that is valid UTF-8.  On any other payload the
    code puts U+FFFD in the place of the invalid bytes, which the embedding
    leaves as they are: the bytes inside such a name differ, the line
    breaks and the fingerprint buffer do not. *)
Definition loadIndex (namesGz hashesGz : Buffer) : option IconIndex.t :=
  namesRaw ← gunzipSync namesGz;
  let namesStr := string_of_list_byte namesRaw in
  let names := parseNames namesStr in
  hashes ← gunzipSync hashesGz;
  Some (IconIndex.mk names hashes).

Definition findMatches (svg : string) (index : IconIndex.t)
  (options : MatchOptions.t) : option (list IconMatch.t) :=
  let size := default DEFAULT_SIZE (MatchOptions.size options) in
  let limit := default 10 (MatchOptions.limit options) in
  let threshold := default 0.8%float (MatchOptions.threshold options) in
  inputHash ← computeDHash svg size;
  Some (matchHash inputHash index limit threshold
          (MatchOptions.prefixes options) (MatchOptions.prefer options)).

(** The accumulators [names] and [hashBuffers] of [buildIndex]. *)
Abbreviation Entries := (list string * list Buffer)%type.

Definition pushEntry (acc : Entries) (name : string) (hash : Buffer)
  : Entries :=
  (acc.1 ++ [name], acc.2 ++ [hash]).

Definition batchSize : nat := (SPRITE_COLS * 20)%nat.

(** The [try] block of one batch: [None] when the renderer throws (nothing
    has been pushed by then), else the accumulators after the push loop. *)
Definition tryBatch (size : nat) (batch : list IconInput.t) (acc : Entries)
  : option Entries :=
  let iconWidth := (size + 1)%nat in
  let iconHeight := size in
  let sprite := createSpriteSheet batch SPRITE_COLS iconWidth in
  let spriteWidth := (SPRITE_COLS * iconWidth)%nat in
  let rows := ceilDiv (length batch) SPRITE_COLS in
  let spriteHeight := (rows * iconHeight)%nat in
  data ← sharpRaw sprite spriteWidth spriteHeight Fill;
  let batchHashes :=
    extractHashesFromSprite data spriteWidth (length batch) SPRITE_COLS
      iconWidth iconHeight in
  Some
    (fold_left
       (fun acc j =>
          match batch !! j, batchHashes !! j with
          | Some icon, Some hash => pushEntry acc (IconInput.name icon) hash
          | _, _ => acc
          end)
       (seq 0 (length batch)) acc).

(** The [catch] block: one icon at a time, failures skipped. *)
Definition fallbackBatch (size : nat) (batch : list IconInput.t)
  (acc : Entries) : Entries :=
  fold_left
    (fun acc icon =>
       match computeDHash (IconInput.svg icon) size with
       | Some hash => pushEntry acc (IconInput.name icon) hash
       | None => acc
       end)
    batch acc.

Definition processBatch (size : nat) (batch : list IconInput.t)
  (acc : Entries) : Entries :=
  match tryBatch size batch acc with
  | Some acc' => acc'
  | None => fallbackBatch size batch acc
  end.

(** The values of [i] in [for (let i = 0; i < n; i += batchSize)]. *)
Definition batchOffsets (n : nat) : list nat :=
  map (fun k => (k * batchSize)%nat) (seq 0 (ceilDiv n batchSize)).

(** [names] and [hashBuffers] when the loop over the batches is done.  The
    progress callback takes no part in them. *)
Definition buildEntries (icons : list IconInput.t) (size : nat) : Entries :=
  fold_left
    (fun acc i => processBatch size (take batchSize (drop i icons)) acc)
    (batchOffsets (length icons)) ([], []).

Definition buildIndex (icons : list IconInput.t) (size : nat)
  : IndexBlobs.t :=
  let entries := buildEntries icons size in
  IndexBlobs.mk (JS.join (String "010" EmptyString) entries.1)
    (concat entries.2).

End External.

(** ** Fetching an icon *)

(** What [fetchIconSvg] reads of the response of [fetch]: [res.ok],
    [res.status] and the text that [res.text()] resolves to. *)
Module Response.
Record t : Type := mk { ok : bool; status : nat; text : string }.
End Response.

Inductive FetchError : Type :=
| InvalidIconName (name : string)
| FetchFailed (name : string) (status : nat)
| FetchRejected.

Section Network.

(** [fetch(url)]: the response, or [None] when the promise rejects. *)
Variable fetch : string -> option Response.t.

(** [fetchIconSvg] with the URLs it requests, in order, beside its outcome.
    A piece that the destructuring [[prefix, icon] = name.split(':')] does
    not find is [undefined], which [!] takes for false like the empty
    string. *)
Definition fetchIconSvg (name : string) : list string * (FetchError + string) :=
  let parts := JS.split ":" name in
  match parts !! 0%nat, parts !! 1%nat with
  | Some prefix, Some icon =>
      if negb (JS.truthy prefix) || negb (JS.truthy icon)
      then ([], inl (InvalidIconName name))
      else
        let url :=
          ("https://api.iconify.design/" ++ prefix ++ "/" ++ icon ++ ".svg")%string in
        match fetch url with
        | None => ([url], inl FetchRejected)
        | Some res =>
            if negb (Response.ok res)
            then ([url], inl (FetchFailed name (Response.status res)))
            else ([url], inr (Response.text res))
        end
  | _, _ => ([], inl (InvalidIconName name))
  end.

End Network.

(** ** What the callers of [buildIndex] observe *)

(** The calls [onProgress?.(Math.min(i + batchSize, icons.length),
    icons.length)] that [buildIndex] makes for [total] icons: one at the end
    of each turn of the loop over the batches, whatever became of the
    batch. *)
Definition progressCalls (total : nat) : list (nat * nat) :=
  map (fun i => (Nat.min (i + batchSize) total, total)) (batchOffsets total).

(** [names.split('\n').length], the count that [scripts/build-index.ts]
    prints for the [names] that [buildIndex] returned. *)
Definition reportedCount (names : string) : nat :=
  length (JS.split "010" names).

(** ** Reference definitions used by the statements *)

(** The number of set bits of a byte, bit by bit. *)
Definition popcount8 (z : Z) : Z :=
  fold_right Z.add 0
    (map (fun j => Z.b2z (Z.testbit z (Z.of_nat j))) (seq 0 8)).

(** Bit [k] of a buffer in the order of the fingerprint: byte [k / 8], most
    significant bit first. *)
Definition bitOf (h : Buffer) (k : nat) : bool :=
  Z.testbit (byteAt h (k / 8)) (7 - Z.of_nat (k mod 8)).

Definition differAt (h1 h2 : Buffer) (k : nat) : bool :=
  xorb (bitOf h1 k) (bitOf h2 k).

(** The naive distance: the number of bit positions at which two buffers
    differ. *)
Definition differingBits (h1 h2 : Buffer) : nat :=
  length (List.filter (differAt h1 h2) (seq 0 (8 * length h1))).

(** The three masking steps of the population count, with the mask as a
    parameter, and a little-endian word of four bytes. *)
Definition step1 (m x : Z) : Z := x - Z.land (x / 2) m.
Definition step2 (m x : Z) : Z := Z.land x m + Z.land (x / 4) m.
Definition step3 (m x : Z) : Z := Z.land (x + x / 16) m.

Definition word4 (x0 x1 x2 x3 : Z) : Z :=
  x0 + 256 * (x1 + 256 * (x2 + 256 * x3)).

(** The bits in which byte [i] of [h1] differs from byte [offset + i] of
    [h2]. *)
Definition xorBits (h1 h2 : Buffer) (offset i : nat) : Z :=
  popcount8 (Z.lxor (byteAt h1 i) (byteAt h2 (offset + i))).

Definition sumOver (g : nat -> Z) (l : list nat) : Z :=
  fold_right (fun i acc => g i + acc) 0 l.

(** ** The bit-packing loop, for the statements about the fingerprint *)

(** The packer run over a list of comparison outcomes. *)
Definition packAll (bits : list bool) : Packer :=
  fold_left packBit bits packerInit.

(** The comparison outcomes in the order [computeHashFromPixels] makes
    them: row by row, left to right. *)
Definition pixelBits (data : Buffer) (size rowWidth : nat) : list bool :=
  flat_map (fun y => rowBits data (y * rowWidth) size) (seq 0 size).

(** [byte] after [byte |= 128 >> r] when the comparison held. *)
Definition nextByte (byte r : Z) (d : bool) : Z :=
  if d then JS.or byte (JS.shr 128 r) else byte.

(** What holds of the packer after the outcomes [bits]: the position, the
    bits gathered in the current byte, and the bytes already stored. *)
Definition PackerInv (bits : list bool) (st : Packer) : Prop :=
  let n := length bits in
  byteIndex st = (n / 8)%nat /\
  bitInByte st = Z.of_nat (n mod 8) /\
  length (hash st) = HASH_BYTES /\
  0 <= byte st < 256 /\
  (forall j, (j < 8)%nat ->
     Z.testbit (byte st) (7 - Z.of_nat j)
     = (j <? n mod 8)%nat && nth (8 * (n / 8) + j) bits false) /\
  (forall k, (k < 8 * (n / 8))%nat -> (k / 8 < HASH_BYTES)%nat ->
     exists b, hash st !! (k / 8)%nat = Some b /\
       Z.testbit (b2z b) (7 - Z.of_nat (k mod 8)) = nth k bits false).

(** A 33 x 32 raster of vertical stripes, for the examples. *)
Definition stripes : Buffer :=
  concat (replicate 32 (concat (replicate 16 [x10; x20]) ++ [x30])).

(** ** The index blobs, for the statements about [buildIndex] *)

Fixpoint hasChar (c : ascii) (s : string) : bool :=
  match s with
  | EmptyString => false
  | String c' s' => Ascii.eqb c' c || hasChar c s'
  end.

(** A name that survives the names file: not empty and free of newlines. *)
Definition validName (name : string) : bool :=
  JS.truthy name && negb (hasChar "010" name).

(** What holds of the accumulators of [buildIndex] at every point: names and
    fingerprints come in pairs, every fingerprint has 128 bytes, and every
    name satisfies [Q] when the names of the icons do. *)
Definition EntriesOk (Q : string -> Prop) (acc : list string * list Buffer)
  : Prop :=
  length acc.1 = length acc.2
  /\ Forall (fun h => length h = HASH_BYTES) acc.2
  /\ Forall Q acc.1.

(** ** Sample collaborators, for the examples *)

(** A renderer that rejects the empty document and paints everything else
    black. *)
Definition sampleSharp (svg : string) (width height : nat) (fit : Fit)
  : option Buffer :=
  if String.eqb svg EmptyString then None else Some (alloc (width * height)).

(** A sprite sheet that is the icons' sources one after the other, and one
    the renderer rejects. *)
Definition sampleSprite (icons : list IconInput.t) (cols iconSize : nat)
  : string :=
  String.concat EmptyString (map IconInput.svg icons).

Definition brokenSprite (icons : list IconInput.t) (cols iconSize : nat)
  : string := EmptyString.

(** Payloads stored without compression. *)
Definition storedGunzip (payload : Buffer) : option Buffer := Some payload.

Definition sampleIcons : list IconInput.t :=
  [IconInput.mk "lucide:home" "<svg>a</svg>";
   IconInput.mk "mdi:broken" "";
   IconInput.mk "mdi:check" "<svg>b</svg>"].

(** ** The ranking, for the statements about [findMatches] *)

(** The similarity of a record at distance [d], with the divisor written as
    the number it is. *)
Definition simOf (d : Z) : float := (1 - JS.of_Z d / 1024)%float.

(** The similarity [findMatches] computes for record [i]. *)
Definition recordSimilarity (inputHash : Buffer) (index : IconIndex.t) (i : nat)
  : float :=
  similarityOfDistance
    (hammingDistanceAtOffset inputHash (IconIndex.hashes index)
       (i * HASH_BYTES)).

(** A candidate as the scan makes them: at or above the threshold, with the
    similarity of some distance between 0 and 1024. *)
Definition Scanned (threshold : float) (m : IconMatch.t) : Prop :=
  PrimFloat.leb threshold (IconMatch.similarity m) = true
  /\ exists d, 0 <= d <= 1024 /\ IconMatch.similarity m = simOf d.

(** Two candidates are tied when their similarities differ by less than
    0.001. *)
Definition nearTie (a b : IconMatch.t) : bool :=
  PrimFloat.ltb
    (PrimFloat.abs (IconMatch.similarity a - IconMatch.similarity b)) 0.001.

(** The prefix of a candidate is in the set ([false] when there is no
    set). *)
Definition inSet (set : option (list string)) (m : IconMatch.t) : bool :=
  match set with
  | Some preferred => JS.has preferred (prefixOf (IconMatch.name m))
  | None => false
  end.

Definition preferred (prefer : option (list string)) (m : IconMatch.t) : bool :=
  inSet (JS.set_of prefer) m.

(** [x] stands at an earlier index of [l] than [y]. *)
Definition occursBefore {A} (l : list A) (x y : A) : Prop :=
  exists i j, (i < j)%nat /\ l !! i = Some x /\ l !! j = Some y.

(** The order the specification asks of two results, [a] returned before
    [b]: by similarity, descending, unless they are tied; among tied
    candidates a preferred one before one that is not; among tied and equally
    preferred ones the order of the scan. *)
Definition rankedBefore (prefer : option (list string))
  (candidates : list IconMatch.t) (a b : IconMatch.t) : Prop :=
  (nearTie a b = false ->
     PrimFloat.ltb (IconMatch.similarity b) (IconMatch.similarity a) = true)
  /\ (nearTie a b = true ->
        preferred prefer b = true -> preferred prefer a = true)
  /\ (nearTie a b = true ->
        preferred prefer a = preferred prefer b ->
        occursBefore candidates a b).

(** What a stable sort guarantees of two results, [x] returned before [y]:
    the comparator puts [x] first, or it does not put [y] first and [x] came
    first in the input. *)
Definition stablyBefore {A} (cmp : A -> A -> float) (inp : list A) (x y : A)
  : Prop :=
  JS.goes_before cmp x y = true
  \/ (JS.goes_before cmp y x = false /\ occursBefore inp x y).

(** The comparator on distances and preferences. *)
Definition beforeInt (da : Z) (pa : bool) (db : Z) (pb : bool) : bool :=
  if 2 <=? Z.abs (da - db) then da <? db else pa && negb pb.

(** The comparisons of the comparator on the similarities of two distances,
    against the same comparisons on the distances. *)
Definition floatFacts (d1 d2 : Z) : bool :=
  let s1 := simOf d1 in
  let s2 := simOf d2 in
  let diff := (s2 - s1)%float in
  Bool.eqb (PrimFloat.ltb 0.001 (PrimFloat.abs diff)) (2 <=? Z.abs (d1 - d2))
  && Bool.eqb (PrimFloat.ltb diff 0) (d1 <? d2)
  && Bool.eqb (PrimFloat.ltb (PrimFloat.abs (s1 - s2)) 0.001)
       (Z.abs (d1 - d2) <=? 1)
  && Bool.eqb (PrimFloat.ltb s2 s1) (d1 <? d2).

Definition allPairs (P : Z -> Z -> bool) (n1 n2 : nat) : bool :=
  let l2 := map Z.of_nat (seq 0 n2) in
  forallb (fun a => forallb (P a) l2) (map Z.of_nat (seq 0 n1)).

(** An index whose three records are 2, 1 and 0 bits away from the all-zero
    fingerprint, and the candidates its scan yields. *)
Definition chainIndex : IconIndex.t :=
  IconIndex.mk ["mdi:two-off"; "mdi:one-off"; "mdi:exact"]%string
    ((x03 :: alloc 127) ++ (x01 :: alloc 127) ++ alloc 128).

Definition chainMatches : list IconMatch.t :=
  [IconMatch.mk "mdi:two-off" (similarityOfDistance 2);
   IconMatch.mk "mdi:one-off" (similarityOfDistance 1);
   IconMatch.mk "mdi:exact" (similarityOfDistance 0)].

(** An index with two exact matches and one record 5 bits away, and options
    that prefer one icon set. *)
Definition homeIndex : IconIndex.t :=
  IconIndex.mk ["mdi:house"; "mdi:home"; "lucide:home"]%string
    ((x1f :: alloc 127) ++ alloc 128 ++ alloc 128).

Definition preferLucide : MatchOptions.t :=
  MatchOptions.mk None None None None (Some ["lucide"%string]).

(** Options that search one icon set only. *)
Definition onlyLucide : MatchOptions.t :=
  MatchOptions.mk None None None (Some ["lucide"%string]) None.

(** Processing a batch appends names of the batch, in the order of the
    batch. *)
Definition Appends (batch : list IconInput.t)
  (acc acc' : list string * list Buffer) : Prop :=
  exists added, acc'.1 = acc.1 ++ added
    /\ added `sublist_of` map IconInput.name batch.

(** ** Reference definitions for the further properties *)

(** The record of 128 bytes that starts at [offset], cut or padded with
    zero bytes to 128 bytes. *)
Definition recordAt (hashes : Buffer) (offset : nat) : Buffer :=
  take HASH_BYTES (drop offset hashes ++ alloc HASH_BYTES).

(** The similarity of a distance lies between 0 and 1. *)
Definition simInRange (d : Z) : bool :=
  PrimFloat.leb 0 (simOf d) && PrimFloat.leb (simOf d) 1.

(** [|x - y|] is [|y - x|] on the numbers of two bytes, and adding
    [|x - x|] to 0 gives 0. *)
Definition absDiffComm (x y : Z) : bool :=
  PrimFloat.Leibniz.eqb
    (PrimFloat.abs (JS.of_Z x - JS.of_Z y)) (PrimFloat.abs (JS.of_Z y - JS.of_Z x)).

Definition selfDiffZero (b : Z) : bool :=
  PrimFloat.Leibniz.eqb (0 + PrimFloat.abs (JS.of_Z b - JS.of_Z b)) 0.

(** Making every pixel brighter by 64. *)
Definition brighten (b : Byte.byte) : Byte.byte := u8 (b2z b + 64).

(** The cell of [width] x [height] pixels whose top left corner is at
    [(startX, startY)] of a raster [spriteWidth] pixels wide, as a raster of
    its own. *)
Definition cropCell (data : Buffer) (spriteWidth startX startY width height : nat)
  : Buffer :=
  flat_map
    (fun y => slice data ((startY + y) * spriteWidth + startX) width)
    (seq 0 height).

(** A sprite of two columns and two rows of cells of 3 x 2 pixels. *)
Definition smallSprite : Buffer :=
  [x10; x20; x30; x30; x20; x10;
   x10; x10; x20; x30; x30; x30;
   x30; x20; x10; x10; x20; x30;
   x20; x30; x10; x30; x20; x10].

(** An icon that [computeDHash] renders on its own. *)
Definition rendersAlone (sharpRaw : string -> nat -> nat -> Fit -> option Buffer)
  (size : nat) (icon : IconInput.t) : bool :=
  match computeDHash sharpRaw (IconInput.svg icon) size with
  | Some _ => true
  | None => false
  end.

(** The icons of a batch that end up in the index: all of them when the
    sprite sheet renders, else those that render on their own. *)
Definition keptIcons (sharpRaw : string -> nat -> nat -> Fit -> option Buffer)
  (createSpriteSheet : list IconInput.t -> nat -> nat -> string)
  (size : nat) (batch : list IconInput.t) : list IconInput.t :=
  match sharpRaw (createSpriteSheet batch SPRITE_COLS (size + 1)%nat)
          (SPRITE_COLS * (size + 1))%nat
          (ceilDiv (length batch) SPRITE_COLS * size)%nat Fill with
  | Some _ => batch
  | None => List.filter (rendersAlone sharpRaw size) batch
  end.

(** A threshold given in whole percent, as the command line passes it
    ([-t 0.35] is [percent 35]), and the greatest distance that reaches
    it. *)
Definition percent (j : Z) : float := (JS.of_Z j / 100)%float.
Definition percentBound (j : Z) : Z := 1024 * (100 - j) / 100.

(** The prefix test of the scan of [findMatches]: no test without a set. *)
Definition passesPrefix (prefixes : option (list string)) (name : string)
  : bool :=
  match JS.set_of prefixes with
  | Some allowed => JS.truthy (prefixOf name) && JS.has allowed (prefixOf name)
  | None => true
  end.

(** The two threshold tests of the scan on a distance. *)
Definition passesThreshold (threshold : float) (dist : Z) : bool :=
  negb (PrimFloat.ltb
          (JS.floor ((1 - threshold) * JS.of_nat HASH_BYTES * 8)%float)
          (JS.of_Z dist))
  && PrimFloat.leb threshold (similarityOfDistance dist).

(** The candidate that record [i] of the index gives, if any. *)
Definition candidateAt (inputHash : Buffer) (index : IconIndex.t)
  (threshold : float) (prefixes : option (list string)) (i : nat)
  : option IconMatch.t :=
  match IconIndex.names index !! i with
  | Some name =>
      if passesPrefix prefixes name
         && passesThreshold threshold
              (hammingDistanceAtOffset inputHash (IconIndex.hashes index)
                 (i * HASH_BYTES))
      then Some (IconMatch.mk name (recordSimilarity inputHash index i))
      else None
  | None => None
  end.

(** The threshold tests at [percent j], with the constants written as the
    numbers they are, against the bound on the distance. *)
Definition percentFacts (j : Z) : Z -> bool :=
  let threshold := percent j in
  let thresholdDist := JS.floor ((1 - threshold) * 128 * 8)%float in
  let bound := percentBound j in
  fun d =>
    Bool.eqb
      (negb (PrimFloat.ltb thresholdDist (JS.of_Z d))
       && PrimFloat.leb threshold (simOf d))
      (d <=? bound).

(** A part of an icon name: not empty and free of colons. *)
Definition namePart (s : string) : bool :=
  JS.truthy s && negb (hasChar ":" s).

(** A server that knows one icon. *)
Definition sampleFetch (url : string) : option Response.t :=
  if String.eqb url "https://api.iconify.design/lucide/home.svg"
  then Some (Response.mk true 200 "<svg>home</svg>")
  else Some (Response.mk false 404 "").

(** The batch that icon number [p] of the input falls in, and the raster
    that the renderer returns for the sprite sheet of a batch. *)
Definition batchOf (icons : list IconInput.t) (p : nat) : list IconInput.t :=
  take batchSize (drop (p / batchSize * batchSize) icons).

Definition spriteOf (sharpRaw : string -> nat -> nat -> Fit -> option Buffer)
  (createSpriteSheet : list IconInput.t -> nat -> nat -> string)
  (size : nat) (batch : list IconInput.t) : option Buffer :=
  sharpRaw (createSpriteSheet batch SPRITE_COLS (size + 1)%nat)
    (SPRITE_COLS * (size + 1))%nat
    (ceilDiv (length batch) SPRITE_COLS * size)%nat Fill.

(** The cell of icon number [j] of a batch in the raster of its sprite
    sheet: column [j mod 50], row [j / 50]. *)
Definition cellOf (data : Buffer) (size j : nat) : Buffer :=
  cropCell data (SPRITE_COLS * (size + 1))
    (j mod SPRITE_COLS * (size + 1)) (j / SPRITE_COLS * size) (size + 1) size.

(** The entry that [buildIndex] writes for icon number [p] of its input:
    the icon's name with the fingerprint cut from its cell when the sprite
    sheet of its batch renders, with the fingerprint of the icon rendered on
    its own when the sheet does not, and none when that fails too. *)
Definition entryOf (sharpRaw : string -> nat -> nat -> Fit -> option Buffer)
  (createSpriteSheet : list IconInput.t -> nat -> nat -> string)
  (size : nat) (icons : list IconInput.t) (p : nat)
  : option (string * Buffer) :=
  icon ← icons !! p;
  hash ← match spriteOf sharpRaw createSpriteSheet size (batchOf icons p) with
         | Some data =>
             extractHashesFromSprite data (SPRITE_COLS * (size + 1))
               (length (batchOf icons p)) SPRITE_COLS (size + 1) size
             !! (p mod batchSize)%nat
         | None => computeDHash sharpRaw (IconInput.svg icon) size
         end;
  Some (IconInput.name icon, hash).

(** The surviving icons, in the order of the input, each with its
    fingerprint. *)
Definition survivors (sharpRaw : string -> nat -> nat -> Fit -> option Buffer)
  (createSpriteSheet : list IconInput.t -> nat -> nat -> string)
  (size : nat) (icons : list IconInput.t) : list (string * Buffer) :=
  omap (entryOf sharpRaw createSpriteSheet size icons) (seq 0 (length icons)).

(** A renderer that rejects the empty document and fills the raster, row
    after row, with the bytes of any other document over and over. *)
Definition inkSharp (svg : string) (width height : nat) (fit : Fit)
  : option Buffer :=
  if String.eqb svg EmptyString then None
  else
    Some
      (map
         (fun i =>
            nth (i mod String.length svg) (list_byte_of_string svg) x00)
         (seq 0 (width * height))).

Definition inkIcons : list IconInput.t :=
  [IconInput.mk "lucide:home" "ab";
   IconInput.mk "mdi:broken" "";
   IconInput.mk "mdi:check" "cba"].

(** A thousand copies of one icon and one more icon: two batches. *)
Definition manyIcons : list IconInput.t :=
  replicate 1000 (IconInput.mk "lucide:home" "ab")
  ++ [IconInput.mk "mdi:check" "cba"].

(** * Properties *)

(** ** Bytes and 32-bit words *)

Lemma b2z_range b : 0 <= b2z b < 256.
Proof.
  unfold b2z. pose proof (Byte.to_N_bounded b). lia.
Qed.

Lemma mod_pow2_land x k : 0 <= k -> x mod 2 ^ k = Z.land x (Z.ones k).
Proof. intros. symmetry. now apply Z.land_ones. Qed.

Lemma land_split k x m :
  0 <= k ->
  Z.land x m = Z.land (x mod 2 ^ k) (m mod 2 ^ k) + 2 ^ k * Z.land (x / 2 ^ k) (m / 2 ^ k).
Proof.
  intros Hk.
  rewrite (Z.div_mod (Z.land x m) (2 ^ k)) at 1 by lia.
  rewrite <- !Z.shiftr_div_pow2, Z.shiftr_land by lia.
  rewrite !mod_pow2_land by lia.
  replace (Z.land (Z.land x (Z.ones k)) (Z.land m (Z.ones k)))
    with (Z.land (Z.land x m) (Z.ones k)); [lia|].
  apply Z.bits_inj'; intros n Hn. rewrite !Z.land_spec. btauto.
Qed.

Lemma lor_split k x m :
  0 <= k ->
  Z.lor x m = Z.lor (x mod 2 ^ k) (m mod 2 ^ k) + 2 ^ k * Z.lor (x / 2 ^ k) (m / 2 ^ k).
Proof.
  intros Hk.
  rewrite (Z.div_mod (Z.lor x m) (2 ^ k)) at 1 by lia.
  rewrite <- !Z.shiftr_div_pow2, Z.shiftr_lor by lia.
  rewrite !mod_pow2_land by lia.
  replace (Z.lor (Z.land x (Z.ones k)) (Z.land m (Z.ones k)))
    with (Z.land (Z.lor x m) (Z.ones k)); [lia|].
  apply Z.bits_inj'; intros n Hn. rewrite !Z.land_spec, !Z.lor_spec, !Z.land_spec. btauto.
Qed.

Lemma forallb_range (P : Z -> bool) (n : nat) :
  forallb P (map Z.of_nat (seq 0 n)) = true ->
  forall z, 0 <= z < Z.of_nat n -> P z = true.
Proof.
  intros H z Hz. rewrite forallb_forall in H. apply H.
  apply in_map_iff. exists (Z.to_nat z). split; [lia|]. apply in_seq. lia.
Qed.

Lemma lor_mod_pow2 k x m : 0 <= k ->
  Z.lor x m mod 2 ^ k = Z.lor (x mod 2 ^ k) (m mod 2 ^ k).
Proof.
  intros Hk. rewrite !mod_pow2_land by lia.
  apply Z.bits_inj'; intros n Hn. rewrite !Z.land_spec, !Z.lor_spec, !Z.land_spec. btauto.
Qed.

Lemma land_mod_pow2_r k x m : 0 <= k -> 0 <= m < 2 ^ k ->
  Z.land x m = Z.land (x mod 2 ^ k) m.
Proof.
  intros Hk Hm. rewrite <- (Z.mod_small m (2 ^ k)) at 1 2 by lia.
  rewrite !mod_pow2_land by lia.
  apply Z.bits_inj'; intros n Hn. rewrite !Z.land_spec. btauto.
Qed.

Lemma lor_disjoint k lo hi : 0 <= k -> 0 <= lo < 2 ^ k ->
  Z.lor lo (2 ^ k * hi) = lo + 2 ^ k * hi.
Proof.
  intros Hk Hlo. rewrite (lor_split k) by lia.
  rewrite (Z.mod_small lo) by lia.
  replace ((2 ^ k * hi) mod 2 ^ k) with 0 by (symmetry; rewrite Z.mul_comm; apply Z.mod_mul; lia).
  replace (lo / 2 ^ k) with 0 by (symmetry; apply Z.div_small; lia).
  replace (2 ^ k * hi / 2 ^ k) with hi by (symmetry; rewrite Z.mul_comm; apply Z.div_mul; lia).
  rewrite Z.lor_0_r, Z.lor_0_l. reflexivity.
Qed.

Lemma to_int32_small z : - 2 ^ 31 <= z < 2 ^ 31 -> JS.to_int32 z = z.
Proof. unfold JS.to_int32. intros. Z.div_mod_to_equations. lia. Qed.

Lemma to_int32_mod z : JS.to_int32 z mod 2 ^ 32 = z mod 2 ^ 32.
Proof. unfold JS.to_int32. Z.div_mod_to_equations. lia. Qed.

Lemma ushr_small a n : 0 <= a < 2 ^ 32 -> 0 <= n < 32 -> JS.ushr a n = a / 2 ^ n.
Proof.
  intros Ha Hn. unfold JS.ushr, JS.to_uint32.
  rewrite (Z.mod_small a), (Z.mod_small n) by lia.
  apply Z.shiftr_div_pow2. lia.
Qed.

Lemma and_mask a m : 0 <= a < 2 ^ 32 -> 0 <= m < 2 ^ 31 -> JS.and a m = Z.land a m.
Proof.
  intros Ha Hm. unfold JS.and. rewrite (to_int32_small m) by lia.
  rewrite (land_mod_pow2_r 32 (JS.to_int32 a)), (land_mod_pow2_r 32 a) by lia.
  now rewrite to_int32_mod.
Qed.


Lemma forallb_range2 (P : Z -> Z -> bool) (n1 n2 : nat) :
  forallb (fun a => forallb (P a) (map Z.of_nat (seq 0 n2))) (map Z.of_nat (seq 0 n1)) = true ->
  forall a b, 0 <= a < Z.of_nat n1 -> 0 <= b < Z.of_nat n2 -> P a b = true.
Proof.
  intros H a b Ha Hb.
  apply (forallb_range _ n2); [|assumption].
  apply (forallb_range (fun a => forallb (P a) _) n1 H a Ha).
Qed.

Lemma mask1_byte b c : 0 <= b < 256 -> 0 <= c < 2 ->
  Z.land (b / 2 + 128 * c) 0x55 = Z.land (b / 2) 0x55.
Proof.
  intros Hb Hc. apply Z.eqb_eq.
  apply (forallb_range2 (fun b c => Z.land (b / 2 + 128 * c) 0x55 =? Z.land (b / 2) 0x55) 256 2);
    [vm_compute; reflexivity | lia | lia].
Qed.

Lemma step1_cons b t m : 0 <= b < 256 -> 0 <= t -> 0 <= m ->
  step1 (0x55 + 256 * m) (b + 256 * t) = step1 0x55 b + 256 * step1 m t.
Proof.
  intros Hb Ht Hm. unfold step1.
  rewrite (land_split 8 ((b + 256 * t) / 2)) by lia.
  change (2 ^ 8) with 256.
  replace ((b + 256 * t) / 2 mod 256) with (b / 2 + 128 * (t mod 2))
    by (Z.div_mod_to_equations; lia).
  replace ((0x55 + 256 * m) mod 256) with 0x55 by (Z.div_mod_to_equations; lia).
  replace ((b + 256 * t) / 2 / 256) with (t / 2) by (Z.div_mod_to_equations; lia).
  replace ((0x55 + 256 * m) / 256) with m by (Z.div_mod_to_equations; lia).
  rewrite mask1_byte by (Z.div_mod_to_equations; lia). lia.
Qed.

Lemma mask2_byte b c : 0 <= b < 256 -> 0 <= c < 4 ->
  Z.land (b / 4 + 64 * c) 0x33 = Z.land (b / 4) 0x33.
Proof.
  intros Hb Hc. apply Z.eqb_eq.
  apply (forallb_range2 (fun b c => Z.land (b / 4 + 64 * c) 0x33 =? Z.land (b / 4) 0x33) 256 4);
    [vm_compute; reflexivity | lia | lia].
Qed.

Lemma step2_cons b t m : 0 <= b < 256 -> 0 <= t -> 0 <= m ->
  step2 (0x33 + 256 * m) (b + 256 * t) = step2 0x33 b + 256 * step2 m t.
Proof.
  intros Hb Ht Hm. unfold step2.
  rewrite (land_split 8 (b + 256 * t)), (land_split 8 ((b + 256 * t) / 4)) by lia.
  change (2 ^ 8) with 256.
  replace ((b + 256 * t) mod 256) with b by (Z.div_mod_to_equations; lia).
  replace ((b + 256 * t) / 256) with t by (Z.div_mod_to_equations; lia).
  replace ((b + 256 * t) / 4 mod 256) with (b / 4 + 64 * (t mod 4))
    by (Z.div_mod_to_equations; lia).
  replace ((0x33 + 256 * m) mod 256) with 0x33 by (Z.div_mod_to_equations; lia).
  replace ((b + 256 * t) / 4 / 256) with (t / 4) by (Z.div_mod_to_equations; lia).
  replace ((0x33 + 256 * m) / 256) with m by (Z.div_mod_to_equations; lia).
  rewrite mask2_byte by (Z.div_mod_to_equations; lia). lia.
Qed.

Lemma mask3_byte b c : 0 <= b < 69 -> 0 <= c < 5 ->
  Z.land (b + b / 16 + 16 * c) 0x0f = Z.land (b + b / 16) 0x0f.
Proof.
  intros Hb Hc. apply Z.eqb_eq.
  apply (forallb_range2 (fun b c => Z.land (b + b / 16 + 16 * c) 0x0f =? Z.land (b + b / 16) 0x0f) 69 5);
    [vm_compute; reflexivity | lia | lia].
Qed.

Lemma step3_cons b t m : 0 <= b < 69 -> 0 <= t -> t mod 16 < 5 -> 0 <= m ->
  step3 (0x0f + 256 * m) (b + 256 * t) = step3 0x0f b + 256 * step3 m t.
Proof.
  intros Hb Ht Hn Hm. unfold step3.
  rewrite (land_split 8 (b + 256 * t + (b + 256 * t) / 16)) by lia.
  change (2 ^ 8) with 256.
  replace ((b + 256 * t + (b + 256 * t) / 16) mod 256) with (b + b / 16 + 16 * (t mod 16))
    by (Z.div_mod_to_equations; lia).
  replace ((b + 256 * t + (b + 256 * t) / 16) / 256) with (t + t / 16)
    by (Z.div_mod_to_equations; lia).
  replace ((0x0f + 256 * m) mod 256) with 0x0f by (Z.div_mod_to_equations; lia).
  replace ((0x0f + 256 * m) / 256) with m by (Z.div_mod_to_equations; lia).
  rewrite mask3_byte by (Z.div_mod_to_equations; lia). lia.
Qed.


Lemma byte_steps b : 0 <= b < 256 ->
  (0 <= step1 0x55 b < 256) /\
  (0 <= step2 0x33 (step1 0x55 b) < 69) /\
  (step2 0x33 (step1 0x55 b) mod 16 < 5) /\
  step3 0x0f (step2 0x33 (step1 0x55 b)) = popcount8 b /\
  0 <= popcount8 b <= 8.
Proof.
  intros Hb.
  pose (P := fun b =>
     (0 <=? step1 0x55 b) && (step1 0x55 b <? 256) &&
     (0 <=? step2 0x33 (step1 0x55 b)) && (step2 0x33 (step1 0x55 b) <? 69) &&
     (step2 0x33 (step1 0x55 b) mod 16 <? 5) &&
     (step3 0x0f (step2 0x33 (step1 0x55 b)) =? popcount8 b) &&
     (0 <=? popcount8 b) && (popcount8 b <=? 8)).
  assert (H : P b = true)
    by (apply (forallb_range P 256); [vm_compute; reflexivity | lia]).
  unfold P in H. lia.
Qed.

Lemma imul_sums c0 c1 c2 c3 :
  0 <= c0 <= 8 -> 0 <= c1 <= 8 -> 0 <= c2 <= 8 -> 0 <= c3 <= 8 ->
  ((c0 + 256 * (c1 + 256 * (c2 + 256 * c3))) * 0x01010101) mod 2 ^ 32 / 2 ^ 24
  = c0 + c1 + c2 + c3.
Proof.
  intros H0 H1 H2 H3.
  replace ((c0 + 256 * (c1 + 256 * (c2 + 256 * c3))) * 0x01010101)
    with ((c0 + 256 * (c0 + c1) + 65536 * (c0 + c1 + c2)
           + (c0 + c1 + c2 + c3) * 2 ^ 24)
          + (c1 + c2 + c3 + 256 * (c2 + c3) + 65536 * c3) * 2 ^ 32) by ring.
  rewrite Z_mod_plus_full, Z.mod_small by lia.
  rewrite Z.div_add, Z.div_small by lia. lia.
Qed.


Lemma popcount32_word4 x0 x1 x2 x3 :
  0 <= x0 < 256 -> 0 <= x1 < 256 -> 0 <= x2 < 256 -> 0 <= x3 < 256 ->
  popcount32 (word4 x0 x1 x2 x3) = popcount8 x0 + popcount8 x1 + popcount8 x2 + popcount8 x3.
Proof.
  intros H0 H1 H2 H3.
  destruct (byte_steps x0 H0) as (A0 & B0 & C0 & D0 & E0).
  destruct (byte_steps x1 H1) as (A1 & B1 & C1 & D1 & E1).
  destruct (byte_steps x2 H2) as (A2 & B2 & C2 & D2 & E2).
  destruct (byte_steps x3 H3) as (A3 & B3 & C3 & D3 & E3).
  unfold popcount32, word4.
  set (W := x0 + 256 * (x1 + 256 * (x2 + 256 * x3))).
  assert (HW : 0 <= W < 2 ^ 32) by (subst W; lia).
  rewrite (ushr_small W 1) by lia. change (2 ^ 1) with 2.
  rewrite (and_mask (W / 2)) by (Z.div_mod_to_equations; lia).
  change (W - Z.land (W / 2) 0x55555555) with (step1 0x55555555 W).
  assert (S1 : step1 0x55555555 W = word4 (step1 0x55 x0) (step1 0x55 x1) (step1 0x55 x2) (step1 0x55 x3)).
  { subst W. unfold word4.
    change 0x55555555 with (0x55 + 256 * (0x55 + 256 * (0x55 + 256 * 0x55))).
    rewrite !step1_cons by lia.
    replace x3 with (x3 + 256 * 0) at 1 by lia.
    change (0x55) with (0x55 + 256 * 0) at 4.
    rewrite step1_cons by lia. change (step1 0 0) with 0.
    rewrite Z.mul_0_r, Z.add_0_r. reflexivity. }
  rewrite S1. clear S1. unfold word4.
  set (W1 := step1 85 x0 + _).
  assert (HW1 : 0 <= W1 < 2 ^ 32) by (subst W1; lia).
  rewrite (ushr_small W1 2) by lia. change (2 ^ 2) with 4.
  rewrite (and_mask W1), (and_mask (W1 / 4)) by (try (Z.div_mod_to_equations; lia); lia).
  change (Z.land W1 0x33333333 + Z.land (W1 / 4) 0x33333333) with (step2 0x33333333 W1).
  assert (S2 : step2 0x33333333 W1 =
     word4 (step2 0x33 (step1 0x55 x0)) (step2 0x33 (step1 0x55 x1))
           (step2 0x33 (step1 0x55 x2)) (step2 0x33 (step1 0x55 x3))).
  { subst W1. unfold word4.
    change 0x33333333 with (0x33 + 256 * (0x33 + 256 * (0x33 + 256 * 0x33))).
    rewrite !step2_cons by lia.
    replace (step1 85 x3) with (step1 85 x3 + 256 * 0) at 1 by lia.
    change (0x33) with (0x33 + 256 * 0) at 4.
    rewrite step2_cons by lia. change (step2 0 0) with 0.
    rewrite Z.mul_0_r, Z.add_0_r. reflexivity. }
  rewrite S2. clear S2. unfold word4.
  set (W2 := step2 51 (step1 85 x0) + _).
  assert (HW2 : 0 <= W2 < 2 ^ 31) by (subst W2; lia).
  rewrite (ushr_small W2 4) by lia. change (2 ^ 4) with 16.
  rewrite (and_mask (W2 + W2 / 16)) by (try (Z.div_mod_to_equations; lia); lia).
  change (Z.land (W2 + W2 / 16) 0x0f0f0f0f) with (step3 0x0f0f0f0f W2).
  assert (S3 : step3 0x0f0f0f0f W2 =
     word4 (popcount8 x0) (popcount8 x1) (popcount8 x2) (popcount8 x3)).
  { subst W2. unfold word4.
    change 0x0f0f0f0f with (0x0f + 256 * (0x0f + 256 * (0x0f + 256 * 0x0f))).
    rewrite !step3_cons by (try (Z.div_mod_to_equations; lia); lia).
    replace (step2 51 (step1 85 x3)) with (step2 51 (step1 85 x3) + 256 * 0) at 1 by lia.
    change (0x0f) with (0x0f + 256 * 0) at 4.
    rewrite step3_cons by (try reflexivity; lia). change (step3 0 0) with 0.
    rewrite Z.mul_0_r, Z.add_0_r, D0, D1, D2, D3. reflexivity. }
  rewrite S3. clear S3. unfold word4.
  set (W3 := popcount8 x0 + _).
  assert (HW3 : 0 <= W3 < 2 ^ 28) by (subst W3; lia).
  unfold JS.imul, JS.ushr, JS.to_uint32.
  rewrite (to_int32_small W3), (to_int32_small 0x01010101) by lia.
  rewrite to_int32_mod. change (24 mod 32) with 24.
  rewrite Z.shiftr_div_pow2 by lia.
  subst W3. apply imul_sums; lia.
Qed.

Lemma byteAt_range buf i : 0 <= byteAt buf i < 256.
Proof.
  unfold byteAt. destruct (buf !! i); [apply b2z_range | lia].
Qed.

Lemma lxor_byte_range a b : 0 <= a < 256 -> 0 <= b < 256 -> 0 <= Z.lxor a b < 256.
Proof.
  intros Ha Hb.
  assert (H : (0 <=? Z.lxor a b) && (Z.lxor a b <? 256) = true)
    by (apply (forallb_range2 (fun a b => (0 <=? Z.lxor a b) && (Z.lxor a b <? 256)) 256 256);
        [vm_compute; reflexivity | lia | lia]).
  lia.
Qed.

Lemma xor_bytes a b : 0 <= a < 256 -> 0 <= b < 256 -> JS.xor a b = Z.lxor a b.
Proof. intros. unfold JS.xor. now rewrite !to_int32_small by lia. Qed.

Lemma pack_word4 x0 x1 x2 x3 :
  0 <= x0 < 256 -> 0 <= x1 < 256 -> 0 <= x2 < 256 -> 0 <= x3 < 256 ->
  JS.ushr (JS.or (JS.or (JS.or x0 (JS.shl x1 8)) (JS.shl x2 16)) (JS.shl x3 24)) 0
  = word4 x0 x1 x2 x3.
Proof.
  intros H0 H1 H2 H3.
  assert (S1 : JS.shl x1 8 = 2 ^ 8 * x1).
  { unfold JS.shl. rewrite (to_int32_small x1) by lia. change (8 mod 32) with 8.
    rewrite Z.shiftl_mul_pow2, to_int32_small by lia. lia. }
  assert (S2 : JS.shl x2 16 = 2 ^ 16 * x2).
  { unfold JS.shl. rewrite (to_int32_small x2) by lia. change (16 mod 32) with 16.
    rewrite Z.shiftl_mul_pow2, to_int32_small by lia. lia. }
  assert (S3 : JS.shl x3 24 = JS.to_int32 (2 ^ 24 * x3)).
  { unfold JS.shl. rewrite (to_int32_small x3) by lia. change (24 mod 32) with 24.
    rewrite Z.shiftl_mul_pow2 by lia. f_equal. lia. }
  assert (O1 : JS.or x0 (JS.shl x1 8) = x0 + 2 ^ 8 * x1).
  { rewrite S1. unfold JS.or. rewrite !to_int32_small by lia.
    apply lor_disjoint; lia. }
  assert (O2 : JS.or (JS.or x0 (JS.shl x1 8)) (JS.shl x2 16)
               = x0 + 2 ^ 8 * x1 + 2 ^ 16 * x2).
  { rewrite O1, S2. unfold JS.or. rewrite !to_int32_small by lia.
    apply lor_disjoint; lia. }
  rewrite O2, S3. unfold JS.ushr, JS.or, JS.to_uint32.
  change (0 mod 32) with 0. rewrite Z.shiftr_0_r.
  rewrite lor_mod_pow2, !to_int32_mod by lia.
  rewrite !Z.mod_small by lia.
  rewrite lor_disjoint by lia. unfold word4. lia.
Qed.

Lemma xorWord_word4 h1 h2 offset i :
  xorWord h1 h2 offset i =
  word4 (Z.lxor (byteAt h1 (i + 0)) (byteAt h2 (offset + i + 0)))
        (Z.lxor (byteAt h1 (i + 1)) (byteAt h2 (offset + i + 1)))
        (Z.lxor (byteAt h1 (i + 2)) (byteAt h2 (offset + i + 2)))
        (Z.lxor (byteAt h1 (i + 3)) (byteAt h2 (offset + i + 3))).
Proof.
  unfold xorWord.
  rewrite !xor_bytes by apply byteAt_range.
  apply pack_word4; apply lxor_byte_range; apply byteAt_range.
Qed.


Lemma popcount_xorWord h1 h2 offset i :
  popcount32 (xorWord h1 h2 offset i) =
  xorBits h1 h2 offset i + xorBits h1 h2 offset (i + 1)
  + xorBits h1 h2 offset (i + 2) + xorBits h1 h2 offset (i + 3).
Proof.
  rewrite xorWord_word4, popcount32_word4
    by (apply lxor_byte_range; apply byteAt_range).
  unfold xorBits. rewrite !Nat.add_0_r, !Nat.add_assoc. reflexivity.
Qed.


Lemma sumOver_app g l1 l2 : sumOver g (l1 ++ l2) = sumOver g l1 + sumOver g l2.
Proof. induction l1 as [|a l1 IH]; simpl; [reflexivity | rewrite IH; lia]. Qed.

Lemma sumOver_ext g1 g2 l :
  (forall i, In i l -> g1 i = g2 i) -> sumOver g1 l = sumOver g2 l.
Proof.
  induction l as [|a l IH]; simpl; intros H; [reflexivity|].
  rewrite H, IH by auto. reflexivity.
Qed.

Lemma sumOver_zero g l : (forall i, In i l -> g i = 0) -> sumOver g l = 0.
Proof.
  induction l as [|a l IH]; simpl; intros H; [reflexivity|].
  rewrite H, IH by auto. reflexivity.
Qed.

Lemma sumOver_seq4 g a :
  sumOver g (seq a 4) = g a + g (a + 1)%nat + g (a + 2)%nat + g (a + 3)%nat.
Proof.
  simpl. replace (S a) with (a + 1)%nat by lia.
  replace (S (a + 1)) with (a + 2)%nat by lia.
  replace (S (a + 2)) with (a + 3)%nat by lia. lia.
Qed.

Lemma distance_fold h1 h2 offset n s acc :
  fold_left (fun distance i => distance + popcount32 (xorWord h1 h2 offset i))
    (map (fun k => (4 * k)%nat) (seq s n)) acc
  = acc + sumOver (xorBits h1 h2 offset) (seq (4 * s) (4 * n)).
Proof.
  revert s acc. induction n as [|n IH]; intros s acc.
  - simpl. lia.
  - change (seq s (S n)) with (s :: seq (S s) n). cbn [map fold_left].
    rewrite IH, popcount_xorWord.
    replace (4 * S n)%nat with (4 + 4 * n)%nat by lia.
    rewrite (seq_app 4 (4 * n)), sumOver_app, sumOver_seq4.
    replace (4 * s + 4)%nat with (4 * S s)%nat by lia.
    lia.
Qed.

Lemma distanceLoop_sum h1 h2 offset len :
  distanceLoop h1 h2 offset len
  = sumOver (xorBits h1 h2 offset) (seq 0 (4 * ((len + 3) / 4))).
Proof.
  unfold distanceLoop, wordOffsets. rewrite distance_fold. simpl. reflexivity.
Qed.

Lemma byteAt_ge buf i : (length buf <= i)%nat -> byteAt buf i = 0.
Proof.
  intros H. unfold byteAt. now rewrite lookup_ge_None_2.
Qed.

Lemma distanceLoop_exact h1 h2 :
  length h1 = length h2 ->
  distanceLoop h1 h2 0 (length h1)
  = sumOver (xorBits h1 h2 0) (seq 0 (length h1)).
Proof.
  intros Hlen. rewrite distanceLoop_sum.
  set (n := length h1) in *.
  assert (Hn : (n <= 4 * ((n + 3) / 4))%nat).
  { pose proof (Nat.div_mod (n + 3) 4 ltac:(lia)).
    pose proof (Nat.mod_upper_bound (n + 3) 4 ltac:(lia)). lia. }
  replace (4 * ((n + 3) / 4))%nat with (n + (4 * ((n + 3) / 4) - n))%nat by lia.
  rewrite seq_app, sumOver_app, (sumOver_zero _ (seq (0 + n) _)); [lia|].
  intros i Hi. apply in_seq in Hi. unfold xorBits.
  rewrite !byteAt_ge by (simpl; lia). reflexivity.
Qed.




Lemma bitOf_byte h i j : (j < 8)%nat ->
  bitOf h (8 * i + j) = Z.testbit (byteAt h i) (7 - Z.of_nat j).
Proof.
  intros Hj. unfold bitOf.
  replace ((8 * i + j) / 8)%nat with i
    by (apply (Nat.div_unique _ 8 i j); lia).
  replace ((8 * i + j) mod 8)%nat with j
    by (apply (Nat.mod_unique _ 8 i j); lia).
  reflexivity.
Qed.

Lemma popcount8_lxor a b :
  popcount8 (Z.lxor a b) =
  Z.of_nat (length (List.filter
     (fun j => xorb (Z.testbit a (7 - Z.of_nat j)) (Z.testbit b (7 - Z.of_nat j)))
     (seq 0 8))).
Proof.
  unfold popcount8. cbn [seq map fold_right List.filter].
  rewrite !Z.lxor_spec.
  change (7 - Z.of_nat 0) with 7. change (7 - Z.of_nat 1) with 6.
  change (7 - Z.of_nat 2) with 5. change (7 - Z.of_nat 3) with 4.
  change (7 - Z.of_nat 4) with 3. change (7 - Z.of_nat 5) with 2.
  change (7 - Z.of_nat 6) with 1. change (7 - Z.of_nat 7) with 0.
  change (Z.of_nat 0) with 0. change (Z.of_nat 1) with 1.
  change (Z.of_nat 2) with 2. change (Z.of_nat 3) with 3.
  change (Z.of_nat 4) with 4. change (Z.of_nat 5) with 5.
  change (Z.of_nat 6) with 6. change (Z.of_nat 7) with 7.
  destruct (xorb (Z.testbit a 0) (Z.testbit b 0)),
           (xorb (Z.testbit a 1) (Z.testbit b 1)),
           (xorb (Z.testbit a 2) (Z.testbit b 2)),
           (xorb (Z.testbit a 3) (Z.testbit b 3)),
           (xorb (Z.testbit a 4) (Z.testbit b 4)),
           (xorb (Z.testbit a 5) (Z.testbit b 5)),
           (xorb (Z.testbit a 6) (Z.testbit b 6)),
           (xorb (Z.testbit a 7) (Z.testbit b 7)); reflexivity.
Qed.

Lemma filter_shift (f : nat -> bool) s n :
  List.filter f (seq s n) = map (Nat.add s) (List.filter (fun j => f (s + j)%nat) (seq 0 n)).
Proof.
  revert s. induction n as [|n IH]; intros s; [reflexivity|].
  rewrite !seq_S, !List.filter_app, map_app, IH. cbn [List.filter].
  rewrite Nat.add_0_l. destruct (f (s + n)%nat); reflexivity.
Qed.

Lemma sum_differing h1 h2 n :
  sumOver (xorBits h1 h2 0) (seq 0 n)
  = Z.of_nat (length (List.filter (differAt h1 h2) (seq 0 (8 * n)))).
Proof.
  induction n as [|n IH]; [reflexivity|].
  rewrite seq_S, sumOver_app, IH. rewrite Nat.add_0_l.
  change (sumOver (xorBits h1 h2 0) [n]) with (xorBits h1 h2 0 n + 0).
  replace (8 * S n)%nat with (8 * n + 8)%nat by lia.
  rewrite seq_app, List.filter_app, length_app, Nat2Z.inj_add.
  rewrite (filter_shift _ (0 + 8 * n)), length_map.
  unfold xorBits. rewrite popcount8_lxor. rewrite !Nat.add_0_l.
  rewrite Z.add_0_r. f_equal. f_equal. f_equal.
  apply List.filter_ext_in. intros j Hj. apply in_seq in Hj.
  unfold differAt. rewrite !bitOf_byte by lia. reflexivity.
Qed.

Lemma hammingDistance_eq_len h1 h2 :
  length h1 = length h2 ->
  hammingDistance h1 h2 = inr (distanceLoop h1 h2 0 (length h1)).
Proof.
  intros H. unfold hammingDistance. rewrite H, Nat.eqb_refl. reflexivity.
Qed.

Lemma hammingDistance_reference h1 h2 :
  length h1 = length h2 ->
  hammingDistance h1 h2 = inr (Z.of_nat (differingBits h1 h2)).
Proof.
  intros H. rewrite hammingDistance_eq_len by assumption.
  rewrite distanceLoop_exact, sum_differing by assumption. reflexivity.
Qed.

Lemma differAt_comm h1 h2 k : differAt h1 h2 k = differAt h2 h1 k.
Proof. unfold differAt. apply xorb_comm. Qed.

Lemma differingBits_comm h1 h2 :
  length h1 = length h2 -> differingBits h1 h2 = differingBits h2 h1.
Proof.
  intros H. unfold differingBits. rewrite H. f_equal.
  apply List.filter_ext. intros k. apply xorb_comm.
Qed.

Lemma differingBits_refl h : differingBits h h = 0%nat.
Proof.
  unfold differingBits.
  rewrite (List.filter_ext _ (fun _ => false)) by (intros; apply xorb_nilpotent).
  induction (seq 0 (8 * length h)); [reflexivity | assumption].
Qed.

Lemma in_wordOffsets i len :
  In i (wordOffsets len) -> (i mod 4 = 0)%nat /\ (i < len)%nat.
Proof.
  unfold wordOffsets. intros H. apply in_map_iff in H as (k & <- & Hk).
  apply in_seq in Hk. split.
  - rewrite Nat.mul_comm. apply Nat.Div0.mod_mul.
  - pose proof (Nat.div_mod (len + 3) 4 ltac:(lia)).
    pose proof (Nat.mod_upper_bound (len + 3) 4 ltac:(lia)). lia.
Qed.

Lemma byteAt_slice buf start len j :
  (j < len)%nat -> byteAt (slice buf start len) j = byteAt buf (start + j).
Proof.
  intros Hj. unfold byteAt, slice.
  rewrite lookup_take_lt, lookup_drop by assumption. reflexivity.
Qed.

Lemma fold_left_ext_in {A B} (f g : A -> B -> A) (l : list B) (a : A) :
  (forall acc x, In x l -> f acc x = g acc x) ->
  fold_left f l a = fold_left g l a.
Proof.
  revert a. induction l as [|x l IH]; intros a H; [reflexivity|].
  simpl. rewrite H by (left; reflexivity). apply IH.
  intros acc y Hy. apply H. right. assumption.
Qed.

Lemma distanceLoop_slice h buf start len :
  (len mod 4 = 0)%nat ->
  distanceLoop h (slice buf start len) 0 len = distanceLoop h buf start len.
Proof.
  intros Hlen. unfold distanceLoop. apply fold_left_ext_in. intros acc i Hi.
  apply in_wordOffsets in Hi as [Hmod Hlt]. f_equal. f_equal.
  assert (i + 4 <= len)%nat.
  { pose proof (Nat.div_mod i 4 ltac:(lia)).
    pose proof (Nat.div_mod len 4 ltac:(lia)). lia. }
  unfold xorWord. cbn [Nat.add].
  rewrite !byteAt_slice by lia.
  rewrite !Nat.add_assoc. reflexivity.
Qed.

Lemma length_slice buf start len :
  (start + len <= length buf)%nat -> length (slice buf start len) = len.
Proof.
  intros H. unfold slice. rewrite length_take, length_drop. lia.
Qed.


(** ** Claims about the distance *)

(** C3. For buffers of equal length, [hammingDistance] is the number of bit
    positions at which they differ, as the naive bit-by-bit count
    [differingBits] computes it; hence it is symmetric, it is 0 on a buffer
    and itself, and it is 1024 on 128 bytes of 0x00 against 128 bytes of
    0xFF. *)
Theorem hammingDistance_counts_differing_bits (h1 h2 : Buffer)
  (Hlen : length h1 = length h2) :
  hammingDistance h1 h2 = inr (Z.of_nat (differingBits h1 h2))
  /\ hammingDistance h1 h2 = hammingDistance h2 h1
  /\ hammingDistance h1 h1 = inr 0
  /\ hammingDistance (allocFill 128 x00) (allocFill 128 xff) = inr 1024.
Proof.
  split; [|split; [|split]].
  - apply hammingDistance_reference, Hlen.
  - rewrite !hammingDistance_reference by congruence.
    now rewrite differingBits_comm.
  - rewrite hammingDistance_reference by reflexivity.
    now rewrite differingBits_refl.
  - vm_compute. reflexivity.
Qed.

(** Three bytes against three bytes: nine bits differ. *)
Lemma hammingDistance_counts_differing_bits_witness :
  length [x0f; xa5; x00] = length [xf0; xa4; x00]
  /\ hammingDistance [x0f; xa5; x00] [xf0; xa4; x00] = inr 9
  /\ differingBits [x0f; xa5; x00] [xf0; xa4; x00] = 9%nat.
Proof.
  split; [reflexivity|]. split; [|vm_compute; reflexivity].
  rewrite (proj1 (hammingDistance_counts_differing_bits
                    [x0f; xa5; x00] [xf0; xa4; x00] eq_refl)).
  vm_compute. reflexivity.
Defined.

(** C6. On buffers of different lengths [hammingDistance] and
    [hashSimilarity] fail with the length-mismatch error; no number is
    returned. *)
Theorem length_mismatch_fails (h1 h2 : Buffer)
  (Hlen : length h1 <> length h2) :
  hammingDistance h1 h2 = inl (HashLengthMismatch (length h1) (length h2))
  /\ hashSimilarity h1 h2 = inl (HashLengthMismatch (length h1) (length h2)).
Proof.
  assert (H : hammingDistance h1 h2
              = inl (HashLengthMismatch (length h1) (length h2))).
  { unfold hammingDistance.
    destruct (Nat.eqb_spec (length h1) (length h2)); [contradiction|].
    reflexivity. }
  split; [exact H|]. unfold hashSimilarity. rewrite H. reflexivity.
Qed.

(** 128 bytes against 64 bytes. *)
Lemma length_mismatch_fails_witness :
  hammingDistance (alloc 128) (alloc 64) = inl (HashLengthMismatch 128 64)
  /\ hashSimilarity (alloc 128) (alloc 64) = inl (HashLengthMismatch 128 64).
Proof.
  apply (length_mismatch_fails (alloc 128) (alloc 64)).
  vm_compute. discriminate.
Defined.

(** C7. For a 128-byte query [h] and a record [i] whose 128 bytes lie within
    [buf], the distance computed at the offset [i * 128] is the distance
    [hammingDistance] computes on the slice of [buf] that holds the record. *)
Theorem offset_distance_refines (h buf : Buffer) (i : nat)
  (Hh : length h = HASH_BYTES)
  (Hbuf : (i * HASH_BYTES + HASH_BYTES <= length buf)%nat) :
  hammingDistance h (slice buf (i * HASH_BYTES) HASH_BYTES)
  = inr (hammingDistanceAtOffset h buf (i * HASH_BYTES)).
Proof.
  rewrite hammingDistance_eq_len by (rewrite length_slice; assumption).
  rewrite Hh. unfold hammingDistanceAtOffset.
  rewrite distanceLoop_slice by reflexivity. reflexivity.
Qed.

(** Record 1 of a two-record buffer against a query of all ones: half of
    the bits differ. *)
Lemma offset_distance_refines_witness :
  hammingDistance (allocFill 128 xff)
    (slice (allocFill 128 x00 ++ allocFill 128 x0f) (1 * HASH_BYTES) HASH_BYTES)
  = inr (hammingDistanceAtOffset (allocFill 128 xff)
           (allocFill 128 x00 ++ allocFill 128 x0f) (1 * HASH_BYTES))
  /\ hammingDistanceAtOffset (allocFill 128 xff)
       (allocFill 128 x00 ++ allocFill 128 x0f) (1 * HASH_BYTES) = 512.
Proof.
  split.
  - apply (offset_distance_refines (allocFill 128 xff)
             (allocFill 128 x00 ++ allocFill 128 x0f) 1).
    + reflexivity.
    + vm_compute. lia.
  - vm_compute. reflexivity.
Defined.

(** ** The difference hash *)



Lemma fold_left_flat_map {A B C} (f : A -> C -> A) (g : B -> list C) l a :
  fold_left f (flat_map g l) a = fold_left (fun st y => fold_left f (g y) st) l a.
Proof.
  revert a. induction l as [|y l IH]; intros a; [reflexivity|].
  simpl. rewrite fold_left_app. apply IH.
Qed.

Lemma computeHash_packAll data size rowWidth :
  computeHashFromPixels data size rowWidth = hash (packAll (pixelBits data size rowWidth)).
Proof.
  unfold computeHashFromPixels, packAll, pixelBits.
  now rewrite fold_left_flat_map.
Qed.

Lemma packBit_length st d : length (hash (packBit st d)) = length (hash st).
Proof.
  unfold packBit. destruct (_ =? 8); simpl; [apply length_insert | reflexivity].
Qed.

Lemma fold_packBit_length bits st :
  length (hash (fold_left packBit bits st)) = length (hash st).
Proof.
  revert st. induction bits as [|d bits IH]; intros st; [reflexivity|].
  simpl. rewrite IH. apply packBit_length.
Qed.

Lemma computeHash_length data size rowWidth :
  length (computeHashFromPixels data size rowWidth) = HASH_BYTES.
Proof.
  rewrite computeHash_packAll. unfold packAll.
  rewrite fold_packBit_length. reflexivity.
Qed.

Lemma b2z_u8 z : 0 <= z < 256 -> b2z (u8 z) = z.
Proof.
  intros Hz. apply Z.eqb_eq.
  apply (forallb_range (fun z => b2z (u8 z) =? z) 256); [vm_compute; reflexivity | lia].
Qed.


Lemma nextByte_spec byte r d j :
  0 <= byte < 256 -> 0 <= r < 8 -> (j < 8)%nat ->
  0 <= nextByte byte r d < 256 /\
  Z.testbit (nextByte byte r d) (7 - Z.of_nat j)
  = Z.testbit byte (7 - Z.of_nat j) || (d && (Z.of_nat j =? r)).
Proof.
  intros Hb Hr Hj.
  pose (P := fun byte r =>
    forallb (fun d => forallb (fun j =>
      (0 <=? nextByte byte r d) && (nextByte byte r d <? 256) &&
      Bool.eqb (Z.testbit (nextByte byte r d) (7 - Z.of_nat j))
               (Z.testbit byte (7 - Z.of_nat j) || (d && (Z.of_nat j =? r))))
      (seq 0 8)) [true; false]).
  assert (H : P byte r = true)
    by (apply (forallb_range2 P 256 8); [vm_compute; reflexivity | lia | lia]).
  unfold P in H. rewrite forallb_forall in H.
  specialize (H d ltac:(destruct d; simpl; auto)).
  rewrite forallb_forall in H. specialize (H j ltac:(apply in_seq; lia)).
  apply andb_prop in H as [H1 H2]. apply Bool.eqb_prop in H2. split; [lia | exact H2].
Qed.


Lemma PackerInv_init : PackerInv [] packerInit.
Proof.
  unfold PackerInv. simpl.
  repeat split; try lia; intros; try lia; try (now rewrite Z.bits_0).
Qed.

Lemma divmod8 n : (n = 8 * (n / 8) + n mod 8 /\ n mod 8 < 8)%nat.
Proof.
  split; [apply Nat.div_mod; lia | apply Nat.mod_upper_bound; lia].
Qed.

Lemma divmod8_succ_lt n : (n mod 8 < 7)%nat ->
  (S n / 8 = n / 8 /\ S n mod 8 = S (n mod 8))%nat.
Proof.
  intros H. destruct (divmod8 n) as [E _].
  split.
  - symmetry. apply (Nat.div_unique _ 8 _ (S (n mod 8))); lia.
  - symmetry. apply (Nat.mod_unique _ 8 (n / 8)); lia.
Qed.

Lemma divmod8_succ_eq n : (n mod 8 = 7)%nat ->
  (S n / 8 = S (n / 8) /\ S n mod 8 = 0)%nat.
Proof.
  intros H. destruct (divmod8 n) as [E _].
  split.
  - symmetry. apply (Nat.div_unique _ 8 _ 0); lia.
  - symmetry. apply (Nat.mod_unique _ 8 (S (n / 8))); lia.
Qed.

Lemma PackerInv_step bits st d :
  PackerInv bits st -> PackerInv (bits ++ [d]) (packBit st d).
Proof.
  unfold PackerInv. intros (I1 & I2 & I3 & I4 & I5 & I6).
  rewrite length_app. cbn [length]. rewrite Nat.add_1_r.
  set (n := length bits) in *.
  destruct (divmod8 n) as [En Hr].
  assert (Hnb : forall j, (j < 8)%nat ->
            0 <= nextByte (byte st) (bitInByte st) d < 256 /\
            Z.testbit (nextByte (byte st) (bitInByte st) d) (7 - Z.of_nat j)
            = ((j <? n mod 8)%nat && nth (8 * (n / 8) + j) bits false)
              || (d && (j =? n mod 8)%nat)).
  { intros j Hj. destruct (nextByte_spec (byte st) (bitInByte st) d j) as [R T]; try lia.
    split; [exact R|]. rewrite T, I5 by assumption. f_equal. f_equal.
    rewrite I2. destruct (Nat.eqb_spec j (n mod 8)); lia. }
  assert (Hnew : forall j, (j < 8)%nat -> (j <= n mod 8)%nat ->
            Z.testbit (nextByte (byte st) (bitInByte st) d) (7 - Z.of_nat j)
            = nth (8 * (n / 8) + j) (bits ++ [d]) false).
  { intros j Hj Hle. rewrite (proj2 (Hnb j Hj)).
    destruct (Nat.eqb_spec j (n mod 8)) as [->|Hne].
    - rewrite Nat.ltb_irrefl. cbn [andb orb].
      replace (8 * (n / 8) + n mod 8)%nat with n by lia.
      rewrite app_nth2 by lia. subst n. rewrite Nat.sub_diag. cbn [nth].
      now rewrite andb_true_r.
    - rewrite andb_false_r, orb_false_r.
      destruct (Nat.ltb_spec j (n mod 8)); [|lia]. cbn [andb].
      rewrite app_nth1 by lia. reflexivity. }
  unfold packBit. fold (nextByte (byte st) (bitInByte st) d).
  rewrite I2.
  destruct (Z.eqb_spec (Z.of_nat (n mod 8) + 1) 8) as [E8|E8].
  - assert (H7 : (n mod 8 = 7)%nat) by lia.
    destruct (divmod8_succ_eq n H7) as [Dq Dr]. rewrite Dq, Dr.
    cbn [hash byteIndex byte bitInByte].
    split; [lia|]. split; [reflexivity|]. split; [now rewrite length_insert|].
    split; [lia|]. split.
    + intros j Hj. rewrite Z.bits_0. reflexivity.
    + intros k Hk Hk128.
      destruct (divmod8 k) as [Ek Hkr].
      destruct (Nat.eq_dec (k / 8)%nat (n / 8)%nat) as [Eq|Nq].
      * exists (u8 (nextByte (byte st) (Z.of_nat (n mod 8)) d)).
        rewrite I1, Eq. split.
        { apply list_lookup_insert_eq. lia. }
        rewrite <- I2, b2z_u8 by (apply (Hnb 0%nat); lia).
        rewrite Hnew by lia. f_equal. lia.
      * rewrite list_lookup_insert_ne by lia.
        destruct (I6 k ltac:(lia) Hk128) as (b & Hb & Tb).
        exists b. split; [exact Hb|]. rewrite Tb, app_nth1 by lia. reflexivity.
  - assert (H7 : (n mod 8 < 7)%nat) by lia.
    destruct (divmod8_succ_lt n H7) as [Dq Dr]. rewrite Dq, Dr.
    cbn [hash byteIndex byte bitInByte].
    split; [exact I1|]. split; [lia|]. split; [exact I3|].
    split; [rewrite <- I2; apply (Hnb 0%nat); lia|]. split.
    + intros j Hj. rewrite <- I2.
      destruct (Nat.ltb_spec j (S (n mod 8))) as [Hlt|Hge].
      * rewrite Hnew by lia. reflexivity.
      * rewrite (proj2 (Hnb j Hj)).
        destruct (Nat.ltb_spec j (n mod 8)); [lia|].
        destruct (Nat.eqb_spec j (n mod 8)); [lia|].
        simpl. now rewrite andb_false_r.
    + intros k Hk Hk128.
      destruct (I6 k Hk Hk128) as (b & Hb & Tb).
      exists b. split; [exact Hb|]. rewrite Tb, app_nth1 by lia. reflexivity.
Qed.

Lemma PackerInv_fold bits more st :
  PackerInv bits st -> PackerInv (bits ++ more) (fold_left packBit more st).
Proof.
  revert bits st. induction more as [|d more IH]; intros bits st H.
  - now rewrite app_nil_r.
  - simpl. replace (bits ++ d :: more) with ((bits ++ [d]) ++ more)
      by (now rewrite <- app_assoc).
    apply IH, PackerInv_step, H.
Qed.

Lemma PackerInv_packAll bits : PackerInv bits (packAll bits).
Proof. apply (PackerInv_fold [] bits), PackerInv_init. Qed.

Lemma packAll_bit bits k :
  (8 * (k / 8) + 8 <= length bits)%nat -> (k / 8 < HASH_BYTES)%nat ->
  bitOf (hash (packAll bits)) k = nth k bits false.
Proof.
  intros Hk H128.
  destruct (PackerInv_packAll bits) as (_ & _ & _ & _ & _ & I6).
  destruct (divmod8 k) as [Ek Hr].
  destruct (divmod8 (length bits)) as [En Hnr].
  destruct (I6 k) as (b & Hb & Tb); [nia | exact H128 |].
  unfold bitOf, byteAt. rewrite Hb. exact Tb.
Qed.

Lemma nth_flat_map_rows {A} (g : nat -> list A) (w n y x : nat) (d : A) :
  (forall y, length (g y) = w) -> (y < n)%nat -> (x < w)%nat ->
  nth (y * w + x) (flat_map g (seq 0 n)) d = nth x (g y) d.
Proof.
  intros Hg. revert y.
  assert (G : forall s n y, (y < n)%nat -> (x < w)%nat ->
            nth (y * w + x) (flat_map g (seq s n)) d = nth x (g (s + y)%nat) d).
  { intros s m. revert s. induction m as [|m IH]; intros s y Hy Hx; [lia|].
    cbn [seq flat_map]. destruct y as [|y].
    - rewrite app_nth1 by (rewrite Hg; lia). now rewrite Nat.add_0_r.
    - rewrite app_nth2 by (rewrite Hg; lia). rewrite Hg.
      replace (S y * w + x - w)%nat with (y * w + x)%nat by lia.
      rewrite IH by lia. f_equal. f_equal. lia. }
  intros y Hy Hx. now rewrite G.
Qed.

Lemma length_flat_map_rows {A} (g : nat -> list A) (w n s : nat) :
  (forall y, length (g y) = w) -> length (flat_map g (seq s n)) = (n * w)%nat.
Proof.
  intros Hg. revert s. induction n as [|n IH]; intros s; [reflexivity|].
  cbn [seq flat_map]. rewrite length_app, Hg, IH. lia.
Qed.

Lemma length_rowBits data rowStart width : length (rowBits data rowStart width) = width.
Proof. unfold rowBits. now rewrite length_map, length_seq. Qed.

Lemma nth_rowBits data rowStart width x :
  (x < width)%nat ->
  nth x (rowBits data rowStart width) false
  = pixelLt data (rowStart + x) (rowStart + x + 1).
Proof.
  intros Hx. unfold rowBits.
  rewrite (nth_indep _ false (pixelLt data (rowStart + 0) (rowStart + 0 + 1)))
    by (now rewrite length_map, length_seq).
  rewrite (map_nth (fun x => pixelLt data (rowStart + x) (rowStart + x + 1))).
  now rewrite seq_nth.
Qed.

Lemma computeHash_bit data size rowWidth x y :
  (x < size)%nat -> (y < size)%nat ->
  let k := (y * size + x)%nat in
  (8 * (k / 8) + 8 <= size * size)%nat -> (k / 8 < HASH_BYTES)%nat ->
  bitOf (computeHashFromPixels data size rowWidth) k
  = pixelLt data (y * rowWidth + x) (y * rowWidth + x + 1).
Proof.
  intros Hx Hy k Hk H128. rewrite computeHash_packAll.
  rewrite packAll_bit; [| |exact H128].
  - unfold pixelBits, k.
    rewrite (nth_flat_map_rows _ size) by (auto using length_rowBits).
    now apply nth_rowBits.
  - unfold pixelBits. rewrite (length_flat_map_rows _ size) by (auto using length_rowBits).
    exact Hk.
Qed.

(** C4 (amended). For a raster of [(size + 1) * size] bytes and a pixel
    [(x, y)] whose bit [k = y * size + x] falls in a byte that lies within the
    128-byte fingerprint and that the loop completes
    ([8 * (k / 8) + 8 <= size * size]; every [k] when [size = 32]), bit [k] of
    the fingerprint (byte [k / 8], most significant bit first) is 1 exactly
    when the pixel is strictly darker than its right neighbour. *)
Theorem dhash_bit_layout (data : Buffer) (size x y : nat)
  (Hdata : length data = ((size + 1) * size)%nat)
  (Hx : (x < size)%nat) (Hy : (y < size)%nat)
  (Hfull : (8 * ((y * size + x) / 8) + 8 <= size * size)%nat)
  (Hfit : ((y * size + x) / 8 < HASH_BYTES)%nat) :
  exists left right,
    data !! (y * (size + 1) + x)%nat = Some left
    /\ data !! (y * (size + 1) + x + 1)%nat = Some right
    /\ bitOf (computeHashFromPixels data size (size + 1)) (y * size + x)
       = (b2z left <? b2z right).
Proof.
  destruct (lookup_lt_is_Some_2 data (y * (size + 1) + x)) as [l Hl]; [nia|].
  destruct (lookup_lt_is_Some_2 data (y * (size + 1) + x + 1)) as [r Hr]; [nia|].
  exists l, r. split; [exact Hl|]. split; [exact Hr|].
  rewrite computeHash_bit by assumption.
  unfold pixelLt. now rewrite Hl, Hr.
Qed.


(** The last bit of the fingerprint of the striped raster, at size 32. *)
Lemma dhash_bit_layout_witness :
  exists left right,
    stripes !! (31 * (32 + 1) + 31)%nat = Some left
    /\ stripes !! (31 * (32 + 1) + 31 + 1)%nat = Some right
    /\ bitOf (computeHashFromPixels stripes 32 (32 + 1)) (31 * 32 + 31)
       = (b2z left <? b2z right).
Proof.
  apply (dhash_bit_layout stripes 32 31 31).
  - vm_compute. reflexivity.
  - lia.
  - lia.
  - vm_compute. lia.
  - vm_compute. lia.
Defined.

(** C4 as stated fails for [size = 1]: the pixel is darker than its
    neighbour, the only bit is never stored, and bit 0 of the output is 0. *)
Lemma dhash_bit_dropped_for_size_1 :
  length [x00; x01] = ((1 + 1) * 1)%nat
  /\ pixelLt [x00; x01] 0 1 = true
  /\ bitOf (computeHashFromPixels [x00; x01] 1 (1 + 1)) (0 * 1 + 0) = false.
Proof. vm_compute. auto. Qed.

(** C9 (amended). Whatever [size] is, the fingerprint of
    [computeHashFromPixels] and of [computeDHash] is exactly 128 bytes, that
    is 1024 bits; this is [size * size] bits only for [size = 32]. *)
Theorem fingerprint_always_128_bytes
  (sharpRaw : string -> nat -> nat -> Fit -> option Buffer) (svg : string)
  (data : Buffer) (size rowWidth : nat) :
  length (computeHashFromPixels data size rowWidth) = HASH_BYTES
  /\ match computeDHash sharpRaw svg size with
     | Some h => length h = HASH_BYTES
     | None => True
     end
  /\ ((8 * HASH_BYTES = size * size)%nat <-> size = 32%nat).
Proof.
  split; [apply computeHash_length|]. split.
  - unfold computeDHash. destruct (sharpRaw svg (size + 1)%nat size Contain); simpl;
      [apply computeHash_length | exact I].
  - unfold HASH_BYTES. split; intros H; [nia | subst; reflexivity].
Qed.

(** C9 as stated fails for [size = 1]: the fingerprint has 1024 bits, not
    1. *)
Lemma fingerprint_bits_not_size_squared :
  length (computeHashFromPixels [x00; x01] 1 (1 + 1)) = 128%nat
  /\ (8 * length (computeHashFromPixels [x00; x01] 1 (1 + 1)) <> 1 * 1)%nat.
Proof. split; [vm_compute; reflexivity | vm_compute; discriminate]. Qed.

(** ** The index store and the batch builder *)


Lemma split_no_sep sep s : hasChar sep s = false -> JS.split sep s = [s].
Proof.
  induction s as [|c s IH]; [reflexivity|]. cbn [hasChar JS.split].
  intros H. apply orb_false_elim in H as [Hc Hs].
  rewrite Hc, IH by assumption. reflexivity.
Qed.

Lemma split_app_sep sep s rest :
  hasChar sep s = false ->
  JS.split sep (s ++ String sep rest) = s :: JS.split sep rest.
Proof.
  induction s as [|c s IH]; cbn [hasChar JS.split String.append].
  - intros _. now rewrite Ascii.eqb_refl.
  - intros H. apply orb_false_elim in H as [Hc Hs].
    rewrite Hc, IH by assumption. reflexivity.
Qed.

Lemma split_join names :
  names <> [] -> Forall (fun n => hasChar "010" n = false) names ->
  JS.split "010" (JS.join (String "010" EmptyString) names) = names.
Proof.
  unfold JS.join. induction names as [|n names IH]; [congruence|].
  intros _ H. inversion H as [|? ? Hn Hrest]; subst.
  destruct names as [|m names].
  - cbn [String.concat]. now apply split_no_sep.
  - change (String.concat (String "010" "") (n :: m :: names))
      with (n ++ String "010" (String.concat (String "010" "") (m :: names)))%string.
    rewrite split_app_sep by assumption. f_equal. apply IH; [congruence | assumption].
Qed.

Lemma filter_truthy_all names :
  Forall (fun n => JS.truthy n = true) names -> List.filter JS.truthy names = names.
Proof.
  induction 1 as [|n names Hn _ IH]; [reflexivity|].
  cbn [List.filter]. now rewrite Hn, IH.
Qed.

Lemma validName_inv n : validName n = true -> JS.truthy n = true /\ hasChar "010" n = false.
Proof.
  unfold validName. intros H. apply andb_prop in H as [H1 H2].
  split; [exact H1|]. now apply negb_true_iff.
Qed.

Lemma parseNames_join names :
  Forall (fun n => validName n = true) names ->
  parseNames (JS.join (String "010" EmptyString) names) = names.
Proof.
  intros H. unfold parseNames. destruct names as [|n names]; [reflexivity|].
  rewrite split_join.
  - apply filter_truthy_all. eapply Forall_impl; [exact H|].
    intros a Ha. now apply validName_inv.
  - congruence.
  - eapply Forall_impl; [exact H|]. intros a Ha. now apply validName_inv.
Qed.


Lemma extract_lengths data spriteWidth count cols iconWidth iconHeight :
  Forall (fun h => length h = HASH_BYTES)
    (extractHashesFromSprite data spriteWidth count cols iconWidth iconHeight).
Proof.
  unfold extractHashesFromSprite. apply Forall_forall. intros h Hh.
  apply list_elem_of_In, in_map_iff in Hh as (i & <- & _).
  generalize packerInit (eq_refl : length (hash packerInit) = HASH_BYTES).
  induction (seq 0 iconHeight) as [|y ys IH]; intros st Hst; [exact Hst|].
  cbn [fold_left]. apply IH. now rewrite fold_packBit_length.
Qed.

Section Builder.

Variable sharpRaw : string -> nat -> nat -> Fit -> option Buffer.
Variable createSpriteSheet : list IconInput.t -> nat -> nat -> string.
Variable Q : string -> Prop.

Lemma pushEntry_ok acc name h :
  EntriesOk Q acc -> Q name -> length h = HASH_BYTES ->
  EntriesOk Q (pushEntry acc name h).
Proof.
  intros (L & F & N) Hq Hh. unfold EntriesOk, pushEntry. cbn [fst snd].
  rewrite !length_app. cbn [length]. split; [lia|].
  split; apply Forall_app; split; auto.
Qed.

Lemma tryBatch_ok size batch acc acc' :
  EntriesOk Q acc -> Forall (fun icon => Q (IconInput.name icon)) batch ->
  tryBatch sharpRaw createSpriteSheet size batch acc = Some acc' ->
  EntriesOk Q acc'.
Proof.
  intros Hacc Hbatch. unfold tryBatch.
  destruct (sharpRaw _ _ _ Fill) as [data|]; [|discriminate].
  cbn [mbind option_bind]. intros [= <-].
  set (hs := extractHashesFromSprite _ _ _ _ _ _).
  assert (Hhs : Forall (fun h => length h = HASH_BYTES) hs) by apply extract_lengths.
  clearbody hs. revert acc Hacc.
  induction (seq 0 (length batch)) as [|j js IH]; intros acc Hacc; [exact Hacc|].
  cbn [fold_left]. apply IH.
  destruct (batch !! j) as [icon|] eqn:Ei; [|exact Hacc].
  destruct (hs !! j) as [h|] eqn:Eh; [|exact Hacc].
  apply pushEntry_ok; [exact Hacc | |].
  - rewrite Forall_forall in Hbatch. apply Hbatch. eapply list_elem_of_lookup_2, Ei.
  - rewrite Forall_forall in Hhs. apply Hhs. eapply list_elem_of_lookup_2, Eh.
Qed.

Lemma fallbackBatch_ok size batch acc :
  EntriesOk Q acc -> Forall (fun icon => Q (IconInput.name icon)) batch ->
  EntriesOk Q (fallbackBatch sharpRaw size batch acc).
Proof.
  unfold fallbackBatch. intros Hacc Hbatch. revert acc Hacc.
  induction Hbatch as [|icon batch Hq _ IH]; intros acc Hacc; [exact Hacc|].
  cbn [fold_left]. apply IH.
  destruct (computeDHash sharpRaw (IconInput.svg icon) size) as [h|] eqn:E; [|exact Hacc].
  apply pushEntry_ok; [exact Hacc | exact Hq |].
  unfold computeDHash in E. destruct (sharpRaw _ _ _ Contain); [|discriminate].
  cbn in E. injection E as <-. apply computeHash_length.
Qed.

Lemma processBatch_ok size batch acc :
  EntriesOk Q acc -> Forall (fun icon => Q (IconInput.name icon)) batch ->
  EntriesOk Q (processBatch sharpRaw createSpriteSheet size batch acc).
Proof.
  intros Hacc Hbatch. unfold processBatch.
  destruct (tryBatch _ _ _ _ _) eqn:E.
  - eapply tryBatch_ok; eauto.
  - now apply fallbackBatch_ok.
Qed.

Lemma buildEntries_ok icons size :
  Forall (fun icon => Q (IconInput.name icon)) icons ->
  EntriesOk Q (buildEntries sharpRaw createSpriteSheet icons size).
Proof.
  intros Hicons. unfold buildEntries.
  assert (H0 : EntriesOk Q ([], [])) by (repeat split; constructor).
  revert H0. generalize (([], []) : list string * list Buffer).
  induction (batchOffsets (length icons)) as [|i offsets IH]; intros acc Hacc; [exact Hacc|].
  cbn [fold_left]. apply IH. apply processBatch_ok; [exact Hacc|].
  apply Forall_take, Forall_drop, Hicons.
Qed.

End Builder.

Lemma length_concat_hashes (hs : list Buffer) :
  Forall (fun h => length h = HASH_BYTES) hs ->
  length (concat hs) = (length hs * HASH_BYTES)%nat.
Proof.
  induction 1 as [|h hs Hh _ IH]; [reflexivity|].
  cbn [concat length]. rewrite length_app, Hh, IH. lia.
Qed.

Lemma slice_concat_hashes (hs : list Buffer) i h :
  Forall (fun h => length h = HASH_BYTES) hs ->
  hs !! i = Some h ->
  slice (concat hs) (i * HASH_BYTES) HASH_BYTES = h.
Proof.
  intros H. revert i. induction H as [|h0 hs Hh _ IH]; intros i Hi; [discriminate|].
  destruct i as [|i]; cbn in Hi.
  - injection Hi as ->. unfold slice. cbn [concat].
    change (0 * HASH_BYTES)%nat with 0%nat. rewrite drop_0.
    now apply take_app_length'.
  - unfold slice. cbn [concat].
    replace (S i * HASH_BYTES)%nat with (length h0 + i * HASH_BYTES)%nat by lia.
    rewrite drop_app_add. apply IH, Hi.
Qed.


(** ** The entries of the batch builder *)

Lemma fold_push_omap {X} (f : X -> option (string * Buffer)) (xs : list X)
  (acc : list string * list Buffer) :
  fold_left
    (fun acc x =>
       match f x with
       | Some e => pushEntry acc e.1 e.2
       | None => acc
       end)
    xs acc
  = (acc.1 ++ map fst (omap f xs), acc.2 ++ map snd (omap f xs)).
Proof.
  revert acc. induction xs as [|x xs IH]; intros [ns hs]; cbn [fold_left].
  - cbn. now rewrite !app_nil_r.
  - rewrite IH. cbn [omap list_omap]. fold (omap f xs).
    destruct (f x) as [[n h]|]; cbn [pushEntry fst snd map]; [|reflexivity].
    now rewrite <- !app_assoc.
Qed.

Lemma omap_seq_shift {B} (g : nat -> option B) s n :
  omap g (seq s n) = omap (fun j => g (s + j)%nat) (seq 0 n).
Proof.
  rewrite <- (Nat.add_0_r s) at 1. rewrite <- fmap_add_seq.
  apply list_omap_ext. apply Forall2_fmap_l, Forall_Forall2_diag.
  apply Forall_forall. reflexivity.
Qed.

Lemma omap_lookup_seq {A B} (f : A -> option B) (l : list A) :
  omap f l = omap (fun j => l !! j ≫= f) (seq 0 (length l)).
Proof.
  induction l as [|a l IH]; [reflexivity|].
  cbn [length seq omap list_omap]. fold (omap f l).
  fold (omap (fun j => (a :: l) !! j ≫= f) (seq 1 (length l))).
  rewrite (omap_seq_shift _ 1). cbn [lookup list_lookup mbind option_bind].
  rewrite IH. reflexivity.
Qed.

Lemma omap_lookup_prefix {A B} (f : A -> option B) (l : list A) p :
  (forall q x, (q <= p)%nat -> l !! q = Some x -> is_Some (f x)) ->
  omap f l !! p = l !! p ≫= f.
Proof.
  revert p. induction l as [|a l IH]; intros p H; [reflexivity|].
  cbn [omap list_omap]. fold (omap f l).
  destruct (H 0%nat a ltac:(lia) eq_refl) as [b Hb]. rewrite Hb.
  destruct p as [|p]; [cbn; now rewrite Hb|].
  cbn [lookup list_lookup]. apply IH.
  intros q x Hq Hx. apply (H (S q) x); [lia | exact Hx].
Qed.

Lemma batchOf_in_batch (icons : list IconInput.t) s p :
  (s * batchSize <= p < S s * batchSize)%nat ->
  batchOf icons p = take batchSize (drop (s * batchSize) icons).
Proof.
  intros Hp. unfold batchOf.
  replace (p / batchSize)%nat with s; [reflexivity|].
  apply (Nat.div_unique p batchSize s (p - s * batchSize)); lia.
Qed.

Lemma ceilDiv_lt k n : (k < ceilDiv n batchSize)%nat <-> (k * batchSize < n)%nat.
Proof.
  unfold ceilDiv, batchSize. change (SPRITE_COLS * 20)%nat with 1000%nat.
  pose proof (Nat.div_mod (n + 1000 - 1) 1000 ltac:(discriminate)) as E.
  pose proof (Nat.mod_upper_bound (n + 1000 - 1) 1000 ltac:(discriminate)) as B.
  split; intros H; nia.
Qed.

Section Entries.

Variable sharpRaw : string -> nat -> nat -> Fit -> option Buffer.
Variable createSpriteSheet : list IconInput.t -> nat -> nat -> string.

Lemma processBatch_entries (icons : list IconInput.t) size k acc :
  processBatch sharpRaw createSpriteSheet size
    (take batchSize (drop (k * batchSize) icons)) acc
  = (acc.1
     ++ map fst
          (omap (entryOf sharpRaw createSpriteSheet size icons)
             (seq (k * batchSize)
                (length (take batchSize (drop (k * batchSize) icons))))),
     acc.2
     ++ map snd
          (omap (entryOf sharpRaw createSpriteSheet size icons)
             (seq (k * batchSize)
                (length (take batchSize (drop (k * batchSize) icons)))))).
Proof.
  set (batch := take batchSize (drop (k * batchSize) icons)).
  assert (Hlen : (length batch <= batchSize)%nat)
    by (unfold batch; rewrite length_take; lia).
  assert (Hentry : forall j, (j < length batch)%nat ->
            entryOf sharpRaw createSpriteSheet size icons (k * batchSize + j)
            = (icon ← batch !! j;
               hash ← match spriteOf sharpRaw createSpriteSheet size batch with
                      | Some data =>
                          extractHashesFromSprite data (SPRITE_COLS * (size + 1))
                            (length batch) SPRITE_COLS (size + 1) size !! j
                      | None => computeDHash sharpRaw (IconInput.svg icon) size
                      end;
               Some (IconInput.name icon, hash))).
  { intros j Hj. unfold entryOf.
    rewrite (batchOf_in_batch icons k) by (rewrite Nat.mul_succ_l; lia).
    fold batch.
    replace ((k * batchSize + j) mod batchSize)%nat with j
      by (apply (Nat.mod_unique _ batchSize k j); lia).
    assert (Hlook : batch !! j = icons !! (k * batchSize + j)%nat).
    { unfold batch. rewrite lookup_take_lt by lia. apply lookup_drop. }
    rewrite Hlook. reflexivity. }
  rewrite omap_seq_shift.
  rewrite (list_omap_ext _
             (fun j =>
                icon ← batch !! j;
                hash ← match spriteOf sharpRaw createSpriteSheet size batch with
                       | Some data =>
                           extractHashesFromSprite data (SPRITE_COLS * (size + 1))
                             (length batch) SPRITE_COLS (size + 1) size !! j
                       | None => computeDHash sharpRaw (IconInput.svg icon) size
                       end;
                Some (IconInput.name icon, hash))
             _ (seq 0 (length batch))).
  2:{ apply Forall_Forall2_diag, Forall_forall. intros j Hj.
      apply list_elem_of_In, in_seq in Hj. apply Hentry. lia. }
  clear Hentry.
  unfold processBatch, tryBatch. fold batch. unfold spriteOf.
  destruct (sharpRaw _ _ _ Fill) as [data|]; cbn [mbind option_bind].
  - rewrite <- fold_push_omap. apply fold_left_ext_in. intros a j _.
    destruct (batch !! j) as [icon|]; [|reflexivity].
    cbn [mbind option_bind].
    destruct (extractHashesFromSprite _ _ _ _ _ _ !! j); reflexivity.
  - unfold fallbackBatch.
    rewrite <- (omap_lookup_seq
                  (fun icon =>
                     hash ← computeDHash sharpRaw (IconInput.svg icon) size;
                     Some (IconInput.name icon, hash)) batch).
    rewrite <- fold_push_omap. apply fold_left_ext_in. intros a icon _.
    destruct (computeDHash sharpRaw (IconInput.svg icon) size); reflexivity.
Qed.

Lemma batches_entries (icons : list IconInput.t) size m :
  forall s acc,
    fold_left
      (fun acc i =>
         processBatch sharpRaw createSpriteSheet size
           (take batchSize (drop i icons)) acc)
      (map (fun k => (k * batchSize)%nat) (seq s m)) acc
    = (acc.1
       ++ map fst
            (omap (entryOf sharpRaw createSpriteSheet size icons)
               (seq (s * batchSize)
                  (Nat.min (m * batchSize) (length icons - s * batchSize)))),
       acc.2
       ++ map snd
            (omap (entryOf sharpRaw createSpriteSheet size icons)
               (seq (s * batchSize)
                  (Nat.min (m * batchSize) (length icons - s * batchSize))))).
Proof.
  induction m as [|m IH]; intros s [ns hs]; cbn [seq map fold_left].
  - cbn. now rewrite !app_nil_r.
  - rewrite processBatch_entries, IH. cbn [fst snd].
    rewrite <- !app_assoc, <- !map_app, <- !omap_app.
    rewrite length_take, length_drop.
    set (n := length icons). set (b := batchSize).
    assert (Hb : (0 < b)%nat) by (unfold b, batchSize, SPRITE_COLS; lia).
    replace (seq (s * b) (Nat.min (S m * b) (n - s * b)))
      with (seq (s * b) (Nat.min b (n - s * b))
            ++ seq (S s * b) (Nat.min (m * b) (n - S s * b))); [reflexivity|].
    rewrite !Nat.mul_succ_l.
    destruct (Nat.le_gt_cases (n - s * b) b) as [Hlast|Hmore].
    + replace (Nat.min (m * b) (n - (s * b + b))) with 0%nat by lia.
      cbn [seq]. rewrite app_nil_r. f_equal. lia.
    + replace (Nat.min (m * b + b) (n - s * b))
        with (b + Nat.min (m * b) (n - (s * b + b)))%nat by lia.
      rewrite seq_app, (Nat.min_l b) by lia. reflexivity.
Qed.

Lemma buildEntries_survivors (icons : list IconInput.t) size :
  buildEntries sharpRaw createSpriteSheet icons size
  = (map fst (survivors sharpRaw createSpriteSheet size icons),
     map snd (survivors sharpRaw createSpriteSheet size icons)).
Proof.
  unfold buildEntries, batchOffsets. rewrite batches_entries.
  cbn [fst snd app Nat.mul]. rewrite Nat.sub_0_r.
  rewrite Nat.min_r; [reflexivity|].
  destruct (Nat.le_gt_cases (length icons) (ceilDiv (length icons) batchSize * batchSize))
    as [H|H]; [exact H|].
  apply ceilDiv_lt in H. lia.
Qed.

End Entries.

Lemma omap_total {A B} (f : A -> option B) (d : B) (l : list A) :
  Forall (fun x => is_Some (f x)) l ->
  omap f l = map (fun x => default d (f x)) l.
Proof.
  induction 1 as [|x l [y Hy] _ IH]; [reflexivity|].
  cbn [omap list_omap map]. fold (omap f l). rewrite Hy, IH. reflexivity.
Qed.


(** C1 (amended). [loadIndex] makes no length check: whenever the two
    payloads decompress it returns the index made of the non-empty lines of
    the names text and of the fingerprint buffer as it is, whatever their
    lengths. *)
Theorem loadIndex_checks_no_length
  (gunzipSync : Buffer -> option Buffer)
  (namesGz hashesGz namesRaw hashesRaw : Buffer)
  (Hnames : gunzipSync namesGz = Some namesRaw)
  (Hhashes : gunzipSync hashesGz = Some hashesRaw) :
  loadIndex gunzipSync namesGz hashesGz
  = Some (IconIndex.mk (parseNames (string_of_list_byte namesRaw)) hashesRaw).
Proof.
  unfold loadIndex. rewrite Hnames, Hhashes. reflexivity.
Qed.

(** One name and five bytes of fingerprint load as they are. *)
Lemma loadIndex_checks_no_length_witness :
  loadIndex storedGunzip (list_byte_of_string "lucide:home") (alloc 5)
  = Some (IconIndex.mk ["lucide:home"%string] (alloc 5)).
Proof.
  rewrite (loadIndex_checks_no_length storedGunzip
             (list_byte_of_string "lucide:home") (alloc 5)
             (list_byte_of_string "lucide:home") (alloc 5) eq_refl eq_refl).
  vm_compute. reflexivity.
Defined.

(** C1 as stated fails: one name and an empty fingerprint buffer load
    without an error. *)
Lemma loadIndex_accepts_mismatch :
  loadIndex storedGunzip (list_byte_of_string "lucide:home") []
  = Some (IconIndex.mk ["lucide:home"%string] [])
  /\ length ([] : Buffer) <> (length ["lucide:home"%string] * 128)%nat.
Proof. split; [vm_compute; reflexivity | vm_compute; discriminate]. Qed.

Section RoundTrip.

Variable sharpRaw : string -> nat -> nat -> Fit -> option Buffer.
Variable gunzipSync : Buffer -> option Buffer.
Variable createSpriteSheet : list IconInput.t -> nat -> nat -> string.

(** C8 (amended). When no icon name is empty or contains a newline, loading
    the two blobs of [buildIndex] gives back the names of the surviving
    icons, in the order of the input, and record [i] of the loaded buffer is
    the fingerprint computed for the [i]-th surviving icon: the one cut from
    its cell of the sprite sheet of its batch or, when that sheet does not
    render, the one of the icon rendered on its own. *)
Theorem build_load_round_trip (icons : list IconInput.t) (size : nat)
  (namesGz hashesGz : Buffer)
  (Hvalid : Forall (fun icon => validName (IconInput.name icon) = true) icons)
  (Hnames : gunzipSync namesGz
            = Some (list_byte_of_string
                      (IndexBlobs.names
                         (buildIndex sharpRaw createSpriteSheet icons size))))
  (Hhashes : gunzipSync hashesGz
             = Some (IndexBlobs.hashes
                       (buildIndex sharpRaw createSpriteSheet icons size))) :
  exists index,
    loadIndex gunzipSync namesGz hashesGz = Some index
    /\ IconIndex.names index
       = map fst (survivors sharpRaw createSpriteSheet size icons)
    /\ length (IconIndex.hashes index)
       = (length (survivors sharpRaw createSpriteSheet size icons)
          * HASH_BYTES)%nat
    /\ forall i e,
         survivors sharpRaw createSpriteSheet size icons !! i = Some e ->
         slice (IconIndex.hashes index) (i * HASH_BYTES) HASH_BYTES = e.2.
Proof.
  destruct (buildEntries_ok sharpRaw createSpriteSheet
              (fun n => validName n = true) icons size Hvalid) as (L & F & N).
  rewrite buildEntries_survivors in L, F, N. cbn [fst snd] in L, F, N.
  eexists. split.
  { unfold loadIndex. rewrite Hnames, Hhashes. cbn [mbind option_bind].
    reflexivity. }
  cbn [IconIndex.names IconIndex.hashes buildIndex IndexBlobs.names IndexBlobs.hashes].
  rewrite string_of_list_byte_of_string, buildEntries_survivors. cbn [fst snd].
  split; [now apply parseNames_join|]. split.
  - rewrite length_concat_hashes by exact F. now rewrite length_map.
  - intros i e Hi. apply slice_concat_hashes; [exact F|].
    rewrite list_lookup_fmap, Hi. reflexivity.
Qed.

(** C10 (amended). When no icon name is empty or contains a newline,
    whatever the renderer accepts or rejects, [buildIndex] pushes names and
    128-byte fingerprints in pairs, and the fingerprint blob has 128 bytes
    for every name of the names text. *)
Theorem build_blobs_stay_in_step (icons : list IconInput.t) (size : nat)
  (Hvalid : Forall (fun icon => validName (IconInput.name icon) = true) icons) :
  length (buildEntries sharpRaw createSpriteSheet icons size).1
  = length (buildEntries sharpRaw createSpriteSheet icons size).2
  /\ Forall (fun h => length h = HASH_BYTES)
       (buildEntries sharpRaw createSpriteSheet icons size).2
  /\ length (IndexBlobs.hashes (buildIndex sharpRaw createSpriteSheet icons size))
     = (length (parseNames
                  (IndexBlobs.names
                     (buildIndex sharpRaw createSpriteSheet icons size)))
        * HASH_BYTES)%nat.
Proof.
  destruct (buildEntries_ok sharpRaw createSpriteSheet
              (fun n => validName n = true) icons size Hvalid) as (L & F & N).
  split; [exact L|]. split; [exact F|].
  cbn [buildIndex IndexBlobs.names IndexBlobs.hashes].
  rewrite parseNames_join by assumption.
  rewrite length_concat_hashes by assumption. now rewrite L.
Qed.

End RoundTrip.

(** Three icons whose sprite sheet the renderer rejects and one of which
    fails in the fallback too: two records, with different fingerprints. *)
Lemma build_load_round_trip_witness :
  (exists index,
     loadIndex storedGunzip
       (list_byte_of_string
          (IndexBlobs.names (buildIndex inkSharp brokenSprite inkIcons 8)))
       (IndexBlobs.hashes (buildIndex inkSharp brokenSprite inkIcons 8))
     = Some index
     /\ IconIndex.names index
        = map fst (survivors inkSharp brokenSprite 8 inkIcons)
     /\ length (IconIndex.hashes index)
        = (length (survivors inkSharp brokenSprite 8 inkIcons) * HASH_BYTES)%nat
     /\ forall i e,
          survivors inkSharp brokenSprite 8 inkIcons !! i = Some e ->
          slice (IconIndex.hashes index) (i * HASH_BYTES) HASH_BYTES = e.2)
  /\ map (fun e => (e.1, take 2 e.2)) (survivors inkSharp brokenSprite 8 inkIcons)
     = [("lucide:home"%string, [xaa; x55]); ("mdi:check"%string, [x24; x24])].
Proof.
  split; [|vm_compute; reflexivity].
  apply (build_load_round_trip inkSharp storedGunzip brokenSprite inkIcons 8).
  - repeat constructor.
  - reflexivity.
  - reflexivity.
Defined.

(** C8 as stated fails: an icon whose name contains a newline is loaded as
    two names. *)
Lemma round_trip_splits_name_with_newline :
  (buildEntries sampleSharp sampleSprite
     [IconInput.mk (String "a" (String "010" "b")) "<svg/>"] 32).1
  = [String "a" (String "010" "b")]
  /\ loadIndex storedGunzip
       (list_byte_of_string
          (IndexBlobs.names
             (buildIndex sampleSharp sampleSprite
                [IconInput.mk (String "a" (String "010" "b")) "<svg/>"] 32)))
       (IndexBlobs.hashes
          (buildIndex sampleSharp sampleSprite
             [IconInput.mk (String "a" (String "010" "b")) "<svg/>"] 32))
     = Some (IconIndex.mk ["a"%string; "b"%string] (alloc 128)).
Proof. split; vm_compute; reflexivity. Qed.

(** The same three icons: two names, 256 bytes. *)
Lemma build_blobs_stay_in_step_witness :
  length (buildEntries sampleSharp brokenSprite sampleIcons 32).1
  = length (buildEntries sampleSharp brokenSprite sampleIcons 32).2
  /\ Forall (fun h => length h = HASH_BYTES)
       (buildEntries sampleSharp brokenSprite sampleIcons 32).2
  /\ length (IndexBlobs.hashes (buildIndex sampleSharp brokenSprite sampleIcons 32))
     = (length (parseNames
                  (IndexBlobs.names
                     (buildIndex sampleSharp brokenSprite sampleIcons 32)))
        * HASH_BYTES)%nat.
Proof.
  apply (build_blobs_stay_in_step sampleSharp brokenSprite sampleIcons 32).
  repeat constructor.
Defined.

(** C10 as stated fails: an icon with the empty name (no newline in it)
    leaves 128 bytes of fingerprint and no name in the names text. *)
Lemma empty_name_desynchronizes_blobs :
  hasChar "010" (IconInput.name (IconInput.mk "" "<svg/>")) = false
  /\ length (IndexBlobs.hashes
               (buildIndex sampleSharp sampleSprite [IconInput.mk "" "<svg/>"] 32))
     = 128%nat
  /\ parseNames
       (IndexBlobs.names
          (buildIndex sampleSharp sampleSprite [IconInput.mk "" "<svg/>"] 32))
     = [].
Proof. repeat split; vm_compute; reflexivity. Qed.

Example build_drops_failed_icon :
  (buildEntries sampleSharp brokenSprite sampleIcons 32).1
  = ["lucide:home"%string; "mdi:check"%string].
Proof. vm_compute. reflexivity. Qed.

(** ** The matcher *)


Lemma total_bits : JS.of_nat (HASH_BYTES * 8) = 1024%float.
Proof. vm_compute. reflexivity. Qed.



Lemma allPairs_spec P n1 n2 :
  allPairs P n1 n2 = true ->
  forall a b, 0 <= a < Z.of_nat n1 -> 0 <= b < Z.of_nat n2 -> P a b = true.
Proof. apply forallb_range2. Qed.

Lemma floatFacts_all d1 d2 : 0 <= d1 <= 1024 -> 0 <= d2 <= 1024 -> floatFacts d1 d2 = true.
Proof.
  intros H1 H2.
  apply (allPairs_spec floatFacts 1025 1025); [vm_compute; reflexivity | lia | lia].
Qed.

Section SortLemmas.

Context {A : Type} (cmp : A -> A -> float).

Lemma insert_sorted_perm a l : Permutation (JS.insert_sorted cmp a l) (a :: l).
Proof.
  induction l as [|b l IH]; cbn [JS.insert_sorted]; [reflexivity|].
  destruct (JS.goes_before cmp b a); [|reflexivity].
  rewrite IH. apply perm_swap.
Qed.

Lemma sort_perm l : Permutation (JS.sort cmp l) l.
Proof.
  induction l as [|a l IH]; [reflexivity|].
  unfold JS.sort in *. cbn [fold_right].
  rewrite insert_sorted_perm. now constructor.
Qed.

Lemma In_sort l x : In x (JS.sort cmp l) <-> In x l.
Proof.
  split; apply Permutation_in; [|symmetry]; apply sort_perm.
Qed.

Lemma In_insert_sorted a l x :
  In x (JS.insert_sorted cmp a l) -> x = a \/ In x l.
Proof.
  intros H. apply (Permutation_in _ (insert_sorted_perm a l)) in H.
  destruct H; auto.
Qed.

Lemma FOP_impl_In (R R' : A -> A -> Prop) l :
  (forall x y, In x l -> In y l -> R x y -> R' x y) ->
  ForallOrdPairs R l -> ForallOrdPairs R' l.
Proof.
  intros H F. induction F as [|a l Ha F IH]; constructor.
  - rewrite List.Forall_forall in *. intros y Hy. apply H; simpl; auto.
  - apply IH. intros x y Hx Hy. apply H; simpl; auto.
Qed.

Lemma FOP_take (R : A -> A -> Prop) n l :
  ForallOrdPairs R l -> ForallOrdPairs R (take n l).
Proof.
  intros F. revert n. induction F as [|a l Ha F IH]; intros [|n]; cbn [take];
    constructor.
  - apply Forall_take, Ha.
  - apply IH.
Qed.

Lemma occursBefore_cons (a : A) l x y :
  occursBefore l x y -> occursBefore (a :: l) x y.
Proof.
  intros (i & j & Hij & Hi & Hj). exists (S i), (S j). cbn. split; [lia | auto].
Qed.

Lemma occursBefore_head (a : A) l y : In y l -> occursBefore (a :: l) a y.
Proof.
  intros Hy. apply list_elem_of_In, list_elem_of_lookup in Hy as [j Hj].
  exists 0%nat, (S j). cbn. split; [lia | auto].
Qed.

Variable D : A -> Prop.
Hypothesis asym : forall x y, D x -> D y ->
  JS.goes_before cmp x y = true -> JS.goes_before cmp y x = false.
Hypothesis negtrans : forall x y z, D x -> D y -> D z ->
  JS.goes_before cmp x z = true ->
  JS.goes_before cmp x y = true \/ JS.goes_before cmp y z = true.

Lemma insert_pairs inp a s :
  D a -> Forall D s -> (forall y, In y s -> occursBefore inp a y) ->
  ForallOrdPairs (stablyBefore cmp inp) s ->
  ForallOrdPairs (stablyBefore cmp inp) (JS.insert_sorted cmp a s).
Proof.
  intros Da Ds Hbefore F. induction F as [|b s Hb F IH]; cbn [JS.insert_sorted].
  - constructor; constructor.
  - inversion Ds as [|? ? Db Ds']; subst.
    destruct (JS.goes_before cmp b a) eqn:Eba.
    + constructor.
      * apply List.Forall_forall. intros y Hy.
        apply In_insert_sorted in Hy as [->|Hy]; [left; exact Eba|].
        rewrite List.Forall_forall in Hb. now apply Hb.
      * apply IH; [exact Ds'|]. intros y Hy. apply Hbefore. now right.
    + constructor; [|constructor; assumption].
      apply List.Forall_forall. intros y Hy. right.
      split; [|now apply Hbefore].
      destruct Hy as [<-|Hy]; [exact Eba|].
      destruct (JS.goes_before cmp y a) eqn:Eya; [|reflexivity].
      assert (Dy : D y) by (rewrite List.Forall_forall in Ds'; now apply Ds').
      destruct (negtrans y b a Dy Db Da Eya) as [Eyb|Eba']; [|congruence].
      rewrite List.Forall_forall in Hb.
      destruct (Hb y Hy) as [Eby|[Eyb' _]]; [|congruence].
      rewrite (asym b y Db Dy Eby) in Eyb. discriminate.
Qed.

Lemma sort_pairs inp :
  Forall D inp -> ForallOrdPairs (stablyBefore cmp inp) (JS.sort cmp inp).
Proof.
  induction 1 as [|a l Da Dl IH]; [constructor|].
  change (JS.sort cmp (a :: l)) with (JS.insert_sorted cmp a (JS.sort cmp l)).
  apply insert_pairs.
  - exact Da.
  - apply List.Forall_forall. intros y Hy. apply (proj1 (In_sort _ _)) in Hy.
    rewrite List.Forall_forall in Dl. now apply Dl.
  - intros y Hy. apply occursBefore_head. now apply (proj1 (In_sort _ _)).
  - eapply FOP_impl_In; [|exact IH].
    intros x y _ _ [H|[H1 H2]]; [now left | right].
    split; [exact H1 | now apply occursBefore_cons].
Qed.

End SortLemmas.

Lemma sumOver_bounds g l lo hi :
  (forall i, lo <= g i <= hi) ->
  Z.of_nat (length l) * lo <= sumOver g l <= Z.of_nat (length l) * hi.
Proof.
  intros H. induction l as [|a l IH]; cbn [sumOver fold_right length]; [lia|].
  fold (sumOver g l). specialize (H a). lia.
Qed.

Lemma xorBits_range h1 h2 offset i : 0 <= xorBits h1 h2 offset i <= 8.
Proof.
  unfold xorBits.
  apply byte_steps, lxor_byte_range; apply byteAt_range.
Qed.

Lemma offset_distance_range h hashes offset :
  0 <= hammingDistanceAtOffset h hashes offset <= 1024.
Proof.
  unfold hammingDistanceAtOffset. rewrite distanceLoop_sum.
  pose proof (sumOver_bounds (xorBits h hashes offset)
                (seq 0 (4 * ((HASH_BYTES + 3) / 4))) 0 8
                (xorBits_range h hashes offset)) as H.
  rewrite length_seq in H. change (4 * ((HASH_BYTES + 3) / 4))%nat with 128%nat in *.
  lia.
Qed.

Lemma similarityOfDistance_simOf d : similarityOfDistance d = simOf d.
Proof. unfold similarityOfDistance, simOf. rewrite total_bits. reflexivity. Qed.

Lemma scanRecord_cases inputHash hashes prefixSet threshold thresholdDist matches i name :
  scanRecord inputHash hashes prefixSet threshold thresholdDist matches i name = matches
  \/ exists m,
       scanRecord inputHash hashes prefixSet threshold thresholdDist matches i name
       = matches ++ [m]
       /\ Scanned threshold m.
Proof.
  unfold scanRecord.
  destruct (match prefixSet with Some _ => _ | None => false end); [now left|].
  destruct (PrimFloat.ltb thresholdDist _); [now left|].
  destruct (PrimFloat.leb threshold _) eqn:E; [|now left].
  right. eexists. split; [reflexivity|]. split; [exact E|].
  exists (hammingDistanceAtOffset inputHash hashes (i * HASH_BYTES)).
  split; [apply offset_distance_range|]. cbn [IconMatch.similarity].
  apply similarityOfDistance_simOf.
Qed.

Lemma scanFrom_Scanned inputHash hashes prefixSet threshold thresholdDist i names matches :
  Forall (Scanned threshold) matches ->
  Forall (Scanned threshold)
    (scanFrom inputHash hashes prefixSet threshold thresholdDist i names matches).
Proof.
  revert i matches. induction names as [|name names IH]; intros i matches H;
    cbn [scanFrom]; [exact H|].
  apply IH.
  destruct (scanRecord_cases inputHash hashes prefixSet threshold thresholdDist
              matches i name) as [->|(m & -> & Hm)]; [exact H|].
  apply Forall_app. split; [exact H | now constructor].
Qed.

Lemma scanIndex_Scanned inputHash index threshold prefixes :
  Forall (Scanned threshold) (scanIndex inputHash index threshold prefixes).
Proof. unfold scanIndex. apply scanFrom_Scanned. constructor. Qed.

Lemma recordSimilarity_eq inputHash index i :
  recordSimilarity inputHash index i
  = similarityOfDistance
      (hammingDistanceAtOffset inputHash (IconIndex.hashes index)
         (i * HASH_BYTES)).
Proof. reflexivity. Qed.

Lemma scanRecord_below inputHash index prefixSet threshold thresholdDist matches i name :
  PrimFloat.leb threshold (recordSimilarity inputHash index i) = false ->
  scanRecord inputHash (IconIndex.hashes index) prefixSet threshold thresholdDist
    matches i name = matches.
Proof.
  intros H. rewrite recordSimilarity_eq in H. unfold scanRecord.
  rewrite H.
  destruct (match prefixSet with Some _ => _ | None => false end); [reflexivity|].
  destruct (PrimFloat.ltb thresholdDist _); reflexivity.
Qed.

Lemma scanFrom_none inputHash index prefixSet threshold thresholdDist i names matches :
  (forall j, (j < length names)%nat ->
     PrimFloat.leb threshold (recordSimilarity inputHash index (i + j)) = false) ->
  scanFrom inputHash (IconIndex.hashes index) prefixSet threshold thresholdDist
    i names matches = matches.
Proof.
  revert i matches. induction names as [|name names IH]; intros i matches H;
    cbn [scanFrom]; [reflexivity|].
  rewrite scanRecord_below
    by (specialize (H 0%nat); rewrite Nat.add_0_r in H; apply H; cbn; lia).
  apply IH. intros j Hj. replace (S i + j)%nat with (i + S j)%nat by lia.
  apply H. cbn. lia.
Qed.

Lemma matchHash_scanned inputHash index limit threshold prefixes prefer :
  Forall (Scanned threshold)
    (matchHash inputHash index limit threshold prefixes prefer).
Proof.
  unfold matchHash, JS.slice0. apply Forall_take.
  apply List.Forall_forall. intros m Hm. apply (proj1 (In_sort _ _ _)) in Hm.
  pose proof (scanIndex_Scanned inputHash index threshold prefixes) as H.
  rewrite List.Forall_forall in H. apply H, Hm.
Qed.

Lemma length_slice0 {A} (end_ : Z) (l : list A) :
  0 <= end_ -> Z.of_nat (length (JS.slice0 end_ l)) <= end_.
Proof.
  intros H. unfold JS.slice0, JS.slice_end. rewrite length_take.
  destruct (Z.ltb_spec end_ 0); lia.
Qed.

(** C2 (amended). Whenever the query can be rasterized, [findMatches]
    returns a sequence (it does not fail); every result has
    [similarity >= threshold] (0.8 by default); when [limit] (10 by
    default) is not negative there are at most [limit] results; and when no
    record reaches the threshold the sequence is empty. *)
Theorem findMatches_threshold_and_limit
  (sharpRaw : string -> nat -> nat -> Fit -> option Buffer)
  (svg : string) (index : IconIndex.t) (options : MatchOptions.t)
  (inputHash : Buffer)
  (Hhash : computeDHash sharpRaw svg
             (default DEFAULT_SIZE (MatchOptions.size options))
           = Some inputHash) :
  exists result,
    findMatches sharpRaw svg index options = Some result
    /\ Forall
         (fun m =>
            PrimFloat.leb (default 0.8%float (MatchOptions.threshold options))
              (IconMatch.similarity m) = true)
         result
    /\ (0 <= default 10 (MatchOptions.limit options) ->
        Z.of_nat (length result) <= default 10 (MatchOptions.limit options))
    /\ ((forall i, (i < length (IconIndex.names index))%nat ->
           PrimFloat.leb (default 0.8%float (MatchOptions.threshold options))
             (recordSimilarity inputHash index i) = false) ->
        result = []).
Proof.
  unfold findMatches. rewrite Hhash. cbn [mbind option_bind].
  eexists. split; [reflexivity|]. split; [|split].
  - eapply Forall_impl; [apply matchHash_scanned|]. intros m [H _]. exact H.
  - unfold matchHash. apply length_slice0.
  - intros Hnone. unfold matchHash, scanIndex.
    rewrite scanFrom_none by (intros j Hj; apply Hnone, Hj).
    unfold JS.slice0, JS.sort. cbn [fold_right]. apply take_nil.
Qed.

Lemma floatFacts_inv d1 d2 :
  0 <= d1 <= 1024 -> 0 <= d2 <= 1024 ->
  PrimFloat.ltb 0.001 (PrimFloat.abs (simOf d2 - simOf d1)) = (2 <=? Z.abs (d1 - d2))
  /\ PrimFloat.ltb (simOf d2 - simOf d1) 0 = (d1 <? d2)
  /\ PrimFloat.ltb (PrimFloat.abs (simOf d1 - simOf d2)) 0.001 = (Z.abs (d1 - d2) <=? 1)
  /\ PrimFloat.ltb (simOf d2) (simOf d1) = (d1 <? d2).
Proof.
  intros H1 H2. pose proof (floatFacts_all d1 d2 H1 H2) as H.
  unfold floatFacts in H.
  apply andb_prop in H as [H H4]. apply andb_prop in H as [H H3].
  apply andb_prop in H as [H H2']. 
  apply Bool.eqb_prop in H, H2', H3, H4. auto.
Qed.

Lemma goes_before_int preferSet a b da db :
  0 <= da <= 1024 -> 0 <= db <= 1024 ->
  IconMatch.similarity a = simOf da -> IconMatch.similarity b = simOf db ->
  JS.goes_before (compareMatches preferSet) a b
  = beforeInt da (inSet preferSet a) db (inSet preferSet b).
Proof.
  intros Ra Rb Ha Hb.
  destruct (floatFacts_inv da db Ra Rb) as (F1 & F2 & _ & _).
  unfold JS.goes_before, compareMatches, beforeInt, inSet.
  rewrite Ha, Hb, F1.
  destruct (2 <=? Z.abs (da - db)); [exact F2|].
  destruct preferSet as [ps|]; [|reflexivity].
  destruct (JS.has ps (prefixOf (IconMatch.name a))),
           (JS.has ps (prefixOf (IconMatch.name b))); reflexivity.
Qed.

Lemma nearTie_int a b da db :
  0 <= da <= 1024 -> 0 <= db <= 1024 ->
  IconMatch.similarity a = simOf da -> IconMatch.similarity b = simOf db ->
  nearTie a b = (Z.abs (da - db) <=? 1)
  /\ PrimFloat.ltb (IconMatch.similarity b) (IconMatch.similarity a) = (da <? db).
Proof.
  intros Ra Rb Ha Hb.
  destruct (floatFacts_inv da db Ra Rb) as (_ & _ & F3 & F4).
  unfold nearTie. rewrite Ha, Hb. auto.
Qed.

Lemma beforeInt_asym da pa db pb :
  beforeInt da pa db pb = true -> beforeInt db pb da pa = false.
Proof.
  unfold beforeInt.
  destruct (Z.leb_spec 2 (Z.abs (da - db))), (Z.leb_spec 2 (Z.abs (db - da)));
    try lia; destruct pa, pb; cbn; lia.
Qed.

Lemma beforeInt_negtrans dx px dy py dz pz :
  (Z.abs (dx - dy) <= 1 -> Z.abs (dy - dz) <= 1 -> Z.abs (dx - dz) <= 1) ->
  (Z.abs (dy - dz) <= 1 -> Z.abs (dz - dx) <= 1 -> Z.abs (dy - dx) <= 1) ->
  (Z.abs (dy - dx) <= 1 -> Z.abs (dx - dz) <= 1 -> Z.abs (dy - dz) <= 1) ->
  beforeInt dx px dz pz = true ->
  beforeInt dx px dy py = true \/ beforeInt dy py dz pz = true.
Proof.
  unfold beforeInt. intros T1 T2 T3.
  destruct (Z.leb_spec 2 (Z.abs (dx - dz))), (Z.leb_spec 2 (Z.abs (dx - dy))),
    (Z.leb_spec 2 (Z.abs (dy - dz))); destruct px, py, pz; cbn; lia.
Qed.

Section Ranking.

Variable threshold : float.
Variable preferSet : option (list string).
Variable candidates : list IconMatch.t.
Hypothesis Hscanned : Forall (Scanned threshold) candidates.
Hypothesis Hchain : forall a b c,
  In a candidates -> In b candidates -> In c candidates ->
  nearTie a b = true -> nearTie b c = true -> nearTie a c = true.

Lemma candidate_distance m :
  In m candidates ->
  exists d, 0 <= d <= 1024 /\ IconMatch.similarity m = simOf d.
Proof.
  intros Hm. rewrite List.Forall_forall in Hscanned.
  destruct (Hscanned m Hm) as [_ H]. exact H.
Qed.

Lemma candidates_asym x y :
  In x candidates -> In y candidates ->
  JS.goes_before (compareMatches preferSet) x y = true ->
  JS.goes_before (compareMatches preferSet) y x = false.
Proof.
  intros Hx Hy.
  destruct (candidate_distance x Hx) as (dx & Rx & Ex).
  destruct (candidate_distance y Hy) as (dy & Ry & Ey).
  rewrite (goes_before_int preferSet x y dx dy), (goes_before_int preferSet y x dy dx)
    by assumption.
  apply beforeInt_asym.
Qed.

Lemma chain_int a b c da db dc :
  In a candidates -> In b candidates -> In c candidates ->
  0 <= da <= 1024 -> 0 <= db <= 1024 -> 0 <= dc <= 1024 ->
  IconMatch.similarity a = simOf da -> IconMatch.similarity b = simOf db ->
  IconMatch.similarity c = simOf dc ->
  Z.abs (da - db) <= 1 -> Z.abs (db - dc) <= 1 -> Z.abs (da - dc) <= 1.
Proof.
  intros Ha Hb Hc Ra Rb Rc Ea Eb Ec Tab Tbc.
  pose proof (Hchain a b c Ha Hb Hc) as H.
  rewrite (proj1 (nearTie_int a b da db Ra Rb Ea Eb)) in H.
  rewrite (proj1 (nearTie_int b c db dc Rb Rc Eb Ec)) in H.
  rewrite (proj1 (nearTie_int a c da dc Ra Rc Ea Ec)) in H.
  apply Z.leb_le, H; apply Z.leb_le; assumption.
Qed.

Lemma candidates_negtrans x y z :
  In x candidates -> In y candidates -> In z candidates ->
  JS.goes_before (compareMatches preferSet) x z = true ->
  JS.goes_before (compareMatches preferSet) x y = true
  \/ JS.goes_before (compareMatches preferSet) y z = true.
Proof.
  intros Hx Hy Hz.
  destruct (candidate_distance x Hx) as (dx & Rx & Ex).
  destruct (candidate_distance y Hy) as (dy & Ry & Ey).
  destruct (candidate_distance z Hz) as (dz & Rz & Ez).
  rewrite (goes_before_int preferSet x z dx dz), (goes_before_int preferSet x y dx dy),
    (goes_before_int preferSet y z dy dz) by assumption.
  apply beforeInt_negtrans.
  - apply (chain_int x y z); assumption.
  - apply (chain_int y z x); assumption.
  - apply (chain_int y x z); assumption.
Qed.

Lemma stably_ranked prefer x y :
  preferSet = JS.set_of prefer ->
  In x candidates -> In y candidates ->
  stablyBefore (compareMatches preferSet) candidates x y ->
  rankedBefore prefer candidates x y.
Proof.
  intros -> Hx Hy.
  destruct (candidate_distance x Hx) as (dx & Rx & Ex).
  destruct (candidate_distance y Hy) as (dy & Ry & Ey).
  destruct (nearTie_int x y dx dy Rx Ry Ex Ey) as [Tie Lt].
  unfold stablyBefore, rankedBefore, preferred.
  rewrite (goes_before_int _ x y dx dy), (goes_before_int _ y x dy dx) by assumption.
  rewrite Tie, Lt. unfold beforeInt.
  destruct (Z.leb_spec 2 (Z.abs (dx - dy))) as [L1|L1],
           (Z.leb_spec 2 (Z.abs (dy - dx))) as [L2|L2];
    try lia;
    destruct (Z.leb_spec (Z.abs (dx - dy)) 1) as [L3|L3]; try lia;
    destruct (inSet (JS.set_of prefer) x), (inSet (JS.set_of prefer) y);
    cbn; intros [G|[G B]]; repeat split; intros; try congruence; try lia;
    try assumption.
Qed.

Lemma sorted_candidates_ranked prefer limit :
  preferSet = JS.set_of prefer ->
  ForallOrdPairs (rankedBefore prefer candidates)
    (JS.slice0 limit (JS.sort (compareMatches preferSet) candidates)).
Proof.
  intros E. unfold JS.slice0. apply FOP_take.
  eapply FOP_impl_In;
    [|apply (sort_pairs (compareMatches preferSet) (fun m => In m candidates))].
  - intros x y Hx Hy. apply (proj1 (In_sort _ _ _)) in Hx, Hy.
    now apply stably_ranked.
  - apply candidates_asym.
  - apply candidates_negtrans.
  - apply List.Forall_forall. auto.
Qed.

End Ranking.

(** X3. When being tied is transitive among the candidates (no three
    candidates with the first tied with the second and the second with the
    third but not the first with the third), the comparator of [findMatches]
    is a consistent order and every two results are ordered by it: by
    similarity descending except between tied candidates, a preferred
    candidate before a tied one that is not preferred, and tied, equally
    preferred candidates in scan order. *)
Theorem findMatches_ranked_without_chains
  (sharpRaw : string -> nat -> nat -> Fit -> option Buffer)
  (svg : string) (index : IconIndex.t) (options : MatchOptions.t)
  (inputHash : Buffer)
  (Hhash : computeDHash sharpRaw svg
             (default DEFAULT_SIZE (MatchOptions.size options))
           = Some inputHash)
  (Hchain : forall a b c,
     let candidates :=
       scanIndex inputHash index
         (default 0.8%float (MatchOptions.threshold options))
         (MatchOptions.prefixes options) in
     In a candidates -> In b candidates -> In c candidates ->
     nearTie a b = true -> nearTie b c = true -> nearTie a c = true) :
  exists result,
    findMatches sharpRaw svg index options = Some result
    /\ ForallOrdPairs
         (rankedBefore (MatchOptions.prefer options)
            (scanIndex inputHash index
               (default 0.8%float (MatchOptions.threshold options))
               (MatchOptions.prefixes options)))
         result.
Proof.
  unfold findMatches. rewrite Hhash. cbn [mbind option_bind].
  eexists. split; [reflexivity|]. unfold matchHash.
  eapply sorted_candidates_ranked.
  - apply scanIndex_Scanned.
  - exact Hchain.
  - reflexivity.
Qed.

(** C5. The order of the results fails on candidates that form a chain of
    near ties.  On an index whose records are 2, 1 and 0 bits away from the
    query, the exact match and the record 2 bits away are not tied and the
    comparator of [findMatches] puts the exact match first, yet the results
    come out in scan order, the exact match last, and a [limit] of 2 drops
    it. *)
Theorem findMatches_ranks_exact_match_last :
  findMatches sampleSharp "<svg/>" chainIndex MatchOptions.empty
  = Some chainMatches
  /\ nearTie (IconMatch.mk "mdi:exact" (similarityOfDistance 0))
       (IconMatch.mk "mdi:two-off" (similarityOfDistance 2)) = false
  /\ JS.goes_before (compareMatches None)
       (IconMatch.mk "mdi:exact" (similarityOfDistance 0))
       (IconMatch.mk "mdi:two-off" (similarityOfDistance 2)) = true
  /\ findMatches sampleSharp "<svg/>" chainIndex
       (MatchOptions.mk None (Some 2) None None None)
     = Some [IconMatch.mk "mdi:two-off" (similarityOfDistance 2);
             IconMatch.mk "mdi:one-off" (similarityOfDistance 1)].
Proof.
  split; [|split; [|split]].
  - vm_compute. reflexivity.
  - vm_compute. reflexivity.
  - vm_compute. reflexivity.
  - vm_compute. reflexivity.
Qed.

(** Two exact matches and a record 5 bits away, one icon set preferred: no
    chain of ties. *)
Lemma findMatches_ranked_without_chains_witness :
  exists result,
    findMatches sampleSharp "<svg/>" homeIndex preferLucide = Some result
    /\ ForallOrdPairs
         (rankedBefore (MatchOptions.prefer preferLucide)
            (scanIndex (alloc HASH_BYTES) homeIndex
               (default 0.8%float (MatchOptions.threshold preferLucide))
               (MatchOptions.prefixes preferLucide)))
         result.
Proof.
  apply (findMatches_ranked_without_chains sampleSharp "<svg/>" homeIndex
           preferLucide (alloc HASH_BYTES)).
  - vm_compute. reflexivity.
  - intros a b c candidates.
    assert (E : candidates
                = [IconMatch.mk "mdi:house" (similarityOfDistance 5);
                   IconMatch.mk "mdi:home" (similarityOfDistance 0);
                   IconMatch.mk "lucide:home" (similarityOfDistance 0)])
      by (vm_compute; reflexivity).
    rewrite E. clear E candidates.
    intros [<-|[<-|[<-|[]]]] [<-|[<-|[<-|[]]]] [<-|[<-|[<-|[]]]];
      vm_compute; congruence.
Defined.

Example findMatches_prefers_lucide :
  findMatches sampleSharp "<svg/>" homeIndex preferLucide
  = Some [IconMatch.mk "lucide:home" (similarityOfDistance 0);
          IconMatch.mk "mdi:home" (similarityOfDistance 0);
          IconMatch.mk "mdi:house" (similarityOfDistance 5)].
Proof. vm_compute. reflexivity. Qed.

(** The same index under the default threshold and limit. *)
Lemma findMatches_threshold_and_limit_witness :
  exists result,
    findMatches sampleSharp "<svg/>" homeIndex preferLucide = Some result
    /\ Forall
         (fun m =>
            PrimFloat.leb (default 0.8%float (MatchOptions.threshold preferLucide))
              (IconMatch.similarity m) = true)
         result
    /\ (0 <= default 10 (MatchOptions.limit preferLucide) ->
        Z.of_nat (length result) <= default 10 (MatchOptions.limit preferLucide))
    /\ ((forall i, (i < length (IconIndex.names homeIndex))%nat ->
           PrimFloat.leb (default 0.8%float (MatchOptions.threshold preferLucide))
             (recordSimilarity (alloc HASH_BYTES) homeIndex i) = false) ->
        result = []).
Proof.
  apply (findMatches_threshold_and_limit sampleSharp "<svg/>" homeIndex
           preferLucide (alloc HASH_BYTES)).
  vm_compute. reflexivity.
Defined.

(** C2 as stated fails for a negative limit: [slice(0, -1)] drops the last
    of three candidates only, and two results are more than -1. *)
Lemma findMatches_negative_limit_keeps_results :
  findMatches sampleSharp "<svg/>" homeIndex
    (MatchOptions.mk None (Some (-1)) None None None)
  = Some [IconMatch.mk "mdi:home" (similarityOfDistance 0);
          IconMatch.mk "lucide:home" (similarityOfDistance 0)]
  /\ default 10 (MatchOptions.limit (MatchOptions.mk None (Some (-1)) None None None))
     < Z.of_nat
         (length [IconMatch.mk "mdi:home" (similarityOfDistance 0);
                  IconMatch.mk "lucide:home" (similarityOfDistance 0)]).
Proof. split; [vm_compute; reflexivity | reflexivity]. Qed.

(** ** Further properties *)

(** X1. For the size of the shipped index, 32, and every raster, bit
    [k = y * 32 + x] of the fingerprint (byte [k / 8], most significant bit
    first) is the comparison of pixel [(x, y)] with its right neighbour;
    a pixel [computeHashFromPixels] cannot read counts as not darker. *)
Theorem dhash_bit_layout_32 (data : Buffer) (x y : nat)
  (Hx : (x < 32)%nat) (Hy : (y < 32)%nat) :
  bitOf (computeHashFromPixels data 32 33) (y * 32 + x)
  = pixelLt data (y * 33 + x) (y * 33 + x + 1).
Proof.
  apply computeHash_bit; try assumption.
  - pose proof (Nat.div_mod (y * 32 + x) 8 ltac:(lia)).
    pose proof (Nat.mod_upper_bound (y * 32 + x) 8 ltac:(lia)).
    change (32 * 32)%nat with 1024%nat.
    assert ((y * 32 + x) / 8 < 128)%nat by (apply Nat.Div0.div_lt_upper_bound; lia).
    lia.
  - apply Nat.Div0.div_lt_upper_bound. unfold HASH_BYTES. lia.
Qed.

(** Pixel (4, 3) of the striped raster is darker than its neighbour. *)
Lemma dhash_bit_layout_32_witness :
  bitOf (computeHashFromPixels stripes 32 33) (3 * 32 + 4)
  = pixelLt stripes (3 * 33 + 4) (3 * 33 + 4 + 1)
  /\ pixelLt stripes (3 * 33 + 4) (3 * 33 + 4 + 1) = true.
Proof.
  split; [apply (dhash_bit_layout_32 stripes 4 3); lia | vm_compute; reflexivity].
Defined.

Lemma scanRecord_prefix inputHash hashes allowed threshold thresholdDist matches i name :
  Forall (fun m => JS.has allowed (prefixOf (IconMatch.name m)) = true) matches ->
  Forall (fun m => JS.has allowed (prefixOf (IconMatch.name m)) = true)
    (scanRecord inputHash hashes (Some allowed) threshold thresholdDist matches i name).
Proof.
  intros H. unfold scanRecord.
  destruct (JS.has allowed (prefixOf name)) eqn:E.
  - rewrite orb_false_r.
    destruct (negb (JS.truthy (prefixOf name))); [exact H|].
    destruct (PrimFloat.ltb thresholdDist _); [exact H|].
    destruct (PrimFloat.leb threshold _); [|exact H].
    apply Forall_app. split; [exact H|]. constructor; [exact E | constructor].
  - rewrite orb_true_r. exact H.
Qed.

Lemma scanFrom_prefix inputHash hashes allowed threshold thresholdDist i names matches :
  Forall (fun m => JS.has allowed (prefixOf (IconMatch.name m)) = true) matches ->
  Forall (fun m => JS.has allowed (prefixOf (IconMatch.name m)) = true)
    (scanFrom inputHash hashes (Some allowed) threshold thresholdDist i names matches).
Proof.
  revert i matches. induction names as [|name names IH]; intros i matches H;
    cbn [scanFrom]; [exact H|].
  apply IH, scanRecord_prefix, H.
Qed.

(** X2. With a non-empty [prefixes] list, every result of [findMatches] has
    its prefix in the list. *)
Theorem findMatches_only_listed_prefixes
  (sharpRaw : string -> nat -> nat -> Fit -> option Buffer)
  (svg : string) (index : IconIndex.t) (options : MatchOptions.t)
  (p : string) (ps : list string) (result : list IconMatch.t)
  (Hprefixes : MatchOptions.prefixes options = Some (p :: ps))
  (Hresult : findMatches sharpRaw svg index options = Some result) :
  Forall (fun m => JS.has (p :: ps) (prefixOf (IconMatch.name m)) = true)
    result.
Proof.
  unfold findMatches in Hresult.
  destruct (computeDHash sharpRaw svg _) as [inputHash|]; [|discriminate].
  cbn [mbind option_bind] in Hresult. injection Hresult as <-.
  unfold matchHash, JS.slice0. apply Forall_take.
  apply List.Forall_forall. intros m Hm. apply (proj1 (In_sort _ _ _)) in Hm.
  revert m Hm. apply List.Forall_forall.
  unfold scanIndex. rewrite Hprefixes. cbn [JS.set_of].
  apply scanFrom_prefix. constructor.
Qed.


(** Of two exact matches only the one of the listed set is returned. *)
Lemma findMatches_only_listed_prefixes_witness :
  findMatches sampleSharp "<svg/>" homeIndex onlyLucide
  = Some [IconMatch.mk "lucide:home" (similarityOfDistance 0)]
  /\ Forall
       (fun m => JS.has ["lucide"%string] (prefixOf (IconMatch.name m)) = true)
       [IconMatch.mk "lucide:home" (similarityOfDistance 0)].
Proof.
  split; [vm_compute; reflexivity|].
  apply (findMatches_only_listed_prefixes sampleSharp "<svg/>" homeIndex
           onlyLucide "lucide" []).
  - reflexivity.
  - vm_compute. reflexivity.
Defined.


(** X4. A 128-byte fingerprint is at distance 0 from itself and has
    similarity 1.0 with itself. *)
Theorem hashSimilarity_self (h : Buffer) (Hh : length h = HASH_BYTES) :
  hammingDistance h h = inr 0 /\ hashSimilarity h h = inr 1%float.
Proof.
  assert (H : hammingDistance h h = inr 0).
  { rewrite hammingDistance_reference by reflexivity.
    now rewrite differingBits_refl. }
  split; [exact H|]. unfold hashSimilarity. rewrite H, Hh.
  vm_compute. reflexivity.
Qed.

(** 128 bytes of 0xA5. *)
Lemma hashSimilarity_self_witness :
  hammingDistance (allocFill 128 xa5) (allocFill 128 xa5) = inr 0
  /\ hashSimilarity (allocFill 128 xa5) (allocFill 128 xa5) = inr 1%float.
Proof. apply (hashSimilarity_self (allocFill 128 xa5)). vm_compute. reflexivity. Defined.

Section Names.

Variable sharpRaw : string -> nat -> nat -> Fit -> option Buffer.
Variable createSpriteSheet : list IconInput.t -> nat -> nat -> string.


Lemma push_loop_names (batch : list IconInput.t) (hs : list Buffer) n s acc :
  (s + n = length batch)%nat ->
  exists added,
    (fold_left
       (fun acc j =>
          match batch !! j, hs !! j with
          | Some icon, Some hash => pushEntry acc (IconInput.name icon) hash
          | _, _ => acc
          end)
       (seq s n) acc).1 = acc.1 ++ added
    /\ added `sublist_of` map IconInput.name (drop s batch).
Proof.
  revert s acc. induction n as [|n IH]; intros s acc Hs; cbn [seq fold_left].
  - exists []. split; [now rewrite app_nil_r | apply sublist_nil_l].
  - destruct (lookup_lt_is_Some_2 batch s ltac:(lia)) as [icon Hicon].
    rewrite Hicon, (drop_S _ _ _ Hicon). cbn [map].
    destruct (hs !! s) as [h|].
    + destruct (IH (S s) (pushEntry acc (IconInput.name icon) h) ltac:(lia))
        as (added & E & Sub).
      exists (IconInput.name icon :: added). split.
      * rewrite E. cbn [pushEntry fst]. now rewrite <- app_assoc.
      * now apply sublist_skip.
    + destruct (IH (S s) acc ltac:(lia)) as (added & E & Sub).
      exists added. split; [exact E | now apply sublist_cons].
Qed.

Lemma tryBatch_names size batch acc acc' :
  tryBatch sharpRaw createSpriteSheet size batch acc = Some acc' ->
  Appends batch acc acc'.
Proof.
  unfold tryBatch. destruct (sharpRaw _ _ _ Fill) as [data|]; [|discriminate].
  cbn [mbind option_bind]. intros [= <-].
  destruct (push_loop_names batch
              (extractHashesFromSprite data (SPRITE_COLS * (size + 1))
                 (length batch) SPRITE_COLS (size + 1) size)
              (length batch) 0 acc eq_refl) as (added & E & Sub).
  exists added. split; [exact E | exact Sub].
Qed.

Lemma fallbackBatch_names size batch acc :
  Appends batch acc (fallbackBatch sharpRaw size batch acc).
Proof.
  unfold fallbackBatch, Appends. revert acc.
  induction batch as [|icon batch IH]; intros acc; cbn [fold_left map].
  - exists []. split; [now rewrite app_nil_r | constructor].
  - destruct (computeDHash sharpRaw (IconInput.svg icon) size) as [h|].
    + destruct (IH (pushEntry acc (IconInput.name icon) h)) as (added & E & Sub).
      exists (IconInput.name icon :: added). split.
      * rewrite E. cbn [pushEntry fst]. now rewrite <- app_assoc.
      * now apply sublist_skip.
    + destruct (IH acc) as (added & E & Sub).
      exists added. split; [exact E | now apply sublist_cons].
Qed.

Lemma processBatch_names size batch acc :
  Appends batch acc (processBatch sharpRaw createSpriteSheet size batch acc).
Proof.
  unfold processBatch. destruct (tryBatch _ _ _ _ _) eqn:E.
  - eapply tryBatch_names, E.
  - apply fallbackBatch_names.
Qed.

Lemma batches_names (icons : list IconInput.t) size m s acc :
  acc.1 `sublist_of` map IconInput.name (take (s * batchSize) icons) ->
  (fold_left
     (fun acc i =>
        processBatch sharpRaw createSpriteSheet size
          (take batchSize (drop i icons)) acc)
     (map (fun k => (k * batchSize)%nat) (seq s m)) acc).1
  `sublist_of` map IconInput.name (take ((s + m) * batchSize) icons).
Proof.
  revert s acc. induction m as [|m IH]; intros s acc H; cbn [seq map fold_left].
  - now rewrite Nat.add_0_r.
  - replace (s + S m)%nat with (S s + m)%nat by lia. apply IH.
    destruct (processBatch_names size (take batchSize (drop (s * batchSize) icons)) acc)
      as (added & -> & Sub).
    replace (S s * batchSize)%nat with (s * batchSize + batchSize)%nat by lia.
    rewrite <- take_take_drop, map_app. now apply sublist_app.
Qed.

(** X5. The names [buildIndex] writes are names of the input icons, in the
    order of the input: dropped icons only leave gaps. *)
Theorem buildIndex_keeps_order (icons : list IconInput.t) (size : nat) :
  (buildEntries sharpRaw createSpriteSheet icons size).1
  `sublist_of` map IconInput.name icons.
Proof.
  unfold buildEntries, batchOffsets.
  etransitivity; [apply batches_names; apply sublist_nil_l|].
  apply (fmap_sublist IconInput.name), sublist_take.
Qed.

End Names.

(** ** The distance as a metric *)

Lemma b2z_inj a b : b2z a = b2z b -> a = b.
Proof.
  unfold b2z. intros H. apply N2Z.inj in H.
  assert (Ha := Byte.of_to_N a). assert (Hb := Byte.of_to_N b).
  rewrite H in Ha. congruence.
Qed.

Lemma filter_length_0 {A} (f : A -> bool) l :
  length (List.filter f l) = 0%nat -> forall x, In x l -> f x = false.
Proof.
  induction l as [|a l IH]; simpl; intros H x Hx; [contradiction|].
  destruct (f a) eqn:Ha; [discriminate|].
  destruct Hx as [<-|Hx]; [assumption | apply IH; assumption].
Qed.

Lemma byte_bits_inj a b :
  0 <= a < 256 -> 0 <= b < 256 ->
  (forall j, (j < 8)%nat -> Z.testbit a (7 - Z.of_nat j) = Z.testbit b (7 - Z.of_nat j)) ->
  a = b.
Proof.
  intros Ha Hb H. apply Z.bits_inj'. intros n Hn.
  destruct (Z_lt_le_dec n 8) as [Hlt|Hge].
  - specialize (H (Z.to_nat (7 - n)) ltac:(lia)).
    replace (7 - Z.of_nat (Z.to_nat (7 - n))) with n in H by lia. exact H.
  - rewrite !Z.bits_above_log2; try lia; try reflexivity.
    + destruct (Z.eq_dec b 0) as [->|]; [simpl; lia|].
      apply Z.log2_lt_pow2; try lia.
      apply Z.lt_le_trans with (2 ^ 8); [simpl; lia | apply Z.pow_le_mono_r; lia].
    + destruct (Z.eq_dec a 0) as [->|]; [simpl; lia|].
      apply Z.log2_lt_pow2; try lia.
      apply Z.lt_le_trans with (2 ^ 8); [simpl; lia | apply Z.pow_le_mono_r; lia].
Qed.

Lemma differingBits_0_eq h1 h2 :
  length h1 = length h2 -> differingBits h1 h2 = 0%nat -> h1 = h2.
Proof.
  intros Hlen H0. unfold differingBits in H0.
  pose proof (filter_length_0 _ _ H0) as Hall.
  apply list_eq. intros i.
  destruct (h1 !! i) as [a|] eqn:E1.
  - assert (Hi : (i < length h1)%nat) by (eapply lookup_lt_Some; eassumption).
    destruct (h2 !! i) as [b|] eqn:E2.
    2:{ apply lookup_ge_None in E2. lia. }
    f_equal. apply b2z_inj. apply byte_bits_inj; try apply b2z_range.
    intros j Hj.
    specialize (Hall (8 * i + j)%nat).
    rewrite in_seq in Hall. specialize (Hall ltac:(lia)).
    unfold differAt in Hall. rewrite !bitOf_byte in Hall by assumption.
    unfold byteAt in Hall. rewrite E1, E2 in Hall.
    destruct (Z.testbit (b2z a) _), (Z.testbit (b2z b) _); simpl in Hall; congruence.
  - apply lookup_ge_None in E1. symmetry. apply lookup_ge_None. lia.
Qed.

Lemma filter_length_le {A} (f : A -> bool) l : (length (List.filter f l) <= length l)%nat.
Proof.
  induction l as [|a l IH]; simpl; [lia|]. destruct (f a); simpl; lia.
Qed.

Lemma differingBits_bound h1 h2 : (differingBits h1 h2 <= 8 * length h1)%nat.
Proof.
  unfold differingBits.
  etransitivity; [apply filter_length_le|]. rewrite length_seq. lia.
Qed.

Lemma filter_xor_triangle {A} (f g h : A -> bool) l :
  (length (List.filter (fun k => xorb (f k) (h k)) l)
   <= length (List.filter (fun k => xorb (f k) (g k)) l)
      + length (List.filter (fun k => xorb (g k) (h k)) l))%nat.
Proof.
  induction l as [|a l IH]; simpl; [lia|].
  destruct (f a), (g a), (h a); simpl; lia.
Qed.

(** X6. On buffers of equal length the distance is 0 exactly when the
    buffers are equal, and it never exceeds the number of bits of a
    buffer. *)
Theorem hammingDistance_zero_iff_equal (h1 h2 : Buffer)
  (Hlen : length h1 = length h2) :
  (hammingDistance h1 h2 = inr 0 <-> h1 = h2)
  /\ exists d, hammingDistance h1 h2 = inr d
       /\ 0 <= d <= 8 * Z.of_nat (length h1).
Proof.
  rewrite hammingDistance_reference by assumption. split.
  - split.
    + intros H. apply differingBits_0_eq; [assumption|].
      injection H as H. lia.
    + intros ->. rewrite differingBits_refl. reflexivity.
  - eexists. split; [reflexivity|].
    pose proof (differingBits_bound h1 h2). lia.
Qed.

(** Two bytes against two bytes that differ in one bit. *)
Lemma hammingDistance_zero_iff_equal_witness :
  length [x0f; xa5] = length [x0f; xa4]
  /\ (hammingDistance [x0f; xa5] [x0f; xa4] = inr 0 <-> [x0f; xa5] = [x0f; xa4])
  /\ hammingDistance [x0f; xa5] [x0f; xa4] = inr 1.
Proof.
  split; [reflexivity|].
  split; [apply (hammingDistance_zero_iff_equal [x0f; xa5] [x0f; xa4]); reflexivity|].
  vm_compute. reflexivity.
Defined.

(** X7. On buffers of equal length the distance obeys the triangle
    inequality: going through a third buffer never shortens the way. *)
Theorem hammingDistance_triangle (a b c : Buffer)
  (Hab : length a = length b) (Hbc : length b = length c) :
  exists dab dbc dac,
    hammingDistance a b = inr dab
    /\ hammingDistance b c = inr dbc
    /\ hammingDistance a c = inr dac
    /\ dac <= dab + dbc.
Proof.
  exists (Z.of_nat (differingBits a b)), (Z.of_nat (differingBits b c)),
    (Z.of_nat (differingBits a c)).
  rewrite !hammingDistance_reference by congruence.
  repeat split.
  unfold differingBits. rewrite <- Hab.
  pose proof (filter_xor_triangle (bitOf a) (bitOf b) (bitOf c)
                (seq 0 (8 * length a))) as H.
  unfold differAt. lia.
Qed.

(** Distances 4 and 2 on the way, 6 directly. *)
Lemma hammingDistance_triangle_witness :
  exists dab dbc dac,
    hammingDistance [x0f; x00] [xff; x00] = inr dab
    /\ hammingDistance [xff; x00] [xff; x03] = inr dbc
    /\ hammingDistance [x0f; x00] [xff; x03] = inr dac
    /\ dac <= dab + dbc.
Proof.
  apply (hammingDistance_triangle [x0f; x00] [xff; x00] [xff; x03]); reflexivity.
Defined.

(** ** Reads past the end *)

Lemma length_recordAt buf offset : length (recordAt buf offset) = HASH_BYTES.
Proof.
  unfold recordAt, alloc.
  rewrite length_take, length_app, length_replicate. lia.
Qed.

Lemma byteAt_recordAt buf offset i :
  (i < HASH_BYTES)%nat -> byteAt (recordAt buf offset) i = byteAt buf (offset + i).
Proof.
  intros Hi. unfold byteAt, recordAt.
  rewrite lookup_take_lt by assumption.
  destruct (decide (i < length (drop offset buf))%nat) as [Hin|Hout].
  - rewrite lookup_app_l by assumption. rewrite lookup_drop. reflexivity.
  - rewrite lookup_app_r by lia.
    rewrite length_drop in Hout.
    rewrite (proj2 (lookup_ge_None buf (offset + i)%nat)) by lia.
    unfold alloc.
    destruct (replicate HASH_BYTES x00 !! (i - length (drop offset buf))%nat) eqn:E;
      [|reflexivity].
    apply lookup_replicate in E. destruct E as [-> _]. reflexivity.
Qed.

Lemma distanceLoop_recordAt h buf offset :
  distanceLoop (recordAt h 0) (recordAt buf offset) 0 HASH_BYTES
  = distanceLoop h buf offset HASH_BYTES.
Proof.
  rewrite !distanceLoop_sum. apply sumOver_ext. intros i Hi.
  apply in_seq in Hi. change (4 * ((HASH_BYTES + 3) / 4))%nat with HASH_BYTES in Hi.
  unfold xorBits. rewrite !byteAt_recordAt by lia. reflexivity.
Qed.

(** X8. [hammingDistanceAtOffset] never fails: for every query, buffer and
    offset it is the distance between the first 128 bytes of the query and
    the 128 bytes of the buffer from the offset on, where bytes past the end
    of either count as zero.  A 128-byte query is taken as it is, a record
    inside the buffer is its slice, and a record that starts past the end
    is all zeros. *)
Theorem offset_distance_pads_with_zeros (h buf : Buffer) (offset : nat) :
  hammingDistance (recordAt h 0) (recordAt buf offset)
  = inr (hammingDistanceAtOffset h buf offset)
  /\ (length h = HASH_BYTES -> recordAt h 0 = h)
  /\ ((offset + HASH_BYTES <= length buf)%nat ->
      recordAt buf offset = slice buf offset HASH_BYTES)
  /\ ((length buf <= offset)%nat -> recordAt buf offset = alloc HASH_BYTES).
Proof.
  split; [|split; [|split]].
  - rewrite hammingDistance_eq_len by (rewrite !length_recordAt; reflexivity).
    rewrite length_recordAt. unfold hammingDistanceAtOffset.
    rewrite distanceLoop_recordAt. reflexivity.
  - intros Hh. unfold recordAt. rewrite drop_0.
    rewrite take_app_le by lia. apply take_ge. lia.
  - intros Hin. unfold recordAt, slice.
    rewrite take_app_le by (rewrite length_drop; lia). reflexivity.
  - intros Hout. unfold recordAt. rewrite drop_ge by assumption.
    rewrite app_nil_l. apply take_ge. unfold alloc. rewrite length_replicate. lia.
Qed.

(** ** The similarity of fingerprints *)

Lemma simInRange_all d : 0 <= d <= 1024 -> simInRange d = true.
Proof.
  intros H.
  apply (forallb_range simInRange 1025); [vm_compute; reflexivity | lia].
Qed.

Lemma simOf_one d : 0 <= d <= 1024 -> simOf d = 1%float -> d = 0.
Proof.
  intros Hd H1.
  destruct (floatFacts_inv 0 d ltac:(lia) Hd) as (_ & _ & _ & H).
  rewrite H1 in H. change (simOf 0) with 1%float in H.
  change (PrimFloat.ltb 1 1) with false in H.
  symmetry in H. apply Z.ltb_ge in H. lia.
Qed.

Lemma hashSimilarity_128 a b :
  length a = HASH_BYTES -> length b = HASH_BYTES ->
  hashSimilarity a b = inr (simOf (Z.of_nat (differingBits a b))).
Proof.
  intros Ha Hb. unfold hashSimilarity.
  rewrite hammingDistance_reference by congruence.
  rewrite Ha, total_bits. reflexivity.
Qed.

Lemma differingBits_1024 a b : length a = HASH_BYTES -> 0 <= Z.of_nat (differingBits a b) <= 1024.
Proof.
  intros Ha. pose proof (differingBits_bound a b) as H. rewrite Ha in H.
  change (8 * HASH_BYTES)%nat with 1024%nat in H. lia.
Qed.

(** X9. On 128-byte fingerprints the similarity lies between 0 and 1, is 1
    only for equal fingerprints, and orders pairs as the distance does,
    reversed: a pair is strictly more similar than another exactly when it
    is strictly closer. *)
Theorem hashSimilarity_orders_by_distance (a b c d : Buffer)
  (Ha : length a = HASH_BYTES) (Hb : length b = HASH_BYTES)
  (Hc : length c = HASH_BYTES) (Hd : length d = HASH_BYTES) :
  exists dab dcd sab scd,
    hammingDistance a b = inr dab
    /\ hammingDistance c d = inr dcd
    /\ hashSimilarity a b = inr sab
    /\ hashSimilarity c d = inr scd
    /\ PrimFloat.ltb scd sab = (dab <? dcd)
    /\ PrimFloat.leb 0 sab = true
    /\ PrimFloat.leb sab 1 = true
    /\ (sab = 1%float <-> a = b).
Proof.
  exists (Z.of_nat (differingBits a b)), (Z.of_nat (differingBits c d)),
    (simOf (Z.of_nat (differingBits a b))), (simOf (Z.of_nat (differingBits c d))).
  pose proof (differingBits_1024 a b Ha) as Rab.
  pose proof (differingBits_1024 c d Hc) as Rcd.
  rewrite !hammingDistance_reference, !hashSimilarity_128 by congruence.
  split; [reflexivity|]. split; [reflexivity|].
  split; [reflexivity|]. split; [reflexivity|].
  split; [apply (floatFacts_inv _ _ Rab Rcd)|].
  pose proof (simInRange_all _ Rab) as Hr. unfold simInRange in Hr.
  apply andb_prop in Hr as [H0 H1].
  split; [exact H0|]. split; [exact H1|].
  split.
  - intros H. apply simOf_one in H; [|exact Rab].
    apply differingBits_0_eq; [congruence | lia].
  - intros ->. rewrite differingBits_refl. reflexivity.
Qed.

(** 128 bits of distance against 256. *)
Lemma hashSimilarity_orders_by_distance_witness :
  exists dab dcd sab scd,
    hammingDistance (allocFill 128 x00) (allocFill 128 x01) = inr dab
    /\ hammingDistance (allocFill 128 x00) (allocFill 128 x03) = inr dcd
    /\ hashSimilarity (allocFill 128 x00) (allocFill 128 x01) = inr sab
    /\ hashSimilarity (allocFill 128 x00) (allocFill 128 x03) = inr scd
    /\ PrimFloat.ltb scd sab = (dab <? dcd)
    /\ PrimFloat.leb 0 sab = true
    /\ PrimFloat.leb sab 1 = true
    /\ (sab = 1%float <-> allocFill 128 x00 = allocFill 128 x01).
Proof.
  apply (hashSimilarity_orders_by_distance (allocFill 128 x00) (allocFill 128 x01)
           (allocFill 128 x00) (allocFill 128 x03)); reflexivity.
Defined.

(** ** Integers as binary64 numbers *)

Lemma digits2_pos_bounds p :
  2 ^ (Zpos (digits2_pos p) - 1) <= Zpos p < 2 ^ Zpos (digits2_pos p).
Proof.
  induction p as [p IH|p IH|]; cbn [digits2_pos].
  - rewrite Pos2Z.inj_succ, (Pos2Z.inj_xI p).
    replace (Z.succ (Zpos (digits2_pos p)) - 1) with (Z.succ (Zpos (digits2_pos p) - 1)) by lia.
    rewrite !Z.pow_succ_r by lia.
    set (lo := 2 ^ (Zpos (digits2_pos p) - 1)) in *.
    set (hi := 2 ^ Zpos (digits2_pos p)) in *. clearbody lo hi. lia.
  - rewrite Pos2Z.inj_succ, (Pos2Z.inj_xO p).
    replace (Z.succ (Zpos (digits2_pos p)) - 1) with (Z.succ (Zpos (digits2_pos p) - 1)) by lia.
    rewrite !Z.pow_succ_r by lia.
    set (lo := 2 ^ (Zpos (digits2_pos p) - 1)) in *.
    set (hi := 2 ^ Zpos (digits2_pos p)) in *. clearbody lo hi. lia.
  - cbn. lia.
Qed.

Lemma digits2_pos_mono p q :
  (p <= q)%positive -> Zpos (digits2_pos p) <= Zpos (digits2_pos q).
Proof.
  intros Hpq.
  pose proof (digits2_pos_bounds p) as [Hp _].
  pose proof (digits2_pos_bounds q) as [_ Hq].
  assert (H : 2 ^ (Zpos (digits2_pos p) - 1) < 2 ^ Zpos (digits2_pos q)) by lia.
  apply Z.pow_lt_mono_r_iff in H; lia.
Qed.

Lemma digits2_iter_xO p k :
  digits2_pos (Pos.iter xO p k) = (digits2_pos p + k)%positive.
Proof.
  induction k as [|k IH] using Pos.peano_ind.
  - cbn. now rewrite Pos.add_1_r.
  - rewrite Pos.iter_succ. cbn [digits2_pos]. rewrite IH. now rewrite Pos.add_succ_r.
Qed.

Lemma shr_1_pos mrs M :
  shr_m mrs = Zpos M -> 2 <= Zpos M ->
  exists M', shr_m (shr_1 mrs) = Zpos M' /\ Zpos M' = Zpos M / 2.
Proof.
  destruct mrs as [m r s]. cbn [shr_m]. intros -> H2.
  destruct M as [p|p|]; [| |lia]; cbn [shr_1 shr_m]; exists p; split; try reflexivity.
  - rewrite (Pos2Z.inj_xI p). apply (Z.div_unique _ _ _ 1); lia.
  - rewrite (Pos2Z.inj_xO p). apply (Z.div_unique _ _ _ 0); lia.
Qed.

Lemma shr_iter_pos k : forall mrs M,
  shr_m mrs = Zpos M -> 2 ^ Zpos k <= Zpos M ->
  exists M', shr_m (SpecFloat.iter_pos shr_1 k mrs) = Zpos M'
    /\ Zpos M' = Zpos M / 2 ^ Zpos k.
Proof.
  assert (Hpow : forall j, 0 < 2 ^ Zpos j) by (intros; apply Z.pow_pos_nonneg; lia).
  induction k as [k IH|k IH|]; intros mrs M Hm Hge; cbn [SpecFloat.iter_pos].
  - rewrite (Pos2Z.inj_xI k) in *.
    replace (2 * Zpos k + 1) with (1 + Zpos k + Zpos k) in * by lia.
    rewrite !Z.pow_add_r in * by lia. change (2 ^ 1) with 2 in *.
    pose proof (Hpow k) as Hk.
    destruct (shr_1_pos mrs M Hm ltac:(nia)) as (M0 & Hm0 & E0).
    assert (H0 : 2 ^ Zpos k * 2 ^ Zpos k <= Zpos M0).
    { rewrite E0. apply Z.div_le_lower_bound; lia. }
    destruct (IH _ M0 Hm0 ltac:(nia)) as (M1 & Hm1 & E1).
    assert (H1 : 2 ^ Zpos k <= Zpos M1).
    { rewrite E1. apply Z.div_le_lower_bound; lia. }
    destruct (IH _ M1 Hm1 H1) as (M2 & Hm2 & E2).
    exists M2. split; [exact Hm2|].
    rewrite E2, E1, E0, !Z.div_div by lia. f_equal. lia.
  - rewrite (Pos2Z.inj_xO k) in *.
    replace (2 * Zpos k) with (Zpos k + Zpos k) in * by lia.
    rewrite !Z.pow_add_r in * by lia.
    pose proof (Hpow k) as Hk.
    destruct (IH _ M Hm ltac:(nia)) as (M1 & Hm1 & E1).
    assert (H1 : 2 ^ Zpos k <= Zpos M1).
    { rewrite E1. apply Z.div_le_lower_bound; lia. }
    destruct (IH _ M1 Hm1 H1) as (M2 & Hm2 & E2).
    exists M2. split; [exact Hm2|].
    rewrite E2, E1, !Z.div_div by lia. f_equal.
  - change (2 ^ 1) with 2 in *. apply shr_1_pos; assumption.
Qed.

Lemma shr_record_of_loc_m m l : shr_m (shr_record_of_loc m l) = m.
Proof. destruct l as [|[]]; reflexivity. Qed.

(** The first step of rounding keeps a positive mantissa positive when
    the number is not below the smallest normal magnitude. *)
Lemma shr_fexp_pos M e l :
  -1074 <= Zpos (digits2_pos M) + e - 53 ->
  exists mrs e' Q,
    shr_fexp 53 1024 (Zpos M) e l = (mrs, e')
    /\ shr_m mrs = Zpos Q
    /\ e <= e'
    /\ Zpos (digits2_pos M) + e <= Zpos (digits2_pos Q) + e'.
Proof.
  intros Hnormal. unfold shr_fexp, fexp, emin, shr.
  cbn [Zdigits2].
  replace (Z.max (Zpos (digits2_pos M) + e - 53) (3 - 1024 - 53) - e)
    with (Zpos (digits2_pos M) - 53) by lia.
  destruct (Zpos (digits2_pos M) - 53) as [|k|k] eqn:Ek.
  - exists (shr_record_of_loc (Zpos M) l), e, M.
    rewrite shr_record_of_loc_m. repeat split; lia.
  - pose proof (digits2_pos_bounds M) as [HM _].
    assert (Hge : 2 ^ Zpos k <= Zpos M).
    { etransitivity; [|exact HM]. apply Z.pow_le_mono_r; lia. }
    destruct (shr_iter_pos k (shr_record_of_loc (Zpos M) l) M
                (shr_record_of_loc_m _ _) Hge) as (Q & HQ & EQ).
    exists (SpecFloat.iter_pos shr_1 k (shr_record_of_loc (Zpos M) l)), (e + Zpos k), Q.
    split; [reflexivity|]. split; [exact HQ|]. split; [lia|].
    assert (H52 : 2 ^ 52 <= Zpos Q).
    { rewrite EQ. apply Z.div_le_lower_bound; [apply Z.pow_pos_nonneg; lia|].
      rewrite <- Z.pow_add_r by lia.
      replace (Zpos k + 52) with (Zpos (digits2_pos M) - 1) by lia. exact HM. }
    pose proof (digits2_pos_bounds Q) as [_ HQ2].
    assert (H : 2 ^ 52 < 2 ^ Zpos (digits2_pos Q)) by lia.
    apply Z.pow_lt_mono_r_iff in H; lia.
  - exists (shr_record_of_loc (Zpos M) l), e, M.
    rewrite shr_record_of_loc_m. repeat split; lia.
Qed.

Lemma round_nearest_even_pos Q l :
  exists Q', round_nearest_even (Zpos Q) l = Zpos Q' /\ (Q <= Q')%positive.
Proof.
  destruct l as [|[]]; cbn [round_nearest_even].
  - exists Q. split; [reflexivity | lia].
  - destruct (Z.even (Zpos Q)).
    + exists Q. split; [reflexivity | lia].
    + exists (Q + 1)%positive. split; [reflexivity | lia].
  - exists Q. split; [reflexivity | lia].
  - exists (Q + 1)%positive. split; [reflexivity | lia].
Qed.

(** Rounding a positive mantissa that is not below the smallest normal
    magnitude gives a number that is neither zero nor NaN, with an exponent
    not below the one given. *)
Lemma binary_round_aux_pos s M e l :
  -1074 <= Zpos (digits2_pos M) + e - 53 ->
  (exists m' e', binary_round_aux 53 1024 s (Zpos M) e l = S754_finite s m' e'
                 /\ e <= e')
  \/ binary_round_aux 53 1024 s (Zpos M) e l = S754_infinity s.
Proof.
  intros Hnormal. unfold binary_round_aux.
  destruct (shr_fexp_pos M e l Hnormal) as (mrs & e1 & Q & -> & HQ & He1 & Hd1).
  rewrite HQ.
  destruct (round_nearest_even_pos Q (loc_of_shr_record mrs)) as (Q' & -> & HQ').
  apply digits2_pos_mono in HQ'.
  destruct (shr_fexp_pos Q' e1 loc_Exact ltac:(lia)) as (mrs2 & e2 & Q2 & -> & HQ2 & He2 & _).
  rewrite HQ2.
  destruct (e2 <=? 1024 - 53); [left | right; reflexivity].
  exists Q2, e2. split; [reflexivity | lia].
Qed.

(** The number of a positive integer below 2^63 is positive, with an
    exponent of at least -52. *)
Lemma of_Z_shape n :
  0 < n < 2 ^ 63 ->
  (exists m e, Prim2SF (JS.of_Z n) = S754_finite false m e /\ -52 <= e)
  \/ Prim2SF (JS.of_Z n) = S754_infinity false.
Proof.
  intros Hn. unfold JS.of_Z. rewrite FloatAxioms.of_uint63_spec, Uint63.of_Z_spec.
  rewrite Z.mod_small by (change wB with (2 ^ 63); lia).
  destruct n as [|p|p]; [lia| |lia]. cbn [binary_normalize].
  unfold prec, emax, binary_round, shl_align, fexp, emin.
  pose proof (digits2_pos_bounds p) as Hp.
  destruct (Z.max (Zpos (digits2_pos p) + 0 - 53) (3 - 1024 - 53) - 0) as [|k|k] eqn:Ek.
  - destruct (binary_round_aux_pos false p 0 loc_Exact ltac:(lia))
      as [(m & e & -> & He)| ->]; [left | right; reflexivity].
    exists m, e. split; [reflexivity | lia].
  - destruct (binary_round_aux_pos false p 0 loc_Exact ltac:(lia))
      as [(m & e & -> & He)| ->]; [left | right; reflexivity].
    exists m, e. split; [reflexivity | lia].
  - destruct (binary_round_aux_pos false (Pos.iter xO p k)
                (Z.max (Zpos (digits2_pos p) + 0 - 53) (3 - 1024 - 53)) loc_Exact)
      as [(m & e & -> & He)| ->]; [|left | right; reflexivity].
    + rewrite digits2_iter_xO. lia.
    + exists m, e. split; [reflexivity | lia].
Qed.

Lemma number_shape n :
  0 < n < 2 ^ 63 ->
  (exists s m e, Prim2SF (JS.of_Z n) = S754_finite s m e)
  \/ (exists s, Prim2SF (JS.of_Z n) = S754_infinity s).
Proof.
  intros Hn. destruct (of_Z_shape n Hn) as [(m & e & H & _)|H].
  - left. eauto.
  - right. eauto.
Qed.

Lemma one_minus_zero_over (y : float) :
  (exists s m e, Prim2SF y = S754_finite s m e)
  \/ (exists s, Prim2SF y = S754_infinity s) ->
  (1 - 0 / y)%float = 1%float.
Proof.
  intros Hy. apply FloatAxioms.Prim2SF_inj. rewrite FloatAxioms.sub_spec, FloatAxioms.div_spec.
  change (Prim2SF 0) with (S754_zero false).
  destruct Hy as [(s & m & e & ->)|(s & ->)]; destruct s; reflexivity.
Qed.

Lemma times_255_shape n :
  0 < n < 2 ^ 63 ->
  (exists s m e, Prim2SF (JS.of_Z n * 255) = S754_finite s m e)
  \/ (exists s, Prim2SF (JS.of_Z n * 255) = S754_infinity s).
Proof.
  intros Hn. rewrite FloatAxioms.mul_spec.
  change (Prim2SF 255) with (S754_finite false 8972014882652160 (-45)).
  destruct (of_Z_shape n Hn) as [(m & e & -> & He)| ->].
  - unfold SF64mul, SFmul, prec, emax. cbn [xorb].
    destruct (binary_round_aux_pos false (m * 8972014882652160) (e + -45) loc_Exact)
      as [(m' & e' & -> & _)| ->].
    + pose proof (Pos2Z.pos_is_pos (digits2_pos (m * 8972014882652160))). lia.
    + left. eauto.
    + right. eauto.
  - right. exists false. reflexivity.
Qed.

(** X10. The similarity of a buffer with itself, whatever its length: 1.0,
    except for the empty buffer, where the division 0 / 0 makes it NaN.
    (The bound keeps the number of bits an integer that a number holds
    exactly.) *)
Theorem self_similarity_of_hashes (h : Buffer)
  (Hlen : 8 * Z.of_nat (length h) < 2 ^ 53) :
  hashSimilarity h h
  = inr (if (length h =? 0)%nat then PrimFloat.nan else 1%float).
Proof.
  destruct h as [|b h]; [vm_compute; reflexivity|].
  cbn [Nat.eqb length].
  unfold hashSimilarity.
  rewrite hammingDistance_reference, differingBits_refl by reflexivity.
  f_equal. change (JS.of_Z (Z.of_nat 0)) with 0%float.
  apply one_minus_zero_over. unfold JS.of_nat.
  apply number_shape. cbn [length] in *. split; [lia|].
  eapply Z.le_lt_trans; [|eapply Z.lt_trans; [exact Hlen | reflexivity]]. lia.
Qed.

(** Three bytes, and no byte. *)
Lemma self_similarity_of_hashes_witness :
  hashSimilarity [x10; x20; xff] [x10; x20; xff] = inr 1%float
  /\ hashSimilarity [] [] = inr PrimFloat.nan.
Proof.
  split.
  - apply (self_similarity_of_hashes [x10; x20; xff]). reflexivity.
  - apply (self_similarity_of_hashes []). reflexivity.
Defined.

(** ** The pixel comparison *)

Lemma absDiffComm_all x y : 0 <= x < 256 -> 0 <= y < 256 -> absDiffComm x y = true.
Proof.
  intros Hx Hy.
  apply (forallb_range2 absDiffComm 256 256); [vm_compute; reflexivity | lia | lia].
Qed.

Lemma abs_diff_comm px1 px2 i :
  PrimFloat.abs (pixelAt px1 i - pixelAt px2 i)
  = PrimFloat.abs (pixelAt px2 i - pixelAt px1 i).
Proof.
  apply FloatAxioms.Leibniz.eqb_spec.
  apply absDiffComm_all; apply byteAt_range.
Qed.

(** X11. [pixelSimilarity] is symmetric: the two orders of its arguments
    either both fail, the lengths being different (each error names its own
    first argument's length first), or give the same number. *)
Theorem pixelSimilarity_symmetric (px1 px2 : Buffer) :
  match pixelSimilarity px1 px2, pixelSimilarity px2 px1 with
  | inr s, inr s' => s = s' /\ length px1 = length px2
  | inl (BufferLengthMismatch a b), inl (BufferLengthMismatch b' a') =>
      a = length px1 /\ b = length px2 /\ a' = a /\ b' = b /\ a <> b
  | _, _ => False
  end.
Proof.
  unfold pixelSimilarity.
  destruct (Nat.eqb_spec (length px1) (length px2)) as [Hlen|Hlen].
  - rewrite <- Hlen, Nat.eqb_refl. cbn [negb]. split; [|reflexivity].
    rewrite (fold_left_ext_in
               (fun diff i =>
                  (diff + PrimFloat.abs (pixelAt px1 i - pixelAt px2 i))%float)
               (fun diff i =>
                  (diff + PrimFloat.abs (pixelAt px2 i - pixelAt px1 i))%float));
      [reflexivity|].
    intros acc i _. f_equal. apply abs_diff_comm.
  - destruct (Nat.eqb_spec (length px2) (length px1)) as [Hlen'|_]; [congruence|].
    cbn [negb]. auto.
Qed.

Lemma selfDiffZero_all b : 0 <= b < 256 -> selfDiffZero b = true.
Proof.
  intros Hb.
  apply (forallb_range selfDiffZero 256); [vm_compute; reflexivity | lia].
Qed.

Lemma fold_self_zero px (l : list nat) :
  fold_left
    (fun diff i => (diff + PrimFloat.abs (pixelAt px i - pixelAt px i))%float)
    l 0%float
  = 0%float.
Proof.
  induction l as [|i l IH]; [reflexivity|]. cbn [fold_left].
  replace (0 + PrimFloat.abs (pixelAt px i - pixelAt px i))%float with 0%float;
    [exact IH|].
  symmetry. apply FloatAxioms.Leibniz.eqb_spec.
  apply selfDiffZero_all, byteAt_range.
Qed.

(** X12. The similarity of a raster with itself is 1.0, except for the
    empty raster, where the division 0 / 0 makes it NaN. *)
Theorem pixelSimilarity_self (px : Buffer)
  (Hlen : Z.of_nat (length px) < 2 ^ 53) :
  pixelSimilarity px px
  = inr (if (length px =? 0)%nat then PrimFloat.nan else 1%float).
Proof.
  destruct px as [|b px]; [vm_compute; reflexivity|].
  cbn [length Nat.eqb].
  unfold pixelSimilarity. rewrite Nat.eqb_refl. cbn [negb].
  rewrite fold_self_zero. f_equal.
  apply one_minus_zero_over. unfold JS.of_nat.
  apply times_255_shape. cbn [length] in *. split; [lia|].
  eapply Z.lt_trans; [exact Hlen | reflexivity].
Qed.

(** Three pixels, and no pixel. *)
Lemma pixelSimilarity_self_witness :
  pixelSimilarity [x10; x20; xff] [x10; x20; xff] = inr 1%float
  /\ pixelSimilarity [] [] = inr PrimFloat.nan.
Proof.
  split.
  - apply (pixelSimilarity_self [x10; x20; xff]). reflexivity.
  - apply (pixelSimilarity_self []). reflexivity.
Defined.

(** ** The difference hash, further *)

Lemma lookup_map {A B} (f : A -> B) (l : list A) i :
  map f l !! i = f <$> (l !! i).
Proof.
  revert i. induction l as [|a l IH]; intros [|i]; simpl; auto.
Qed.

Lemma pixelLt_map (f : Byte.byte -> Byte.byte) data i j :
  (forall a b, In a data -> In b data ->
     (b2z (f a) <? b2z (f b)) = (b2z a <? b2z b)) ->
  pixelLt (map f data) i j = pixelLt data i j.
Proof.
  intros Hmono. unfold pixelLt. rewrite !lookup_map.
  destruct (data !! i) as [a|] eqn:Ei; [|reflexivity].
  destruct (data !! j) as [b|] eqn:Ej; [|reflexivity].
  simpl. apply Hmono.
  - apply list_elem_of_In. eapply list_elem_of_lookup_2. eassumption.
  - apply list_elem_of_In. eapply list_elem_of_lookup_2. eassumption.
Qed.

Lemma computeHash_ext d1 d2 size rowWidth :
  (forall i j, pixelLt d1 i j = pixelLt d2 i j) ->
  computeHashFromPixels d1 size rowWidth = computeHashFromPixels d2 size rowWidth.
Proof.
  intros H. unfold computeHashFromPixels. f_equal.
  apply fold_left_ext_in. intros st y _. f_equal.
  unfold rowBits. apply map_ext. intros x. apply H.
Qed.

(** X13. The fingerprint depends on the order of neighbouring pixel values
    only: changing the values by a function that keeps, on the values of
    the raster, which of two is the smaller (a change of brightness or
    contrast without clipping) leaves the fingerprint unchanged. *)
Theorem dhash_depends_on_order_only (f : Byte.byte -> Byte.byte) (data : Buffer)
  (size rowWidth : nat)
  (Hmono : forall a b, In a data -> In b data ->
     (b2z (f a) <? b2z (f b)) = (b2z a <? b2z b)) :
  computeHashFromPixels (map f data) size rowWidth
  = computeHashFromPixels data size rowWidth.
Proof.
  apply computeHash_ext. intros i j. apply pixelLt_map. exact Hmono.
Qed.

(** Six pixels made brighter by 64. *)
Lemma dhash_depends_on_order_only_witness :
  computeHashFromPixels (map brighten [x10; x20; x30; x20; x10; x30]) 2 3
  = computeHashFromPixels [x10; x20; x30; x20; x10; x30] 2 3
  /\ map brighten [x10; x20; x30; x20; x10; x30] = [x50; x60; x70; x60; x50; x70].
Proof.
  split; [|reflexivity].
  apply (dhash_depends_on_order_only brighten [x10; x20; x30; x20; x10; x30] 2 3).
  intros a b Ha Hb. simpl in Ha, Hb.
  repeat (destruct Ha as [<-|Ha]; [repeat (destruct Hb as [<-|Hb]; [reflexivity|]); contradiction|]).
  contradiction.
Defined.

(** The packer on comparisons that all fail. *)
Lemma packBit_false_blank st :
  hash st = alloc HASH_BYTES -> byte st = 0 ->
  hash (packBit st false) = alloc HASH_BYTES /\ byte (packBit st false) = 0.
Proof.
  intros Hh Hb. unfold packBit. rewrite Hb.
  destruct (bitInByte st + 1 =? 8); cbn [hash byte].
  - split; [|reflexivity]. rewrite Hh. unfold alloc.
    change (u8 0) with x00. apply insert_replicate.
  - split; [assumption | reflexivity].
Qed.

Lemma fold_packBit_blank bits st :
  Forall (fun d => d = false) bits ->
  hash st = alloc HASH_BYTES -> byte st = 0 ->
  hash (fold_left packBit bits st) = alloc HASH_BYTES.
Proof.
  intros Hbits. revert st. induction Hbits as [|d bits -> _ IH]; intros st Hh Hb.
  - exact Hh.
  - simpl. destruct (packBit_false_blank st Hh Hb) as [Hh' Hb']. apply IH; assumption.
Qed.

(** X14. A raster in which no pixel is darker than its right neighbour, a
    blank one for instance, has the all-zero fingerprint, whatever [size]
    and [rowWidth]. *)
Theorem dhash_of_flat_raster_is_zero (data : Buffer) (size rowWidth : nat)
  (Hflat : forall i, pixelLt data i (i + 1) = false) :
  computeHashFromPixels data size rowWidth = alloc HASH_BYTES.
Proof.
  rewrite computeHash_packAll. unfold packAll.
  apply fold_packBit_blank; [|reflexivity|reflexivity].
  unfold pixelBits. apply List.Forall_forall. intros d Hd.
  apply in_flat_map in Hd as (y & _ & Hd).
  unfold rowBits in Hd. apply in_map_iff in Hd as (x & <- & _).
  apply Hflat.
Qed.

Lemma pixelLt_allocFill n c i j : pixelLt (allocFill n c) i j = false.
Proof.
  unfold pixelLt, allocFill.
  destruct (replicate n c !! i) as [a|] eqn:Ei; [|reflexivity].
  destruct (replicate n c !! j) as [b|] eqn:Ej; [|reflexivity].
  apply lookup_replicate in Ei as [-> _]. apply lookup_replicate in Ej as [-> _].
  apply Z.ltb_irrefl.
Qed.

(** A white raster of 33 x 32 pixels. *)
Lemma dhash_of_flat_raster_is_zero_witness :
  computeHashFromPixels (allocFill (33 * 32) xff) 32 33 = alloc HASH_BYTES.
Proof.
  apply (dhash_of_flat_raster_is_zero (allocFill (33 * 32) xff) 32 33).
  intros i. apply pixelLt_allocFill.
Defined.

(** Bytes the packer has not reached yet are still zero. *)
Lemma packBit_tail_zero st d :
  (forall j, (byteIndex st <= j)%nat -> byteAt (hash st) j = 0) ->
  forall j, (byteIndex (packBit st d) <= j)%nat -> byteAt (hash (packBit st d)) j = 0.
Proof.
  intros H j. unfold packBit.
  destruct (bitInByte st + 1 =? 8); cbn [hash byteIndex]; intros Hj.
  - unfold byteAt. rewrite list_lookup_insert_ne by lia. apply H. lia.
  - apply H. exact Hj.
Qed.

Lemma fold_packBit_tail_zero bits st :
  (forall j, (byteIndex st <= j)%nat -> byteAt (hash st) j = 0) ->
  forall j, (byteIndex (fold_left packBit bits st) <= j)%nat ->
    byteAt (hash (fold_left packBit bits st)) j = 0.
Proof.
  revert st. induction bits as [|d bits IH]; intros st H; [exact H|].
  simpl. apply IH. apply packBit_tail_zero. exact H.
Qed.

Lemma length_pixelBits data size rowWidth :
  length (pixelBits data size rowWidth) = (size * size)%nat.
Proof.
  unfold pixelBits. apply (length_flat_map_rows _ size). intros y. apply length_rowBits.
Qed.

(** Once 128 bytes are stored, the packer changes nothing more. *)
Lemma packBit_full st d :
  (HASH_BYTES <= byteIndex st)%nat -> length (hash st) = HASH_BYTES ->
  hash (packBit st d) = hash st /\ (HASH_BYTES <= byteIndex (packBit st d))%nat.
Proof.
  intros Hfull Hlen. unfold packBit.
  destruct (bitInByte st + 1 =? 8); cbn [hash byteIndex].
  - split; [|lia]. apply list_insert_ge. lia.
  - split; [reflexivity | assumption].
Qed.

Lemma fold_packBit_full bits st :
  (HASH_BYTES <= byteIndex st)%nat -> length (hash st) = HASH_BYTES ->
  hash (fold_left packBit bits st) = hash st.
Proof.
  revert st. induction bits as [|d bits IH]; intros st Hfull Hlen; [reflexivity|].
  simpl. destruct (packBit_full st d Hfull Hlen) as [Hh Hi].
  rewrite IH; [exact Hh | exact Hi | rewrite Hh; exact Hlen].
Qed.

Lemma packAll_take bits :
  hash (packAll bits) = hash (packAll (take (8 * HASH_BYTES) bits)).
Proof.
  destruct (decide (length bits <= 8 * HASH_BYTES)%nat) as [Hle|Hgt].
  - rewrite take_ge by assumption. reflexivity.
  - rewrite <- (take_drop (8 * HASH_BYTES) bits) at 1.
    unfold packAll. rewrite fold_left_app.
    pose proof (PackerInv_packAll (take (8 * HASH_BYTES) bits)) as (Hi & _ & Hl & _).
    rewrite length_take in Hi.
    apply fold_packBit_full; [|exact Hl].
    unfold packAll in Hi. rewrite Hi.
    rewrite Nat.min_l by lia. reflexivity.
Qed.

(** X15. At sizes other than 32: the bytes of the fingerprint from index
    [size * size / 8] on are zero (below 32 the comparisons do not fill the
    128 bytes), and the fingerprint is a function of the first 1024
    comparisons, row by row (above 32 the lower rows of the raster are
    never looked at). *)
Theorem dhash_at_other_sizes (data : Buffer) (size rowWidth : nat) :
  (forall j, (size * size / 8 <= j)%nat ->
     byteAt (computeHashFromPixels data size rowWidth) j = 0)
  /\ (forall data',
        take 1024 (pixelBits data size rowWidth)
        = take 1024 (pixelBits data' size rowWidth) ->
        computeHashFromPixels data size rowWidth
        = computeHashFromPixels data' size rowWidth).
Proof.
  split.
  - intros j Hj. rewrite computeHash_packAll. unfold packAll.
    apply fold_packBit_tail_zero.
    + intros k _. unfold packerInit, byteAt. cbn [hash].
      destruct (alloc HASH_BYTES !! k) as [b|] eqn:E; [|reflexivity].
      apply lookup_replicate in E as [-> _]. reflexivity.
    + pose proof (PackerInv_packAll (pixelBits data size rowWidth)) as (Hi & _).
      unfold packAll in Hi. rewrite Hi, length_pixelBits. exact Hj.
  - intros data' H. rewrite !computeHash_packAll.
    rewrite (packAll_take (pixelBits data size rowWidth)).
    rewrite (packAll_take (pixelBits data' size rowWidth)).
    change (8 * HASH_BYTES)%nat with 1024%nat. rewrite H. reflexivity.
Qed.

(** ** Cells of a sprite sheet *)

Lemma lookup_flat_map_rows {A} (g : nat -> list A) (w n y x : nat) :
  (forall y, (y < n)%nat -> length (g y) = w) -> (y < n)%nat -> (x < w)%nat ->
  flat_map g (seq 0 n) !! (y * w + x)%nat = g y !! x.
Proof.
  intros Hg.
  assert (G : forall m s y, (s + m <= n)%nat -> (y < m)%nat -> (x < w)%nat ->
            flat_map g (seq s m) !! (y * w + x)%nat = g (s + y)%nat !! x).
  { induction m as [|m IH]; intros s y' Hs Hy Hx; [lia|].
    cbn [seq flat_map]. destruct y' as [|y'].
    - rewrite lookup_app_l by (rewrite Hg; lia). now rewrite Nat.add_0_r.
    - rewrite lookup_app_r by (rewrite Hg; lia). rewrite Hg by lia.
      replace (S y' * w + x - w)%nat with (y' * w + x)%nat by lia.
      rewrite IH by lia. f_equal. f_equal. lia. }
  intros Hy Hx. now rewrite G by lia.
Qed.

Lemma lookup_slice buf start len j :
  (j < len)%nat -> slice buf start len !! j = buf !! (start + j)%nat.
Proof.
  intros Hj. unfold slice. rewrite lookup_take_lt by assumption. apply lookup_drop.
Qed.

Lemma lookup_cropCell data spriteWidth startX startY width height x y :
  (forall y, (y < height)%nat ->
     ((startY + y) * spriteWidth + startX + width <= length data)%nat) ->
  (y < height)%nat -> (x < width)%nat ->
  cropCell data spriteWidth startX startY width height !! (y * width + x)%nat
  = data !! ((startY + y) * spriteWidth + startX + x)%nat.
Proof.
  intros Hin Hy Hx. unfold cropCell.
  rewrite (lookup_flat_map_rows _ width height) by
    (try assumption; intros y' Hy'; apply length_slice; specialize (Hin y' Hy'); lia).
  apply lookup_slice. exact Hx.
Qed.

Lemma lookup_map_seq {A} (g : nat -> A) n i :
  (i < n)%nat -> map g (seq 0 n) !! i = Some (g i).
Proof.
  intros Hi. rewrite lookup_map.
  rewrite lookup_seq_lt by assumption. reflexivity.
Qed.

(** Reading the rows of a cell in place or from the cell cut out gives the
    same bits. *)
Lemma cell_rows_eq data spriteWidth startX startY size :
  (startX + (size + 1) <= spriteWidth)%nat ->
  ((startY + size) * spriteWidth <= length data)%nat ->
  fold_left
    (fun st y =>
       fold_left packBit
         (rowBits data ((startY + y) * spriteWidth + startX) size) st)
    (seq 0 size) packerInit
  = fold_left
      (fun st y =>
         fold_left packBit
           (rowBits (cropCell data spriteWidth startX startY (size + 1) size)
              (y * (size + 1)) size) st)
      (seq 0 size) packerInit.
Proof.
  intros Hrow Hdata.
  apply fold_left_ext_in. intros st y Hy. apply in_seq in Hy. f_equal.
  unfold rowBits. apply map_ext_in. intros x Hx. apply in_seq in Hx.
  assert (Hin : forall y, (y < size)%nat ->
            ((startY + y) * spriteWidth + startX + (size + 1) <= length data)%nat).
  { intros y' Hy'. nia. }
  unfold pixelLt.
  replace (y * (size + 1) + x + 1)%nat with (y * (size + 1) + (x + 1))%nat by lia.
  rewrite !(lookup_cropCell data spriteWidth startX startY (size + 1) size)
    by (try assumption; lia).
  replace ((startY + y) * spriteWidth + startX + x + 1)%nat
    with ((startY + y) * spriteWidth + startX + (x + 1))%nat by lia.
  reflexivity.
Qed.

(** X16. The fingerprint that [extractHashesFromSprite] cuts for icon [i]
    out of a raster of cells [size + 1] wide and [size] high is the
    fingerprint that [computeHashFromPixels] computes from the pixels of
    that cell alone, provided the cell lies within the raster. *)
Theorem sprite_cell_matches_single_hash (data : Buffer)
  (spriteWidth count cols size i : nat)
  (Hi : (i < count)%nat)
  (Hrow : ((i mod cols) * (size + 1) + (size + 1) <= spriteWidth)%nat)
  (Hdata : ((i / cols * size + size) * spriteWidth <= length data)%nat) :
  extractHashesFromSprite data spriteWidth count cols (size + 1) size !! i
  = Some (computeHashFromPixels
            (cropCell data spriteWidth ((i mod cols) * (size + 1))
               (i / cols * size) (size + 1) size)
            size (size + 1)).
Proof.
  unfold extractHashesFromSprite.
  rewrite lookup_map_seq by assumption. f_equal.
  unfold computeHashFromPixels. f_equal.
  apply cell_rows_eq; assumption.
Qed.

(** The third of three cells of 3 x 2 pixels, two to a row. *)
Lemma sprite_cell_matches_single_hash_witness :
  extractHashesFromSprite smallSprite 6 3 2 (2 + 1) 2 !! 2%nat
  = Some (computeHashFromPixels
            (cropCell smallSprite 6 ((2 mod 2) * (2 + 1)) (2 / 2 * 2) (2 + 1) 2)
            2 (2 + 1))
  /\ cropCell smallSprite 6 ((2 mod 2) * (2 + 1)) (2 / 2 * 2) (2 + 1) 2
     = [x30; x20; x10; x20; x30; x10].
Proof.
  split; [|reflexivity].
  apply (sprite_cell_matches_single_hash smallSprite 6 3 2 2 2); vm_compute; lia.
Defined.

(** ** The batch builder, further *)

Lemma filter_sublist {A} (f : A -> bool) l : List.filter f l `sublist_of` l.
Proof.
  induction l as [|a l IH]; simpl; [constructor|].
  destruct (f a); [apply sublist_skip | apply sublist_cons]; exact IH.
Qed.

Section Kept.

Variable sharpRaw : string -> nat -> nat -> Fit -> option Buffer.
Variable createSpriteSheet : list IconInput.t -> nat -> nat -> string.

Lemma push_loop_all (batch : list IconInput.t) (hs : list Buffer) n s acc :
  (s + n = length batch)%nat -> length hs = length batch ->
  (fold_left
     (fun acc j =>
        match batch !! j, hs !! j with
        | Some icon, Some hash => pushEntry acc (IconInput.name icon) hash
        | _, _ => acc
        end)
     (seq s n) acc).1 = acc.1 ++ map IconInput.name (drop s batch).
Proof.
  intros Hs Hhs. revert s acc Hs.
  induction n as [|n IH]; intros s acc Hs; cbn [seq fold_left].
  - rewrite drop_ge by lia. now rewrite app_nil_r.
  - destruct (lookup_lt_is_Some_2 batch s ltac:(lia)) as [icon Hicon].
    destruct (lookup_lt_is_Some_2 hs s ltac:(lia)) as [h Hh].
    rewrite Hicon, Hh, (drop_S _ _ _ Hicon). cbn [map].
    rewrite IH by lia. cbn [pushEntry fst]. now rewrite <- app_assoc.
Qed.

Lemma length_extract data spriteWidth count cols iconWidth iconHeight :
  length (extractHashesFromSprite data spriteWidth count cols iconWidth iconHeight)
  = count.
Proof. unfold extractHashesFromSprite. now rewrite length_map, length_seq. Qed.

Lemma fallbackBatch_names_exact size batch acc :
  (fallbackBatch sharpRaw size batch acc).1
  = acc.1 ++ map IconInput.name (List.filter (rendersAlone sharpRaw size) batch).
Proof.
  unfold fallbackBatch. revert acc.
  induction batch as [|icon batch IH]; intros acc; cbn [fold_left List.filter].
  - now rewrite app_nil_r.
  - unfold rendersAlone at 1.
    destruct (computeDHash sharpRaw (IconInput.svg icon) size) as [h|].
    + rewrite IH. cbn [pushEntry fst map]. now rewrite <- app_assoc.
    + apply IH.
Qed.

Lemma processBatch_names_exact size batch acc :
  (processBatch sharpRaw createSpriteSheet size batch acc).1
  = acc.1 ++ map IconInput.name (keptIcons sharpRaw createSpriteSheet size batch).
Proof.
  unfold processBatch, tryBatch, keptIcons.
  destruct (sharpRaw _ _ _ Fill) as [data|]; cbn [mbind option_bind].
  - rewrite push_loop_all; [now rewrite drop_0 | reflexivity | apply length_extract].
  - apply fallbackBatch_names_exact.
Qed.

Lemma batches_lower (icons : list IconInput.t) size m s acc :
  map IconInput.name
    (List.filter (rendersAlone sharpRaw size) (take (s * batchSize) icons))
  `sublist_of` acc.1 ->
  map IconInput.name
    (List.filter (rendersAlone sharpRaw size) (take ((s + m) * batchSize) icons))
  `sublist_of`
  (fold_left
     (fun acc i =>
        processBatch sharpRaw createSpriteSheet size
          (take batchSize (drop i icons)) acc)
     (map (fun k => (k * batchSize)%nat) (seq s m)) acc).1.
Proof.
  revert s acc. induction m as [|m IH]; intros s acc H; cbn [seq map fold_left].
  - now rewrite Nat.add_0_r.
  - replace (s + S m)%nat with (S s + m)%nat by lia. apply IH.
    rewrite processBatch_names_exact.
    replace (S s * batchSize)%nat with (s * batchSize + batchSize)%nat by lia.
    rewrite <- take_take_drop, List.filter_app, map_app.
    apply sublist_app; [exact H|].
    apply (fmap_sublist IconInput.name).
    unfold keptIcons. destruct (sharpRaw _ _ _ Fill); [apply filter_sublist | reflexivity].
Qed.

Lemma take_all_batches (icons : list IconInput.t) :
  take (ceilDiv (length icons) batchSize * batchSize) icons = icons.
Proof.
  apply take_ge.
  destruct (Nat.le_gt_cases (length icons) (ceilDiv (length icons) batchSize * batchSize))
    as [H|H]; [exact H|].
  apply ceilDiv_lt in H. lia.
Qed.

(** X17. An icon that [computeDHash] renders on its own is never left out
    of the index: the names of these icons, in their order, are among the
    names [buildIndex] writes.  (With X5: only icons that fail on their own
    can be missing, and only when their sprite sheet failed too.) *)
Theorem buildIndex_keeps_renderable_icons (icons : list IconInput.t) (size : nat) :
  map IconInput.name (List.filter (rendersAlone sharpRaw size) icons)
  `sublist_of` (buildEntries sharpRaw createSpriteSheet icons size).1.
Proof.
  unfold buildEntries, batchOffsets.
  rewrite <- (take_all_batches icons) at 1.
  apply (batches_lower icons size (ceilDiv (length icons) batchSize) 0 ([], [])).
  cbn [fst]. rewrite take_0. constructor.
Qed.

Lemma position_in_batch (icons : list IconInput.t) p :
  (p < length icons)%nat -> (p mod batchSize < length (batchOf icons p))%nat.
Proof.
  intros Hp. unfold batchOf. rewrite length_take, length_drop.
  pose proof (Nat.div_mod p batchSize ltac:(discriminate)) as Ediv.
  pose proof (Nat.mod_upper_bound p batchSize ltac:(discriminate)) as Hmod.
  rewrite (Nat.mul_comm (p / batchSize)). lia.
Qed.

Lemma entryOf_rendered size (icons : list IconInput.t) p icon data :
  icons !! p = Some icon ->
  spriteOf sharpRaw createSpriteSheet size (batchOf icons p) = Some data ->
  exists h,
    extractHashesFromSprite data (SPRITE_COLS * (size + 1))
      (length (batchOf icons p)) SPRITE_COLS (size + 1) size
    !! (p mod batchSize)%nat = Some h
    /\ entryOf sharpRaw createSpriteSheet size icons p
       = Some (IconInput.name icon, h).
Proof.
  intros Hicon Hdata.
  assert (Hp : (p < length icons)%nat) by (eapply lookup_lt_Some, Hicon).
  destruct (lookup_lt_is_Some_2
              (extractHashesFromSprite data (SPRITE_COLS * (size + 1))
                 (length (batchOf icons p)) SPRITE_COLS (size + 1) size)
              (p mod batchSize)) as [h Hh].
  { rewrite length_extract. now apply position_in_batch. }
  exists h. split; [exact Hh|].
  unfold entryOf. rewrite Hicon, Hdata. cbn [mbind option_bind].
  rewrite Hh. reflexivity.
Qed.

(** X18. When the renderer accepts the sprite sheet of every batch,
    [buildIndex] keeps every icon: the names are the names of the input, in
    order, whether or not an icon would render on its own, and the
    fingerprints take 128 bytes for each. *)
Theorem buildIndex_keeps_all_when_sprites_render
  (icons : list IconInput.t) (size : nat)
  (Hrender : forall k, (k * batchSize < length icons)%nat ->
     is_Some (spriteOf sharpRaw createSpriteSheet size
                (take batchSize (drop (k * batchSize) icons)))) :
  (buildEntries sharpRaw createSpriteSheet icons size).1
  = map IconInput.name icons
  /\ length (IndexBlobs.hashes (buildIndex sharpRaw createSpriteSheet icons size))
     = (length icons * HASH_BYTES)%nat.
Proof.
  assert (Hentry : forall p icon, icons !! p = Some icon ->
            exists h, entryOf sharpRaw createSpriteSheet size icons p
                      = Some (IconInput.name icon, h)).
  { intros p icon Hicon.
    assert (Hp : (p < length icons)%nat) by (eapply lookup_lt_Some, Hicon).
    destruct (Hrender (p / batchSize)%nat) as [data Hdata].
    { pose proof (Nat.Div0.mul_div_le p batchSize). lia. }
    destruct (entryOf_rendered size icons p icon data Hicon Hdata) as (h & _ & E).
    exists h. exact E. }
  assert (Hnames : (buildEntries sharpRaw createSpriteSheet icons size).1
                   = map IconInput.name icons).
  { rewrite buildEntries_survivors. cbn [fst]. unfold survivors.
    rewrite (omap_total _ (EmptyString, [])).
    - apply list_eq. intros p. rewrite !list_lookup_fmap.
      destruct (icons !! p) as [icon|] eqn:Hicon.
      + rewrite lookup_seq_lt by (eapply lookup_lt_Some, Hicon).
        destruct (Hentry p icon Hicon) as (h & E).
        cbn. rewrite E. reflexivity.
      + rewrite lookup_seq_ge by (apply lookup_ge_None, Hicon). reflexivity.
    - apply Forall_forall. intros p Hp. apply list_elem_of_In, in_seq in Hp.
      destruct (lookup_lt_is_Some_2 icons p ltac:(lia)) as [icon Hicon].
      destruct (Hentry p icon Hicon) as (h & E). rewrite E. eexists. reflexivity. }
  split; [exact Hnames|].
  destruct (buildEntries_ok sharpRaw createSpriteSheet (fun _ => True) icons size)
    as (Hlen & Hhs & _).
  { apply Forall_forall. intros; exact I. }
  unfold buildIndex. cbn [IndexBlobs.hashes].
  rewrite length_concat_hashes by exact Hhs.
  rewrite <- Hlen, Hnames, length_map. reflexivity.
Qed.

End Kept.

(** Three icons, one of them with an empty document, whose sprite sheet the
    renderer accepts. *)
Lemma buildIndex_keeps_all_when_sprites_render_witness :
  (buildEntries inkSharp sampleSprite inkIcons 8).1
  = map IconInput.name inkIcons
  /\ length (IndexBlobs.hashes (buildIndex inkSharp sampleSprite inkIcons 8))
     = (length inkIcons * HASH_BYTES)%nat.
Proof.
  apply (buildIndex_keeps_all_when_sprites_render inkSharp sampleSprite inkIcons 8).
  intros k Hk. destruct k as [|k]; [|vm_compute in Hk; lia].
  vm_compute. eexists. reflexivity.
Defined.

(** X19. The progress that [buildIndex] reports: one call for each started
    batch of 1000 icons, each with the total as second argument and a count
    between 1 and the total as first, strictly increasing from call to
    call; the last call reports the total itself, and for no icons there is
    no call at all. *)
Theorem buildIndex_progress_reaches_total (total : nat) :
  length (progressCalls total) = ceilDiv total batchSize
  /\ Forall (fun c => (0 < c.1 <= total)%nat /\ c.2 = total) (progressCalls total)
  /\ (forall k c c', progressCalls total !! k = Some c ->
        progressCalls total !! S k = Some c' -> (c.1 < c'.1)%nat)
  /\ ((0 < total)%nat -> last (progressCalls total) = Some (total, total))
  /\ (total = 0%nat -> progressCalls total = []).
Proof.
  assert (Hlook : forall k c, progressCalls total !! k = Some c ->
            (k < ceilDiv total batchSize)%nat
            /\ c = (Nat.min (k * batchSize + batchSize) total, total)).
  { intros k c H. unfold progressCalls, batchOffsets in H.
    rewrite !lookup_map in H.
    destruct (seq 0 (ceilDiv total batchSize) !! k) as [k'|] eqn:E; [|discriminate].
    apply lookup_seq in E as [-> Hk]. cbn in H. injection H as <-. split; [exact Hk | reflexivity]. }
  assert (Hlen : length (progressCalls total) = ceilDiv total batchSize).
  { unfold progressCalls, batchOffsets. now rewrite !length_map, length_seq. }
  split; [exact Hlen|]. split; [|split; [|split]].
  - apply Forall_forall. intros c Hc.
    apply list_elem_of_lookup in Hc as [k Hk].
    apply Hlook in Hk as [Hk ->]. apply ceilDiv_lt in Hk. cbn [fst snd].
    unfold batchSize in *. change (SPRITE_COLS * 20)%nat with 1000%nat in *. lia.
  - intros k c c' Hc Hc'.
    apply Hlook in Hc as [_ ->]. apply Hlook in Hc' as [Hk ->].
    apply ceilDiv_lt in Hk. cbn [fst].
    unfold batchSize in *. change (SPRITE_COLS * 20)%nat with 1000%nat in *. lia.
  - intros Hpos. rewrite last_lookup, Hlen.
    assert (H1 : (Nat.pred (ceilDiv total batchSize) < ceilDiv total batchSize)%nat).
    { assert (0 < ceilDiv total batchSize)%nat by (apply ceilDiv_lt; lia). lia. }
    destruct (lookup_lt_is_Some_2 (progressCalls total)
                (Nat.pred (ceilDiv total batchSize)) ltac:(lia)) as [c Hc].
    rewrite Hc. apply Hlook in Hc as [_ ->]. f_equal. f_equal.
    assert (H2 : ~ (S (Nat.pred (ceilDiv total batchSize)) < ceilDiv total batchSize)%nat) by lia.
    rewrite ceilDiv_lt in H2. lia.
  - intros ->. reflexivity.
Qed.

Section Count.

Variable sharpRaw : string -> nat -> nat -> Fit -> option Buffer.
Variable createSpriteSheet : list IconInput.t -> nat -> nat -> string.

(** X20. The count that [scripts/build-index.ts] prints after
    [buildIndex], for icons whose names are free of newlines: the number of
    indexed icons when there is one at least, and 1 when there is none. *)
Theorem reported_count_is_one_for_empty_index
  (icons : list IconInput.t) (size : nat)
  (Hnames : Forall (fun icon => hasChar "010" (IconInput.name icon) = false) icons) :
  reportedCount (IndexBlobs.names (buildIndex sharpRaw createSpriteSheet icons size))
  = Nat.max 1 (length (buildEntries sharpRaw createSpriteSheet icons size).1).
Proof.
  destruct (buildEntries_ok sharpRaw createSpriteSheet
              (fun n => hasChar "010" n = false) icons size Hnames)
    as (_ & _ & Hq).
  unfold reportedCount, buildIndex. cbn [IndexBlobs.names].
  destruct ((buildEntries sharpRaw createSpriteSheet icons size).1) as [|n names] eqn:E.
  - reflexivity.
  - rewrite split_join; [cbn [length]; lia | congruence | exact Hq].
Qed.

End Count.

(** Two indexed icons reported as 2, no icon reported as 1. *)
Lemma reported_count_is_one_for_empty_index_witness :
  reportedCount (IndexBlobs.names (buildIndex sampleSharp brokenSprite sampleIcons 32))
  = Nat.max 1 (length (buildEntries sampleSharp brokenSprite sampleIcons 32).1)
  /\ reportedCount (IndexBlobs.names (buildIndex sampleSharp brokenSprite [] 32)) = 1%nat.
Proof.
  split; [|reflexivity].
  apply (reported_count_is_one_for_empty_index sampleSharp brokenSprite sampleIcons 32).
  repeat constructor.
Defined.

(** ** The names of a loaded index *)

Lemma split_pieces_no_sep sep s :
  Forall (fun piece => hasChar sep piece = false) (JS.split sep s).
Proof.
  induction s as [|c s IH]; cbn [JS.split].
  - constructor; [reflexivity | constructor].
  - destruct (Ascii.eqb c sep) eqn:E.
    + constructor; [reflexivity | exact IH].
    + destruct (JS.split sep s) as [|piece pieces].
      * constructor; [|constructor]. cbn [hasChar]. now rewrite E.
      * inversion IH as [|? ? Hp Hps]; subst.
        constructor; [|exact Hps]. cbn [hasChar]. now rewrite E, Hp.
Qed.

Lemma parseNames_valid s : Forall (fun n => validName n = true) (parseNames s).
Proof.
  unfold parseNames. apply List.Forall_forall. intros n Hn.
  apply filter_In in Hn as [Hin Ht].
  pose proof (split_pieces_no_sep "010" s) as H.
  rewrite List.Forall_forall in H. specialize (H n Hin).
  unfold validName. now rewrite Ht, H.
Qed.

(** X21. Whatever the payloads hold, the names of a loaded index are not
    empty and free of newlines, and joining them with newlines and parsing
    them again gives the same names: blank lines in the names file are
    dropped once and for all. *)
Theorem loadIndex_names_are_clean
  (gunzipSync : Buffer -> option Buffer)
  (namesGz hashesGz : Buffer) (index : IconIndex.t)
  (Hload : loadIndex gunzipSync namesGz hashesGz = Some index) :
  Forall (fun n => validName n = true) (IconIndex.names index)
  /\ parseNames (JS.join (String "010" EmptyString) (IconIndex.names index))
     = IconIndex.names index.
Proof.
  assert (H : Forall (fun n => validName n = true) (IconIndex.names index)).
  { unfold loadIndex in Hload.
    destruct (gunzipSync namesGz) as [namesRaw|]; [|discriminate].
    cbn [mbind option_bind] in Hload.
    destruct (gunzipSync hashesGz) as [hashesRaw|]; [|discriminate].
    cbn [mbind option_bind] in Hload. injection Hload as <-.
    cbn [IconIndex.names]. apply parseNames_valid. }
  split; [exact H | apply parseNames_join, H].
Qed.

(** A names file with a leading and a doubled newline. *)
Lemma loadIndex_names_are_clean_witness :
  loadIndex storedGunzip
    (list_byte_of_string (String "010" (String "a" (String "010" (String "010" "b")))))
    [] = Some (IconIndex.mk ["a"%string; "b"%string] [])
  /\ Forall (fun n => validName n = true) ["a"%string; "b"%string]
  /\ parseNames (JS.join (String "010" EmptyString) ["a"%string; "b"%string])
     = ["a"%string; "b"%string].
Proof.
  split; [reflexivity|].
  apply (loadIndex_names_are_clean storedGunzip
           (list_byte_of_string (String "010" (String "a" (String "010" (String "010" "b")))))
           [] (IconIndex.mk ["a"%string; "b"%string] [])).
  reflexivity.
Defined.

(** ** The matcher, further *)

Lemma scanRecord_spec inputHash index threshold prefixes matches i name :
  IconIndex.names index !! i = Some name ->
  scanRecord inputHash (IconIndex.hashes index) (JS.set_of prefixes) threshold
    (JS.floor ((1 - threshold) * JS.of_nat HASH_BYTES * 8)%float) matches i name
  = matches ++ option_list (candidateAt inputHash index threshold prefixes i).
Proof.
  intros Hname. unfold scanRecord, candidateAt, passesPrefix, passesThreshold.
  rewrite Hname, recordSimilarity_eq.
  destruct (JS.set_of prefixes) as [allowed|].
  - destruct (JS.truthy (prefixOf name)); cbn [negb orb andb];
      [|now rewrite app_nil_r].
    destruct (JS.has allowed (prefixOf name)); cbn [negb andb];
      [|now rewrite app_nil_r].
    destruct (PrimFloat.ltb _ _); cbn [negb andb]; [now rewrite app_nil_r|].
    destruct (PrimFloat.leb _ _); [reflexivity | now rewrite app_nil_r].
  - cbn [andb].
    destruct (PrimFloat.ltb _ _); cbn [negb andb]; [now rewrite app_nil_r|].
    destruct (PrimFloat.leb _ _); [reflexivity | now rewrite app_nil_r].
Qed.

Lemma scanFrom_spec inputHash index threshold prefixes i names matches :
  drop i (IconIndex.names index) = names ->
  scanFrom inputHash (IconIndex.hashes index) (JS.set_of prefixes) threshold
    (JS.floor ((1 - threshold) * JS.of_nat HASH_BYTES * 8)%float) i names matches
  = matches
    ++ omap (candidateAt inputHash index threshold prefixes) (seq i (length names)).
Proof.
  revert i matches. induction names as [|name names IH]; intros i matches Hdrop;
    cbn [scanFrom length seq].
  - now rewrite app_nil_r.
  - assert (Hname : IconIndex.names index !! i = Some name).
    { rewrite <- (Nat.add_0_r i), <- lookup_drop, Hdrop. reflexivity. }
    rewrite (scanRecord_spec _ _ _ _ _ _ _ Hname).
    rewrite IH.
    + rewrite <- app_assoc. f_equal.
      change (i :: seq (S i) (length names)) with ([i] ++ seq (S i) (length names)).
      rewrite omap_app. f_equal.
    + replace (S i) with (i + 1)%nat by lia.
      rewrite <- drop_drop, Hdrop. reflexivity.
Qed.

Lemma scanIndex_omap inputHash index threshold prefixes :
  scanIndex inputHash index threshold prefixes
  = omap (candidateAt inputHash index threshold prefixes)
      (seq 0 (length (IconIndex.names index))).
Proof.
  unfold scanIndex. rewrite scanFrom_spec by apply drop_0. reflexivity.
Qed.

Lemma omap_Forall2 {A B} (f : A -> option B) (l : list A) :
  exists picked, picked `sublist_of` l
    /\ Forall2 (fun i m => f i = Some m) picked (omap f l).
Proof.
  induction l as [|a l (picked & Hsub & Hall)].
  - exists []. split; constructor.
  - cbn [omap list_omap]. fold (omap f l).
    destruct (f a) as [b|] eqn:E.
    + exists (a :: picked). split; [now apply sublist_skip | now constructor].
    + exists picked. split; [now apply sublist_cons | exact Hall].
Qed.

Lemma length_scanIndex inputHash index threshold prefixes :
  (length (scanIndex inputHash index threshold prefixes)
   <= length (IconIndex.names index))%nat.
Proof.
  rewrite scanIndex_omap.
  destruct (omap_Forall2 (candidateAt inputHash index threshold prefixes)
              (seq 0 (length (IconIndex.names index)))) as (picked & Hsub & Hall).
  rewrite <- (Forall2_length _ _ _ Hall).
  apply sublist_length in Hsub. now rewrite length_seq in Hsub.
Qed.

Lemma candidateAt_Some inputHash index threshold prefixes i m :
  candidateAt inputHash index threshold prefixes i = Some m ->
  IconIndex.names index !! i = Some (IconMatch.name m)
  /\ IconMatch.similarity m = recordSimilarity inputHash index i.
Proof.
  unfold candidateAt. destruct (IconIndex.names index !! i) as [name|]; [|discriminate].
  destruct (_ && _); [|discriminate]. intros [= <-]. split; reflexivity.
Qed.

Lemma hash_bytes_number : JS.of_nat HASH_BYTES = 128%float.
Proof. vm_compute. reflexivity. Qed.

Lemma percentFacts_all j d :
  0 <= j <= 100 -> 0 <= d <= 1024 -> percentFacts j d = true.
Proof.
  intros Hj Hd.
  apply (allPairs_spec percentFacts 101 1025); [vm_compute; reflexivity | lia | lia].
Qed.

Lemma passesThreshold_percent j d :
  0 <= j <= 100 -> 0 <= d <= 1024 ->
  passesThreshold (percent j) d = (d <=? percentBound j).
Proof.
  intros Hj Hd. unfold passesThreshold.
  rewrite similarityOfDistance_simOf, hash_bytes_number.
  apply Bool.eqb_prop. apply (percentFacts_all j d Hj Hd).
Qed.

Lemma slice0_all {A} (limit : Z) (l : list A) :
  Z.of_nat (length l) <= limit -> JS.slice0 limit l = l.
Proof.
  intros Hlen. unfold JS.slice0, JS.slice_end. apply take_ge.
  destruct (Z.ltb_spec limit 0); lia.
Qed.

Lemma In_sorted_slice {A} (cmp : A -> A -> float) (limit : Z) (l : list A) m :
  Z.of_nat (length l) <= limit ->
  In m (JS.slice0 limit (JS.sort cmp l)) <-> In m l.
Proof.
  intros Hlen. rewrite slice0_all
    by (rewrite (Permutation_length (sort_perm cmp l)); exact Hlen).
  apply In_sort.
Qed.

Lemma In_scanIndex inputHash index threshold prefixes m :
  In m (scanIndex inputHash index threshold prefixes)
  <-> exists i, candidateAt inputHash index threshold prefixes i = Some m.
Proof.
  split.
  - intros Hm. rewrite scanIndex_omap in Hm.
    apply list_elem_of_In in Hm. apply list_elem_of_omap in Hm as (i & _ & H).
    exists i. exact H.
  - intros (i & H). rewrite scanIndex_omap.
    apply list_elem_of_In. apply list_elem_of_omap. exists i. split; [|exact H].
    apply candidateAt_Some in H as [Hn _]. apply lookup_lt_Some in Hn.
    apply list_elem_of_In, in_seq. lia.
Qed.

Lemma candidateAt_iff inputHash index threshold prefixes i m :
  candidateAt inputHash index threshold prefixes i = Some m
  <-> exists name,
        IconIndex.names index !! i = Some name
        /\ passesPrefix prefixes name = true
        /\ passesThreshold threshold
             (hammingDistanceAtOffset inputHash (IconIndex.hashes index)
                (i * HASH_BYTES)) = true
        /\ m = IconMatch.mk name (recordSimilarity inputHash index i).
Proof.
  unfold candidateAt.
  generalize (passesThreshold threshold
                (hammingDistanceAtOffset inputHash (IconIndex.hashes index)
                   (i * HASH_BYTES))) as passed.
  generalize (recordSimilarity inputHash index i) as similarity.
  intros similarity passed.
  destruct (IconIndex.names index !! i) as [name|].
  - destruct (passesPrefix prefixes name) eqn:Ep; destruct passed; cbn [andb]; split;
      try discriminate.
    + intros [= <-]. exists name. split; [|split; [|split]]; auto.
    + intros (name' & [= <-] & _ & _ & ->). reflexivity.
    + intros (name' & _ & _ & Hp & _). discriminate.
    + intros (name' & [= <-] & Hp & _). congruence.
    + intros (name' & [= <-] & Hp & _). congruence.
  - split; [discriminate|]. intros (name & E & _). discriminate.
Qed.

Lemma stored_record_distance inputHash hashes i :
  length inputHash = HASH_BYTES ->
  slice hashes (i * HASH_BYTES) HASH_BYTES = inputHash ->
  hammingDistanceAtOffset inputHash hashes (i * HASH_BYTES) = 0.
Proof.
  intros Hlen Hrecord.
  assert (H0 : hammingDistance inputHash inputHash = inr 0).
  { rewrite hammingDistance_reference by reflexivity.
    now rewrite differingBits_refl. }
  rewrite hammingDistance_eq_len in H0 by reflexivity.
  rewrite <- Hrecord in H0 at 2. rewrite Hlen in H0.
  rewrite distanceLoop_slice in H0 by reflexivity.
  unfold hammingDistanceAtOffset. now injection H0.
Qed.

Lemma similarity_of_zero : similarityOfDistance 0 = 1%float.
Proof. vm_compute. reflexivity. Qed.

Section Results.

Variable sharpRaw : string -> nat -> nat -> Fit -> option Buffer.

Lemma findMatches_matchHash svg index options inputHash result :
  computeDHash sharpRaw svg (default DEFAULT_SIZE (MatchOptions.size options))
  = Some inputHash ->
  findMatches sharpRaw svg index options = Some result ->
  result
  = JS.slice0 (default 10 (MatchOptions.limit options))
      (JS.sort (compareMatches (JS.set_of (MatchOptions.prefer options)))
         (scanIndex inputHash index
            (default 0.8%float (MatchOptions.threshold options))
            (MatchOptions.prefixes options))).
Proof.
  intros Hhash. unfold findMatches. rewrite Hhash. cbn [mbind option_bind].
  intros [= <-]. reflexivity.
Qed.

(** X22. Every result of [findMatches] is a record of the index: there are
    pairwise different record numbers, one for each result in order, such
    that the result carries the name of its record and the similarity of
    the query to it.  No record is returned twice and no name or similarity
    is made up. *)
Theorem findMatches_returns_index_records
  (svg : string) (index : IconIndex.t) (options : MatchOptions.t)
  (inputHash : Buffer) (result : list IconMatch.t)
  (Hhash : computeDHash sharpRaw svg
             (default DEFAULT_SIZE (MatchOptions.size options))
           = Some inputHash)
  (Hresult : findMatches sharpRaw svg index options = Some result) :
  exists records : list nat,
    NoDup records
    /\ Forall2
         (fun i m =>
            IconIndex.names index !! i = Some (IconMatch.name m)
            /\ IconMatch.similarity m = recordSimilarity inputHash index i)
         records result.
Proof.
  rewrite (findMatches_matchHash _ _ _ _ _ Hhash Hresult).
  set (threshold := default 0.8%float (MatchOptions.threshold options)).
  set (cmp := compareMatches (JS.set_of (MatchOptions.prefer options))).
  rewrite scanIndex_omap.
  destruct (omap_Forall2
              (candidateAt inputHash index threshold (MatchOptions.prefixes options))
              (seq 0 (length (IconIndex.names index)))) as (picked & Hsub & Hall).
  set (ms := omap _ _) in *.
  apply Forall2_flip in Hall.
  destruct (Permutation_Forall2 (Permutation_sym (sort_perm cmp ms)) Hall)
    as (picked' & Hperm & Hall').
  apply Forall2_flip in Hall'.
  exists (take (JS.slice_end (length (JS.sort cmp ms))
                  (default 10 (MatchOptions.limit options))) picked'). split.
  - apply (sublist_NoDup _ picked'); [|apply sublist_take].
    rewrite <- Hperm.
    apply (sublist_NoDup _ (seq 0 (length (IconIndex.names index)))); [|exact Hsub].
    apply NoDup_seq.
  - unfold JS.slice0. apply Forall2_take.
    eapply Forall2_impl; [exact Hall'|].
    intros i m H. cbn in H. exact (candidateAt_Some _ _ _ _ _ _ H).
Qed.

(** X23. When [limit] is at least the number of names of the index,
    [prefer] changes the order of the results only, never which records are
    returned: the results under any other preference are the same results
    in another order. *)
Theorem findMatches_prefer_only_reorders
  (svg : string) (index : IconIndex.t) (options : MatchOptions.t)
  (prefer' : option (list string)) (result : list IconMatch.t)
  (Hlimit : Z.of_nat (length (IconIndex.names index))
            <= default 10 (MatchOptions.limit options))
  (Hresult : findMatches sharpRaw svg index options = Some result) :
  exists result',
    findMatches sharpRaw svg index
      (MatchOptions.mk (MatchOptions.size options) (MatchOptions.limit options)
         (MatchOptions.threshold options) (MatchOptions.prefixes options)
         prefer')
    = Some result'
    /\ Permutation result result'.
Proof.
  unfold findMatches in *. cbn [MatchOptions.size MatchOptions.limit
    MatchOptions.threshold MatchOptions.prefixes MatchOptions.prefer].
  destruct (computeDHash sharpRaw svg _) as [inputHash|]; [|discriminate].
  cbn [mbind option_bind] in *. injection Hresult as <-.
  unfold matchHash.
  set (ms := scanIndex inputHash index _ _).
  assert (Hlen : forall cmp,
            JS.slice0 (default 10 (MatchOptions.limit options)) (JS.sort cmp ms)
            = JS.sort cmp ms).
  { intros cmp. apply slice0_all.
    rewrite (Permutation_length (sort_perm cmp ms)).
    pose proof (length_scanIndex inputHash index
                  (default 0.8%float (MatchOptions.threshold options))
                  (MatchOptions.prefixes options)) as Hs.
    fold ms in Hs. lia. }
  eexists. split; [reflexivity|]. rewrite !Hlen.
  etransitivity; [apply sort_perm | symmetry; apply sort_perm].
Qed.

(** X24. For a threshold of [j] percent ([j] from 0 to 100; the default 0.8
    is 80 percent) and a [limit] of at least the number of names, the
    results are exactly the records whose prefix passes the filter and whose
    distance to the query is at most [floor (1024 * (100 - j) / 100)] bits
    (204 bits by default): the two tests of the scan, on the distance and on
    the similarity, select the same records. *)
Theorem findMatches_percent_threshold
  (svg : string) (index : IconIndex.t) (options : MatchOptions.t)
  (inputHash : Buffer) (j : Z) (result : list IconMatch.t)
  (Hj : 0 <= j <= 100)
  (Hthreshold : default 0.8%float (MatchOptions.threshold options) = percent j)
  (Hlimit : Z.of_nat (length (IconIndex.names index))
            <= default 10 (MatchOptions.limit options))
  (Hhash : computeDHash sharpRaw svg
             (default DEFAULT_SIZE (MatchOptions.size options))
           = Some inputHash)
  (Hresult : findMatches sharpRaw svg index options = Some result) :
  forall m,
    In m result
    <-> exists i name,
          IconIndex.names index !! i = Some name
          /\ passesPrefix (MatchOptions.prefixes options) name = true
          /\ hammingDistanceAtOffset inputHash (IconIndex.hashes index)
               (i * HASH_BYTES) <= percentBound j
          /\ m = IconMatch.mk name (recordSimilarity inputHash index i).
Proof.
  intros m. rewrite (findMatches_matchHash _ _ _ _ _ Hhash Hresult).
  rewrite In_sorted_slice
    by (pose proof (length_scanIndex inputHash index
                      (default 0.8%float (MatchOptions.threshold options))
                      (MatchOptions.prefixes options)); lia).
  rewrite In_scanIndex, Hthreshold. split.
  - intros (i & H). apply candidateAt_iff in H as (name & E & Ep & Et & ->).
    rewrite passesThreshold_percent in Et by (try assumption; apply offset_distance_range).
    apply Z.leb_le in Et. exists i, name. auto.
  - intros (i & name & E & Ep & Hle & ->). exists i.
    apply candidateAt_iff. exists name.
    rewrite passesThreshold_percent by (try assumption; apply offset_distance_range).
    apply Z.leb_le in Hle. auto.
Qed.

(** X25. An icon whose own fingerprint is stored in the index is found:
    for a threshold in whole percent and a [limit] of at least the number of
    names, the record that holds the fingerprint of the query is returned
    with similarity 1.0, if its prefix passes the filter. *)
Theorem findMatches_finds_stored_fingerprint
  (svg : string) (index : IconIndex.t) (options : MatchOptions.t)
  (inputHash : Buffer) (j : Z) (i : nat) (name : string)
  (result : list IconMatch.t)
  (Hj : 0 <= j <= 100)
  (Hthreshold : default 0.8%float (MatchOptions.threshold options) = percent j)
  (Hlimit : Z.of_nat (length (IconIndex.names index))
            <= default 10 (MatchOptions.limit options))
  (Hhash : computeDHash sharpRaw svg
             (default DEFAULT_SIZE (MatchOptions.size options))
           = Some inputHash)
  (Hname : IconIndex.names index !! i = Some name)
  (Hprefix : passesPrefix (MatchOptions.prefixes options) name = true)
  (Hrecord : slice (IconIndex.hashes index) (i * HASH_BYTES) HASH_BYTES
             = inputHash)
  (Hresult : findMatches sharpRaw svg index options = Some result) :
  In (IconMatch.mk name 1%float) result.
Proof.
  rewrite (findMatches_matchHash _ _ _ _ _ Hhash Hresult).
  rewrite In_sorted_slice
    by (pose proof (length_scanIndex inputHash index
                      (default 0.8%float (MatchOptions.threshold options))
                      (MatchOptions.prefixes options)); lia).
  rewrite In_scanIndex, Hthreshold. exists i.
  assert (Hlen : length inputHash = HASH_BYTES).
  { unfold computeDHash in Hhash. destruct (sharpRaw _ _ _ _); [|discriminate].
    cbn in Hhash. injection Hhash as <-. apply computeHash_length. }
  pose proof (stored_record_distance _ _ _ Hlen Hrecord) as Hdist.
  apply candidateAt_iff. exists name.
  rewrite recordSimilarity_eq, Hdist, similarity_of_zero.
  rewrite passesThreshold_percent by (try assumption; lia).
  assert (Hb : 0 <= percentBound j).
  { unfold percentBound. apply Z.div_pos; lia. }
  apply Z.leb_le in Hb. auto.
Qed.

End Results.

(** The query with the all-zero fingerprint on the index of two exact
    matches and a record 5 bits away. *)
Lemma findMatches_returns_index_records_witness :
  exists records : list nat,
    NoDup records
    /\ Forall2
         (fun i m =>
            IconIndex.names homeIndex !! i = Some (IconMatch.name m)
            /\ IconMatch.similarity m
               = recordSimilarity (alloc HASH_BYTES) homeIndex i)
         records
         [IconMatch.mk "lucide:home" (similarityOfDistance 0);
          IconMatch.mk "mdi:home" (similarityOfDistance 0);
          IconMatch.mk "mdi:house" (similarityOfDistance 5)].
Proof.
  apply (findMatches_returns_index_records sampleSharp "<svg/>" homeIndex
           preferLucide (alloc HASH_BYTES)); vm_compute; reflexivity.
Defined.

(** The same query without the preference. *)
Lemma findMatches_prefer_only_reorders_witness :
  exists result',
    findMatches sampleSharp "<svg/>" homeIndex
      (MatchOptions.mk None None None None None)
    = Some result'
    /\ Permutation
         [IconMatch.mk "lucide:home" (similarityOfDistance 0);
          IconMatch.mk "mdi:home" (similarityOfDistance 0);
          IconMatch.mk "mdi:house" (similarityOfDistance 5)]
         result'.
Proof.
  apply (findMatches_prefer_only_reorders sampleSharp "<svg/>" homeIndex
           preferLucide None).
  - vm_compute. discriminate.
  - vm_compute. reflexivity.
Defined.

(** The record 5 bits away under the default threshold. *)
Lemma findMatches_percent_threshold_witness :
  In (IconMatch.mk "mdi:house" (similarityOfDistance 5))
    [IconMatch.mk "lucide:home" (similarityOfDistance 0);
     IconMatch.mk "mdi:home" (similarityOfDistance 0);
     IconMatch.mk "mdi:house" (similarityOfDistance 5)]
  <-> exists i name,
        IconIndex.names homeIndex !! i = Some name
        /\ passesPrefix (MatchOptions.prefixes preferLucide) name = true
        /\ hammingDistanceAtOffset (alloc HASH_BYTES) (IconIndex.hashes homeIndex)
             (i * HASH_BYTES) <= percentBound 80
        /\ IconMatch.mk "mdi:house" (similarityOfDistance 5)
           = IconMatch.mk name (recordSimilarity (alloc HASH_BYTES) homeIndex i).
Proof.
  apply (findMatches_percent_threshold sampleSharp "<svg/>" homeIndex preferLucide
           (alloc HASH_BYTES) 80).
  - lia.
  - vm_compute. reflexivity.
  - vm_compute. discriminate.
  - vm_compute. reflexivity.
  - vm_compute. reflexivity.
Defined.

(** Record 2 holds the fingerprint of the query. *)
Lemma findMatches_finds_stored_fingerprint_witness :
  In (IconMatch.mk "lucide:home" 1%float)
    [IconMatch.mk "lucide:home" (similarityOfDistance 0);
     IconMatch.mk "mdi:home" (similarityOfDistance 0);
     IconMatch.mk "mdi:house" (similarityOfDistance 5)].
Proof.
  apply (findMatches_finds_stored_fingerprint sampleSharp "<svg/>" homeIndex
           preferLucide (alloc HASH_BYTES) 80 2 "lucide:home").
  - lia.
  - vm_compute. reflexivity.
  - vm_compute. discriminate.
  - vm_compute. reflexivity.
  - reflexivity.
  - reflexivity.
  - vm_compute. reflexivity.
  - vm_compute. reflexivity.
Defined.

(** ** The index behind [findMatches] *)

Lemma byteAt_take_pad buf n k :
  (k < n)%nat -> byteAt (take n (buf ++ alloc n)) k = byteAt buf k.
Proof.
  intros Hk. unfold byteAt. rewrite lookup_take_lt by assumption.
  destruct (decide (k < length buf)%nat) as [Hin|Hout].
  - now rewrite lookup_app_l.
  - rewrite lookup_app_r by lia.
    rewrite (proj2 (lookup_ge_None buf k)) by lia.
    unfold alloc.
    destruct (replicate n x00 !! (k - length buf)%nat) eqn:E; [|reflexivity].
    apply lookup_replicate in E as [-> _]. reflexivity.
Qed.

Lemma offset_distance_take_pad inputHash hashes n i :
  (i < n)%nat ->
  hammingDistanceAtOffset inputHash
    (take (n * HASH_BYTES) (hashes ++ alloc (n * HASH_BYTES))) (i * HASH_BYTES)
  = hammingDistanceAtOffset inputHash hashes (i * HASH_BYTES).
Proof.
  intros Hi. unfold hammingDistanceAtOffset. rewrite !distanceLoop_sum.
  apply sumOver_ext. intros k Hk. apply in_seq in Hk.
  change (4 * ((HASH_BYTES + 3) / 4))%nat with HASH_BYTES in Hk.
  unfold xorBits. rewrite byteAt_take_pad; [reflexivity|].
  unfold HASH_BYTES in *. nia.
Qed.

Lemma candidateAt_take_pad inputHash names hashes threshold prefixes i :
  (i < length names)%nat ->
  candidateAt inputHash (IconIndex.mk names hashes) threshold prefixes i
  = candidateAt inputHash
      (IconIndex.mk names
         (take (length names * HASH_BYTES)
            (hashes ++ alloc (length names * HASH_BYTES))))
      threshold prefixes i.
Proof.
  intros Hi. unfold candidateAt. rewrite !recordSimilarity_eq.
  cbn [IconIndex.names IconIndex.hashes].
  rewrite offset_distance_take_pad by assumption. reflexivity.
Qed.

Lemma scanIndex_take_pad inputHash names hashes threshold prefixes :
  scanIndex inputHash (IconIndex.mk names hashes) threshold prefixes
  = scanIndex inputHash
      (IconIndex.mk names
         (take (length names * HASH_BYTES)
            (hashes ++ alloc (length names * HASH_BYTES))))
      threshold prefixes.
Proof.
  rewrite !scanIndex_omap. cbn [IconIndex.names].
  apply list_omap_ext. apply Forall2_same_length_lookup_2; [reflexivity|].
  intros k i i' Hi Hi'. rewrite Hi in Hi'. injection Hi' as <-.
  apply lookup_seq in Hi as [-> Hk]. cbn [Nat.add].
  apply candidateAt_take_pad. exact Hk.
Qed.

Section Normal.

Variable sharpRaw : string -> nat -> nat -> Fit -> option Buffer.

(** X26. [findMatches] reads 128 bytes of fingerprint for each name and
    nothing else: it gives the same result on the index whose fingerprints
    are cut, or padded with zero bytes, to exactly 128 bytes for each name.
    Bytes after the last name's record are ignored, and a record that is
    missing counts as all zeros. *)
Theorem findMatches_reads_one_record_per_name
  (svg : string) (names : list string) (hashes : Buffer)
  (options : MatchOptions.t) :
  findMatches sharpRaw svg (IconIndex.mk names hashes) options
  = findMatches sharpRaw svg
      (IconIndex.mk names
         (take (length names * HASH_BYTES)
            (hashes ++ alloc (length names * HASH_BYTES))))
      options.
Proof.
  unfold findMatches.
  destruct (computeDHash sharpRaw svg _) as [inputHash|]; [|reflexivity].
  cbn [mbind option_bind]. unfold matchHash.
  rewrite (scanIndex_take_pad inputHash names hashes). reflexivity.
Qed.

End Normal.

(** ** Fetching an icon *)

Lemma namePart_inv s : namePart s = true -> JS.truthy s = true /\ hasChar ":" s = false.
Proof.
  unfold namePart. intros H. apply andb_prop in H as [H1 H2].
  split; [exact H1 | now apply negb_true_iff].
Qed.

Section Fetching.

Variable fetch : string -> option Response.t.

(** X27. A name without a colon, a name that starts with a colon, and a name
    with nothing between its first colon and the next colon or the end, is
    rejected as invalid before any request is made. *)
Theorem fetchIconSvg_rejects_without_request (name : string)
  (Hshape : hasChar ":" name = false
            \/ (exists rest, name = String ":" rest)
            \/ (exists prefix rest, hasChar ":" prefix = false
                  /\ (name = prefix ++ ":" \/ name = prefix ++ "::" ++ rest))%string) :
  fetchIconSvg fetch name = ([], inl (InvalidIconName name)).
Proof.
  unfold fetchIconSvg.
  destruct Hshape as [H|[(rest & ->)|(prefix & rest & Hp & [->| ->])]].
  - rewrite split_no_sep by assumption. reflexivity.
  - cbn [JS.split]. rewrite Ascii.eqb_refl. cbn [lookup list_lookup].
    destruct (JS.split ":" rest !! 0%nat); reflexivity.
  - change (prefix ++ ":")%string with (prefix ++ String ":" "")%string.
    rewrite split_app_sep by assumption. cbn [JS.split lookup list_lookup JS.truthy negb].
    now rewrite orb_true_r.
  - change (prefix ++ "::" ++ rest)%string
      with (prefix ++ String ":" (String ":" rest))%string.
    rewrite split_app_sep by assumption. cbn [JS.split]. rewrite Ascii.eqb_refl.
    cbn [lookup list_lookup JS.truthy negb]. now rewrite orb_true_r.
Qed.

(** X28. For a name [prefix:icon], also when followed by a colon and more,
    with [prefix] and [icon] not empty, [fetchIconSvg] makes exactly one
    request, to [https://api.iconify.design/prefix/icon.svg]; it returns the
    text of an ok response, fails with the status of any other response,
    and fails when the request is rejected.  What follows a second colon is
    ignored. *)
Theorem fetchIconSvg_requests_first_two_parts (prefix icon tail : string)
  (Hprefix : namePart prefix = true) (Hicon : namePart icon = true)
  (Htail : tail = EmptyString \/ exists rest, tail = String ":" rest) :
  let name := (prefix ++ ":" ++ icon ++ tail)%string in
  let url := ("https://api.iconify.design/" ++ prefix ++ "/" ++ icon ++ ".svg")%string in
  fetchIconSvg fetch name
  = ([url],
     match fetch url with
     | None => inl FetchRejected
     | Some res =>
         if Response.ok res then inr (Response.text res)
         else inl (FetchFailed name (Response.status res))
     end).
Proof.
  intros name url.
  apply namePart_inv in Hprefix as [Tp Cp]. apply namePart_inv in Hicon as [Ti Ci].
  assert (Hsplit : exists more, JS.split ":" name = prefix :: icon :: more).
  { unfold name. change (prefix ++ ":" ++ icon ++ tail)%string
      with (prefix ++ String ":" (icon ++ tail))%string.
    rewrite split_app_sep by assumption.
    destruct Htail as [->|(rest & ->)].
    - replace (icon ++ "")%string with icon.
      + rewrite split_no_sep by assumption. now exists [].
      + clear. induction icon as [|c s IH]; [reflexivity|]. cbn. now rewrite <- IH.
    - rewrite split_app_sep by assumption. eexists. reflexivity. }
  destruct Hsplit as (more & Hsplit).
  unfold fetchIconSvg. rewrite Hsplit. cbn [lookup list_lookup].
  rewrite Tp, Ti. cbn [negb orb]. cbv zeta.
  change ("https://api.iconify.design/" ++ prefix ++ "/" ++ icon ++ ".svg")%string
    with url.
  destruct (fetch url) as [res|]; [|reflexivity].
  destruct (Response.ok res); reflexivity.
Qed.

End Fetching.

(** A name without a colon. *)
Lemma fetchIconSvg_rejects_without_request_witness :
  fetchIconSvg sampleFetch "invalid" = ([], inl (InvalidIconName "invalid")).
Proof.
  apply (fetchIconSvg_rejects_without_request sampleFetch "invalid").
  left. reflexivity.
Defined.

(** A name with a third part. *)
Lemma fetchIconSvg_requests_first_two_parts_witness :
  fetchIconSvg sampleFetch "lucide:home:outline"
  = (["https://api.iconify.design/lucide/home.svg"%string], inr "<svg>home</svg>"%string).
Proof.
  apply (fetchIconSvg_requests_first_two_parts sampleFetch "lucide" "home" ":outline").
  - reflexivity.
  - reflexivity.
  - right. eexists. reflexivity.
Defined.

(** ** Exact matches *)

Lemma In_take {A} (n : nat) (l : list A) x : In x (take n l) -> In x l.
Proof.
  revert l. induction n as [|n IH]; intros [|a l]; cbn; try tauto.
  intros [->|H]; [now left | right; now apply IH].
Qed.

Lemma recordAt_full h : length h = HASH_BYTES -> recordAt h 0 = h.
Proof.
  intros Hh. unfold recordAt. rewrite drop_0.
  rewrite take_app_le by lia. apply take_ge. lia.
Qed.

Lemma offset_distance_unfold h buf offset :
  hammingDistanceAtOffset h buf offset = distanceLoop h buf offset HASH_BYTES.
Proof. unfold hammingDistanceAtOffset. reflexivity. Qed.

Lemma zero_distance_record inputHash hashes offset :
  length inputHash = HASH_BYTES ->
  hammingDistanceAtOffset inputHash hashes offset = 0 ->
  recordAt hashes offset = inputHash.
Proof.
  intros Hlen Hd. rewrite offset_distance_unfold in Hd.
  rewrite <- distanceLoop_recordAt in Hd.
  assert (H : hammingDistance (recordAt inputHash 0) (recordAt hashes offset)
              = inr 0).
  { rewrite hammingDistance_eq_len by (rewrite !length_recordAt; reflexivity).
    rewrite length_recordAt, Hd. reflexivity. }
  rewrite hammingDistance_reference in H by (rewrite !length_recordAt; reflexivity).
  injection H as H.
  rewrite <- (recordAt_full inputHash Hlen). symmetry.
  apply differingBits_0_eq; [rewrite !length_recordAt; reflexivity | lia].
Qed.

Section Exact.

Variable sharpRaw : string -> nat -> nat -> Fit -> option Buffer.

Lemma computeDHash_length svg size h :
  computeDHash sharpRaw svg size = Some h -> length h = HASH_BYTES.
Proof.
  unfold computeDHash. destruct (sharpRaw _ _ _ _); [|discriminate].
  cbn [mbind option_bind]. intros [= <-]. apply computeHash_length.
Qed.

(** X29. A result of [findMatches] with similarity exactly 1.0 names a
    record of the index whose 128 bytes, zero-padded where the fingerprint
    buffer ends early, are the fingerprint of the query: no other record
    reaches 1.0. *)
Theorem findMatches_exact_match_is_exact
  (svg : string) (index : IconIndex.t) (options : MatchOptions.t)
  (inputHash : Buffer) (result : list IconMatch.t) (m : IconMatch.t)
  (Hhash : computeDHash sharpRaw svg
             (default DEFAULT_SIZE (MatchOptions.size options))
           = Some inputHash)
  (Hresult : findMatches sharpRaw svg index options = Some result)
  (Hin : In m result)
  (Hsim : IconMatch.similarity m = 1%float) :
  exists i,
    IconIndex.names index !! i = Some (IconMatch.name m)
    /\ recordAt (IconIndex.hashes index) (i * HASH_BYTES) = inputHash.
Proof.
  rewrite (findMatches_matchHash _ _ _ _ _ _ Hhash Hresult) in Hin.
  unfold JS.slice0 in Hin. apply In_take in Hin.
  apply (proj1 (In_sort _ _ _)) in Hin.
  apply In_scanIndex in Hin as (i & Hi).
  apply candidateAt_Some in Hi as [Hname Hs].
  exists i. split; [exact Hname|].
  rewrite Hsim in Hs. rewrite recordSimilarity_eq in Hs. rewrite similarityOfDistance_simOf in Hs.
  symmetry in Hs. apply simOf_one in Hs; [|apply offset_distance_range].
  apply zero_distance_record; [|exact Hs].
  eapply computeDHash_length, Hhash.
Qed.

End Exact.

(** The second of two records that equal the fingerprint of a black raster. *)
Lemma findMatches_exact_match_is_exact_witness :
  exists i,
    IconIndex.names homeIndex !! i = Some "mdi:home"%string
    /\ recordAt (IconIndex.hashes homeIndex) (i * HASH_BYTES) = alloc HASH_BYTES.
Proof.
  apply (findMatches_exact_match_is_exact sampleSharp "<svg/>" homeIndex
           preferLucide (alloc HASH_BYTES)
           [IconMatch.mk "lucide:home" (similarityOfDistance 0);
            IconMatch.mk "mdi:home" (similarityOfDistance 0);
            IconMatch.mk "mdi:house" (similarityOfDistance 5)]
           (IconMatch.mk "mdi:home" (similarityOfDistance 0))).
  - vm_compute. reflexivity.
  - vm_compute. reflexivity.
  - right. left. reflexivity.
  - vm_compute. reflexivity.
Defined.

(** ** The cells behind the entries of [buildIndex] *)

Section Cells.

Variable sharpRaw : string -> nat -> nat -> Fit -> option Buffer.
Variable createSpriteSheet : list IconInput.t -> nat -> nat -> string.

(** X30. When the sprite sheets of the earlier batches render, and the
    sheet of the batch that icon [p] falls in renders to a raster of the
    size asked for, entry [p] of the index that [buildIndex] builds is the
    name of icon [p] together with the fingerprint that
    [computeHashFromPixels] computes from the cell of that icon alone: cell
    [p mod 1000] of that sprite sheet. *)
Theorem buildIndex_stores_cell_fingerprints
  (icons : list IconInput.t) (size p : nat) (icon : IconInput.t) (data : Buffer)
  (Hrender : forall k, (k < p / batchSize)%nat ->
     is_Some (spriteOf sharpRaw createSpriteSheet size
                (take batchSize (drop (k * batchSize) icons))))
  (Hicon : icons !! p = Some icon)
  (Hsprite : spriteOf sharpRaw createSpriteSheet size (batchOf icons p)
             = Some data)
  (Hdata : length data
           = (SPRITE_COLS * (size + 1)
              * (ceilDiv (length (batchOf icons p)) SPRITE_COLS * size))%nat) :
  (buildEntries sharpRaw createSpriteSheet icons size).1 !! p
  = Some (IconInput.name icon)
  /\ (buildEntries sharpRaw createSpriteSheet icons size).2 !! p
     = Some (computeHashFromPixels (cellOf data size (p mod batchSize))
               size (size + 1)).
Proof.
  set (j := (p mod batchSize)%nat).
  assert (Hpn : (p < length icons)%nat) by (eapply lookup_lt_Some, Hicon).
  destruct (entryOf_rendered sharpRaw createSpriteSheet size icons p icon data Hicon Hsprite) as (h & Hh & E).
  assert (Hlook : survivors sharpRaw createSpriteSheet size icons !! p
                  = Some (IconInput.name icon, h)).
  { unfold survivors. rewrite omap_lookup_prefix.
    - rewrite lookup_seq_lt by exact Hpn. cbn [mbind option_bind Nat.add]. exact E.
    - intros q x Hq Hx. apply lookup_seq in Hx as [-> Hqn]. cbn [Nat.add].
      destruct (lookup_lt_is_Some_2 icons q Hqn) as [icon' Hicon'].
      assert (Hsheet : is_Some (spriteOf sharpRaw createSpriteSheet size
                                  (batchOf icons q))).
      { pose proof (Nat.Div0.div_le_mono q p batchSize Hq) as Hle.
        destruct (decide (q / batchSize < p / batchSize)%nat) as [Hlt|Hge].
        - apply (Hrender _ Hlt).
        - unfold batchOf in *.
          replace (q / batchSize)%nat with (p / batchSize)%nat by lia.
          rewrite Hsprite. eexists. reflexivity. }
      destruct Hsheet as [data' Hdata'].
      destruct (entryOf_rendered sharpRaw createSpriteSheet size icons q icon' data' Hicon' Hdata')
        as (h' & _ & E').
      rewrite E'. eexists. reflexivity. }
  rewrite buildEntries_survivors. cbn [fst snd]. rewrite !list_lookup_fmap, Hlook.
  split; [reflexivity|]. cbn [fmap option_fmap option_map snd]. f_equal.
  assert (Hj : (j < length (batchOf icons p))%nat) by now apply position_in_batch.
  unfold extractHashesFromSprite in Hh. rewrite lookup_map_seq in Hh by exact Hj.
  injection Hh as <-.
  unfold computeHashFromPixels, cellOf. f_equal.
  apply cell_rows_eq.
  - pose proof (Nat.mod_upper_bound j SPRITE_COLS ltac:(discriminate)). nia.
  - rewrite Hdata.
    assert (Hrows : (j / SPRITE_COLS + 1
                     <= ceilDiv (length (batchOf icons p)) SPRITE_COLS)%nat).
    { unfold ceilDiv, SPRITE_COLS in *.
      pose proof (Nat.div_mod j 50 ltac:(discriminate)).
      pose proof (Nat.mod_upper_bound j 50 ltac:(discriminate)).
      pose proof (Nat.div_mod (length (batchOf icons p) + 50 - 1) 50 ltac:(discriminate)).
      pose proof (Nat.mod_upper_bound (length (batchOf icons p) + 50 - 1) 50
                    ltac:(discriminate)).
      lia. }
    nia.
Qed.

End Cells.

(** Icon 1000 of 1001: the first icon of the second batch, whose cell is
    the first of the second sprite sheet. *)
Lemma buildIndex_stores_cell_fingerprints_witness :
  ((buildEntries inkSharp sampleSprite manyIcons 8).1 !! 1000%nat
   = Some (IconInput.name (IconInput.mk "mdi:check" "cba"))
   /\ (buildEntries inkSharp sampleSprite manyIcons 8).2 !! 1000%nat
      = Some (computeHashFromPixels
                (cellOf (default [] (inkSharp "cba" (SPRITE_COLS * (8 + 1)) (1 * 8) Fill))
                   8 (1000 mod batchSize))
                8 (8 + 1)))
  /\ take 2 (computeHashFromPixels
               (cellOf (default [] (inkSharp "cba" (SPRITE_COLS * (8 + 1)) (1 * 8) Fill))
                  8 (1000 mod batchSize))
               8 (8 + 1))
     = [x24; x24].
Proof.
  split; [|vm_compute; reflexivity].
  apply (buildIndex_stores_cell_fingerprints inkSharp sampleSprite manyIcons
           8 1000 (IconInput.mk "mdi:check" "cba")).
  - intros k Hk. destruct k as [|k]; [|vm_compute in Hk; lia].
    unfold spriteOf, inkSharp.
    destruct (String.eqb _ _) eqn:E; [vm_compute in E; discriminate|].
    eexists. reflexivity.
  - vm_compute. reflexivity.
  - vm_compute. reflexivity.
  - vm_compute. reflexivity.
Defined.
